(** * libavfilter/vf_boxblur.c: the box-blur filter, embedded and verified

    The C code works on [uint8_t] buffers through pointers and strides, with
    [int] arithmetic.  The embedding keeps that shape:

    - memory is a list of blocks (one per allocated buffer), a pointer is a
      block and an offset, and a load or store outside its block is an
      error ([None]);
    - every store is recorded in a trace, so that "which sample was written,
      and when" can be stated;
    - a sample is a [byte]; [int] values are integers with the 32-bit two's
      complement wrap-around written out ([wrap32]); reading a sample
      promotes it to [int], storing an [int] into a sample keeps it modulo
      256;
    - offsets ([x*src_step] and the like) are computed in [Z]: a buffer is
      much shorter than [INT_MAX], so these products do not wrap on an
      access that stays inside its block. *)

From Stdlib Require Import ZArith Lia String.
From Stdlib.Strings Require Import Byte.
From stdpp Require Import base tactics option list numbers.

Local Open Scope Z_scope.

(** ** C integers *)

Definition wrap32 (z : Z) : Z := (z + 2 ^ 31) `mod` 2 ^ 32 - 2 ^ 31.

Definition add32 (a b : Z) : Z := wrap32 (a + b).
Definition sub32 (a b : Z) : Z := wrap32 (a - b).
Definition mul32 (a b : Z) : Z := wrap32 (a * b).
Definition shl32 (a n : Z) : Z := wrap32 (Z.shiftl a n).
Definition sar32 (a n : Z) : Z := Z.shiftr a n.
Definition div32 (a b : Z) : Z := wrap32 (Z.quot a b).

Definition FFMIN (a b : Z) : Z := if decide (a > b) then b else a.
Definition FFMAX (a b : Z) : Z := if decide (a > b) then a else b.

(** [uint8_t] to [int] and back. *)
Definition u8_to_int (b : byte) : Z := Z.of_N (Byte.to_N b).
Definition int_to_u8 (v : Z) : byte :=
  default Byte.x00 (Byte.of_N (Z.to_N (v `mod` 256))).

(** ** Memory *)

Record ptr := Ptr { blk : nat; off : Z }.

#[global] Instance ptr_eq_dec : EqDecision ptr.
Proof. solve_decision. Defined.

Definition padd (p : ptr) (d : Z) : ptr := Ptr (blk p) (off p + d).
Infix "+ₚ" := padd (at level 50, left associativity).

Record mem := Mem { heap : list (list byte); trace : list ptr }.

Definition load (m : mem) (p : ptr) : option Z :=
  if decide (0 ≤ off p) then
    b ← heap m !! blk p; u8_to_int <$> b !! Z.to_nat (off p)
  else None.

(** [*p = v] for [uint8_t *p] and [int v]. *)
Definition store (p : ptr) (v : Z) (m : mem) : option mem :=
  if decide (0 ≤ off p) then
    b ← heap m !! blk p;
    if decide (Z.to_nat (off p) < length b)%nat then
      Some (Mem (<[blk p := <[Z.to_nat (off p) := int_to_u8 v]> b]> (heap m))
                (trace m ++ [p]))
    else None
  else None.

(** ** Loops

    [for (x = lo; x < hi; x++) body] with a body that does not assign [x];
    after the loop [x] is [Z.max lo hi]. *)

Fixpoint for_each {S : Type} (xs : list Z) (body : Z → S → option S) (s : S)
  : option S :=
  match xs with
  | [] => Some s
  | x :: xs' => s' ← body x s; for_each xs' body s'
  end.

Definition for_range {S : Type} (lo hi : Z) (body : Z → S → option S) (s : S)
  : option S :=
  for_each (seqZ lo (hi - lo)) body s.

(** ** The 1-D blur *)

(** [(sum*inv + (1<<15))>>16] *)
Definition norm (inv sum : Z) : Z :=
  sar32 (add32 (mul32 sum inv) (shl32 1 15)) 16.

(** [sum += src[ia*src_step] - src[ib*src_step]; dst[x*dst_step] = ...]:
    the body shared by the three output loops of [blur]. *)
Definition slide (dst : ptr) (dst_step : Z) (src : ptr) (src_step : Z)
    (inv : Z) (ia ib : Z → Z) (x : Z) (s : Z * mem) : option (Z * mem) :=
  let '(sum, m) := s in
  a ← load m (src +ₚ ia x * src_step);
  b ← load m (src +ₚ ib x * src_step);
  let sum := add32 sum (sub32 a b) in
  m ← store (dst +ₚ x * dst_step) (norm inv sum) m;
  Some (sum, m).

(** [const int length = radius*2 + 1;
     const int inv = ((1<<16) + length/2)/length;] *)
Definition blur_inv (radius : Z) : Z :=
  let length := add32 (mul32 radius 2) 1 in
  div32 (add32 (shl32 1 16) (div32 length 2)) length.

Definition blur (dst : ptr) (dst_step : Z) (src : ptr) (src_step : Z)
    (len radius : Z) (m : mem) : option mem :=
  let inv := blur_inv radius in
  sum ← for_range 0 radius
         (λ x sum, v ← load m (src +ₚ x * src_step);
                   Some (add32 sum (shl32 v 1))) 0;
  v ← load m (src +ₚ radius * src_step);
  let sum := add32 sum v in
  s ← for_range 0 (radius + 1)
        (slide dst dst_step src src_step inv
           (λ x, radius + x) (λ x, radius - x)) (sum, m);
  let x := Z.max 0 (radius + 1) in
  s ← for_range x (len - radius)
        (slide dst dst_step src src_step inv
           (λ x, radius + x) (λ x, x - radius - 1)) s;
  let x := Z.max x (len - radius) in
  s ← for_range x len
        (slide dst dst_step src src_step inv
           (λ x, 2 * len - radius - x - 1) (λ x, x - radius - 1)) s;
  Some s.2.

(** ** The power compositor *)

(** [for (i = 0; i < len; i++) dst[i*dst_step] = src[i*src_step];] *)
Definition copy_run (dst : ptr) (dst_step : Z) (src : ptr) (src_step : Z)
    (len : Z) (m : mem) : option mem :=
  for_range 0 len
    (λ i m, v ← load m (src +ₚ i * src_step);
            store (dst +ₚ i * dst_step) v m) m.

(** [for (; power > 2; power--) { blur(b, 1, a, 1, len, radius); swap a b }],
    as a function of the number of iterations left. *)
Fixpoint ping_pong (n : nat) (len radius : Z) (a b : ptr) (m : mem)
  : option (ptr * ptr * mem) :=
  match n with
  | O => Some (a, b, m)
  | S n' => m ← blur b 1 a 1 len radius m; ping_pong n' len radius b a m
  end.

Definition blur_power (dst : ptr) (dst_step : Z) (src : ptr) (src_step : Z)
    (len radius power : Z) (temp0 temp1 : ptr) (m : mem) : option mem :=
  if bool_decide (radius ≠ 0) && bool_decide (power ≠ 0) then
    m ← blur temp0 1 src src_step len radius m;
    '(a, b, m) ← ping_pong (Z.to_nat (power - 2)) len radius temp0 temp1 m;
    if decide (power > 1) then blur dst dst_step a 1 len radius m
    else copy_run dst dst_step a 1 len m
  else copy_run dst dst_step src src_step len m.

(** ** The plane drivers *)

Definition hblur (dst : ptr) (dst_linesize : Z) (src : ptr) (src_linesize : Z)
    (w h radius power : Z) (temp0 temp1 : ptr) (m : mem) : option mem :=
  if bool_decide (radius = 0) && bool_decide (dst = src) then Some m
  else
    for_range 0 h
      (λ y, blur_power (dst +ₚ y * dst_linesize) 1 (src +ₚ y * src_linesize) 1
              w radius power temp0 temp1) m.

Definition vblur (dst : ptr) (dst_linesize : Z) (src : ptr) (src_linesize : Z)
    (w h radius power : Z) (temp0 temp1 : ptr) (m : mem) : option mem :=
  if bool_decide (radius = 0) && bool_decide (dst = src) then Some m
  else
    for_range 0 w
      (λ x, blur_power (dst +ₚ x) dst_linesize (src +ₚ x) src_linesize
              h radius power temp0 temp1) m.

(** The samples of a run, read back from memory. *)
Definition run (m : mem) (p : ptr) (step len : Z) : option (list Z) :=
  mapM (λ k, load m (p +ₚ k * step)) (seqZ 0 len).


(** ** The filter context *)

Module FilterParam.
Record t := mk { radius : Z; power : Z; radius_expr : option string }.
End FilterParam.

(** [int radius[4]; int power[4]; uint8_t *temp[2]] are lists; a pointer
    that may be [NULL] is an [option]. *)
Record BoxBlurContext := {
  luma_param : FilterParam.t;
  chroma_param : FilterParam.t;
  alpha_param : FilterParam.t;
  hsub : Z;
  vsub : Z;
  radius : list Z;
  power : list Z;
  temp : list (option ptr)
}.

Inductive component := luma | chroma | alpha.

Definition param (comp : component) (boxblur : BoxBlurContext) : FilterParam.t :=
  match comp with
  | luma => luma_param boxblur
  | chroma => chroma_param boxblur
  | alpha => alpha_param boxblur
  end.

Definition set_param (comp : component) (fp : FilterParam.t)
    (boxblur : BoxBlurContext) : BoxBlurContext :=
  {| luma_param := if comp is luma then fp else luma_param boxblur;
     chroma_param := if comp is chroma then fp else chroma_param boxblur;
     alpha_param := if comp is alpha then fp else alpha_param boxblur;
     hsub := hsub boxblur; vsub := vsub boxblur;
     radius := radius boxblur; power := power boxblur; temp := temp boxblur |}.

Definition set_radius_expr (e : option string) (fp : FilterParam.t) : FilterParam.t :=
  FilterParam.mk (FilterParam.radius fp) (FilterParam.power fp) e.
Definition set_power (p : Z) (fp : FilterParam.t) : FilterParam.t :=
  FilterParam.mk (FilterParam.radius fp) p (FilterParam.radius_expr fp).
Definition set_radius (r : Z) (fp : FilterParam.t) : FilterParam.t :=
  FilterParam.mk r (FilterParam.power fp) (FilterParam.radius_expr fp).

(** Return values are [int]s: [0] for success, and a negative code for an
    error, be it [AVERROR(e)] or whatever the expression evaluator
    returned.  [AVERROR(e)] is [-(e)] (libavutil/error.h, where [EDOM] is
    positive), with the numbers of errno.h. *)
Inductive errno := EINVAL | ENOMEM.

Definition errno_value (e : errno) : Z :=
  match e with
  | EINVAL => 22
  | ENOMEM => 12
  end.

Definition AVERROR (e : errno) : Z := - errno_value e.

(** What [av_log] is called with. *)
Inductive log_msg :=
| LumaNotSet
| EvalFailed (comp : component) (expr : string)
| Params (luma_radius luma_power chroma_radius chroma_power
          alpha_radius alpha_power w chroma_w h chroma_h : Z)
| InvalidRadius (comp : component) (radius max : Z).

(** ** init

    [av_strdup] is libavutil's: a copy of the string, or [NULL] when the
    allocation fails.  Whether it fails depends on the state of the
    allocator and not on the string, so each of the two calls has an
    outcome of its own: [av_strdup comp] is what the call made for the
    component [comp] returns. *)
Definition init (av_strdup : component → string → option string)
    (boxblur : BoxBlurContext) : Z * BoxBlurContext * list log_msg :=
  match FilterParam.radius_expr (luma_param boxblur) with
  | None => (AVERROR EINVAL, boxblur, [LumaNotSet])
  | Some luma_expr =>
    (* fill missing params *)
    let chroma_dup :=
      match FilterParam.radius_expr (chroma_param boxblur) with
      | None => av_strdup chroma luma_expr
      | Some e => Some e
      end in
    let boxblur := set_param chroma
      (set_radius_expr chroma_dup (chroma_param boxblur)) boxblur in
    match chroma_dup with
    | None => (AVERROR ENOMEM, boxblur, [])
    | Some _ =>
      let boxblur :=
        if decide (FilterParam.power (chroma_param boxblur) < 0)
        then set_param chroma
               (set_power (FilterParam.power (luma_param boxblur))
                  (chroma_param boxblur)) boxblur
        else boxblur in
      let alpha_dup :=
        match FilterParam.radius_expr (alpha_param boxblur) with
        | None => av_strdup alpha luma_expr
        | Some e => Some e
        end in
      let boxblur := set_param alpha
        (set_radius_expr alpha_dup (alpha_param boxblur)) boxblur in
      match alpha_dup with
      | None => (AVERROR ENOMEM, boxblur, [])
      | Some _ =>
        let boxblur :=
          if decide (FilterParam.power (alpha_param boxblur) < 0)
          then set_param alpha
                 (set_power (FilterParam.power (luma_param boxblur))
                    (alpha_param boxblur)) boxblur
          else boxblur in
        (0, boxblur, [])
      end
    end
  end.

(** ** config_input

    The externals are parameters: [malloc0], [malloc1] are the results of
    the two [av_malloc(FFMAX(w, h))] calls, [log2_chroma_w], [log2_chroma_h]
    come from the pixel format descriptor, and [av_expr_parse_and_eval]
    gives, for an expression and the values of [var_names], its return
    code and its result converted to [int] (the conversion of the
    assignment [radius = res]). *)

Definition with_temp (t : list (option ptr)) (boxblur : BoxBlurContext)
  : BoxBlurContext :=
  {| luma_param := luma_param boxblur; chroma_param := chroma_param boxblur;
     alpha_param := alpha_param boxblur;
     hsub := hsub boxblur; vsub := vsub boxblur;
     radius := radius boxblur; power := power boxblur; temp := t |}.

Definition with_sub (hs vs : Z) (boxblur : BoxBlurContext) : BoxBlurContext :=
  {| luma_param := luma_param boxblur; chroma_param := chroma_param boxblur;
     alpha_param := alpha_param boxblur;
     hsub := hs; vsub := vs;
     radius := radius boxblur; power := power boxblur; temp := temp boxblur |}.

Definition with_planes (rs ps : list Z) (boxblur : BoxBlurContext)
  : BoxBlurContext :=
  {| luma_param := luma_param boxblur; chroma_param := chroma_param boxblur;
     alpha_param := alpha_param boxblur;
     hsub := hsub boxblur; vsub := vsub boxblur;
     radius := rs; power := ps; temp := temp boxblur |}.

(** [EVAL_RADIUS_EXPR(comp)], followed by the rest of the function. *)
Definition EVAL_RADIUS_EXPR
    (av_expr_parse_and_eval : string → list Z → Z * Z) (var_values : list Z)
    (comp : component) (boxblur : BoxBlurContext)
    (rest : BoxBlurContext → option (Z * BoxBlurContext * list log_msg))
  : option (Z * BoxBlurContext * list log_msg) :=
  expr ← FilterParam.radius_expr (param comp boxblur);
  let '(ret, res) := av_expr_parse_and_eval expr var_values in
  let boxblur := set_param comp (set_radius res (param comp boxblur)) boxblur in
  if decide (ret < 0) then Some (ret, boxblur, [EvalFailed comp expr])
  else rest boxblur.

(** [CHECK_RADIUS_VAL(w_, h_, comp)], followed by the rest of the function. *)
Definition CHECK_RADIUS_VAL (w_ h_ : Z) (comp : component)
    (boxblur : BoxBlurContext) (log : list log_msg)
    (rest : option (Z * BoxBlurContext * list log_msg))
  : option (Z * BoxBlurContext * list log_msg) :=
  let r := FilterParam.radius (param comp boxblur) in
  if decide (r < 0 ∨ mul32 2 r > FFMIN w_ h_) then
    Some (AVERROR EINVAL, boxblur,
          log ++ [InvalidRadius comp r (div32 (FFMIN w_ h_) 2)])
  else rest.

Definition config_input
    (av_expr_parse_and_eval : string → list Z → Z * Z)
    (malloc0 malloc1 : option ptr) (log2_chroma_w log2_chroma_h : Z)
    (w h : Z) (boxblur : BoxBlurContext)
  : option (Z * BoxBlurContext * list log_msg) :=
  let boxblur := with_temp [malloc0; temp boxblur !!! 1%nat] boxblur in
  if decide (malloc0 = None) then Some (AVERROR ENOMEM, boxblur, []) else
  let boxblur := with_temp [malloc0; malloc1] boxblur in
  if decide (malloc1 = None) then Some (AVERROR ENOMEM, boxblur, []) else
  let boxblur := with_sub log2_chroma_w log2_chroma_h boxblur in
  let cw := sar32 w (hsub boxblur) in
  let ch := sar32 h (vsub boxblur) in
  let var_values :=
    [w; h; cw; ch; shl32 1 (hsub boxblur); shl32 1 (vsub boxblur)] in
  EVAL_RADIUS_EXPR av_expr_parse_and_eval var_values luma boxblur (λ boxblur,
  EVAL_RADIUS_EXPR av_expr_parse_and_eval var_values chroma boxblur (λ boxblur,
  EVAL_RADIUS_EXPR av_expr_parse_and_eval var_values alpha boxblur (λ boxblur,
  let log :=
    [Params (FilterParam.radius (luma_param boxblur))
            (FilterParam.power (luma_param boxblur))
            (FilterParam.radius (chroma_param boxblur))
            (FilterParam.power (chroma_param boxblur))
            (FilterParam.radius (alpha_param boxblur))
            (FilterParam.power (alpha_param boxblur)) w cw h ch] in
  CHECK_RADIUS_VAL w h luma boxblur log (
  CHECK_RADIUS_VAL cw ch chroma boxblur log (
  CHECK_RADIUS_VAL w h alpha boxblur log (
  let lr := FilterParam.radius (luma_param boxblur) in
  let cr := FilterParam.radius (chroma_param boxblur) in
  let ar := FilterParam.radius (alpha_param boxblur) in
  let lp := FilterParam.power (luma_param boxblur) in
  let cp := FilterParam.power (chroma_param boxblur) in
  let ap := FilterParam.power (alpha_param boxblur) in
  Some (0, with_planes [lr; cr; cr; ar] [lp; cp; cp; ap] boxblur, log))))))).

(** ** filter_frame *)

(** [uint8_t *data[8]; int linesize[8]; int height]. *)
Record AVFrame := {
  data : list (option ptr);
  linesize : list Z;
  height : Z
}.

(** What the call leaves: an error code, or the frame handed to
    [ff_filter_frame]. *)
Inductive emitted := Error (e : errno) | Frame (out : AVFrame).

(** [for (plane = 0; in->data[plane] && plane < 4; plane++) body]; [n]
    bounds the number of tests of the condition, which is at most five. *)
Fixpoint for_planes (n plane : nat) (in_data : list (option ptr))
    (body : nat → mem → option mem) (m : mem) : option mem :=
  match n with
  | O => None
  | S n' =>
    d ← in_data !! plane;
    match d with
    | None => Some m
    | Some _ =>
      if decide (plane < 4)%nat then
        m ← body plane m; for_planes n' (S plane) in_data body m
      else Some m
    end
  end.

(** [av_frame_free(&in)] gives up the input frame.  The frame was handed
    to the filter, and what the filter has released it may not touch again:
    the blocks of the frame's planes become empty, so that a later load or
    store through one of them is an error. *)
Definition free_block (b : nat) (m : mem) : mem :=
  Mem (<[b := []]> (heap m)) (trace m).

Definition av_frame_free (frame : AVFrame) (m : mem) : mem :=
  foldr (λ d m, if d is Some q then free_block (blk q) m else m) m (data frame).

(** [out] is what [ff_get_video_buffer] returned; [inlink_w] is
    [inlink->w].  Copying the frame properties does not touch the samples
    and is left out. *)
Definition filter_frame (boxblur : BoxBlurContext) (inlink_w : Z)
    (in_ : AVFrame) (out : option AVFrame) (m : mem) : option (emitted * mem) :=
  let cw := sar32 inlink_w (hsub boxblur) in
  let ch := sar32 (height in_) (vsub boxblur) in
  let w := [inlink_w; cw; cw; inlink_w] in
  let h := [height in_; ch; ch; height in_] in
  match out with
  | None => Some (Error ENOMEM, av_frame_free in_ m)
  | Some out =>
    t0 ← mjoin (temp boxblur !! 0%nat);
    t1 ← mjoin (temp boxblur !! 1%nat);
    m ← for_planes 5 0 (data in_) (λ plane m,
          dst ← mjoin (data out !! plane); dls ← linesize out !! plane;
          src ← mjoin (data in_ !! plane); sls ← linesize in_ !! plane;
          wp ← w !! plane; hp ← h !! plane;
          r ← radius boxblur !! plane; p ← power boxblur !! plane;
          hblur dst dls src sls wp hp r p t0 t1 m) m;
    m ← for_planes 5 0 (data in_) (λ plane m,
          dst ← mjoin (data out !! plane); dls ← linesize out !! plane;
          wp ← w !! plane; hp ← h !! plane;
          r ← radius boxblur !! plane; p ← power boxblur !! plane;
          vblur dst dls dst dls wp hp r p t0 t1 m) m;
    Some (Frame out, av_frame_free in_ m)
  end.

(** * Vocabulary of the statements *)

(** ** Memory *)

Definition in_bounds (m : mem) (p : ptr) : Prop := is_Some (load m p).

Definition same_shape (m m' : mem) : Prop :=
  length <$> heap m = length <$> heap m'.

(** [vs] stored from position [x] of the run at [p]. *)
Fixpoint store_run (p : ptr) (step x : Z) (vs : list Z) (m : mem) : option mem :=
  match vs with
  | [] => Some m
  | v :: vs' => m' ← store (p +ₚ x * step) v m; store_run p step (x + 1) vs' m'
  end.

Definition is_run (m : mem) (p : ptr) (step : Z) (l : list Z) : Prop :=
  ∀ (i : nat) v, l !! i = Some v → load m (p +ₚ Z.of_nat i * step) = Some v.

(** ** Window sums *)

Definition rdz (l : list Z) (k : Z) : Z := default 0 (l !! Z.to_nat k).

(** The index read for position [i] of the padded run: the run is extended
    on both sides by its mirror image, edge sample included. *)
Definition refl (len i : Z) : Z :=
  if decide (i < 0) then - 1 - i
  else if decide (len ≤ i) then 2 * len - 1 - i
  else i.

Definition sumZ (f : Z → Z) (lo n : Z) : Z := foldr Z.add 0 (f <$> seqZ lo n).

Definition win (l : list Z) (r x : Z) : Z :=
  sumZ (λ i, rdz l (refl (Z.of_nat (length l)) i)) (x - r) (2 * r + 1).

Definition blur_at (r : Z) (l : list Z) (x : Z) : Z :=
  norm (blur_inv r) (wrap32 (win l r x)).

(** The values [blur] computes for a run, and the samples it stores. *)
Definition blur_raw (r : Z) (l : list Z) : list Z :=
  blur_at r l <$> seqZ 0 (Z.of_nat (length l)).

Definition blur_out (r : Z) (l : list Z) : list Z :=
  (λ v, v `mod` 256) <$> blur_raw r l.

(** The loop invariant of [blur]: before the iteration for [x], [sum] is the
    window sum of position [x - 1] and the samples before [x] are written. *)
Definition blur_state (m : mem) (dst : ptr) (ds : Z) (r : Z) (l : list Z)
    (x : Z) (s : Z * mem) : Prop :=
  s.1 = wrap32 (win l r (x - 1)) ∧
  store_run dst ds 0 (blur_at r l <$> seqZ 0 x) m = Some s.2.

(** ** Runs and passes *)

Definition is_byte (v : Z) : Prop := 0 ≤ v < 256.

(** [power] blur passes over a run, as [blur_power] composes them. *)
Definition bp_out (r p : Z) (l : list Z) : list Z :=
  if bool_decide (r ≠ 0) && bool_decide (p ≠ 0)
  then Nat.iter (Z.to_nat p) (blur_out r) l
  else l.

(** The parameters [blur_power] is meant for: nothing to blur, or a window
    that fits in the run. *)
Definition pass_ok (r p len : Z) : Prop :=
  r = 0 ∨ p = 0 ∨ (0 < r ∧ 0 < p ∧ 2 * r < len).

(** Only the two scratch blocks differ between [m] and [m']. *)
Definition temps_only (t0 t1 : ptr) (m m' : mem) : Prop :=
  same_shape m m' ∧
  (∀ b, b ≠ blk t0 → b ≠ blk t1 → heap m' !! b = heap m !! b) ∧
  ∃ tw, trace m' = trace m ++ tw ∧
        Forall (λ q, blk q = blk t0 ∨ blk q = blk t1) tw.

(** ** Planes *)

(** Sample ([x], [y]) of the plane at [p] with line size [ls]. *)
Definition cell (p : ptr) (ls x y : Z) : ptr := p +ₚ (y * ls + x).

Definition plane_of (m : mem) (p : ptr) (ls : Z) (x y : Z) : Z :=
  default 0 (load m (cell p ls x y)).

Definition row (pl : Z → Z → Z) (w y : Z) : list Z := (λ x, pl x y) <$> seqZ 0 w.
Definition col (pl : Z → Z → Z) (h x : Z) : list Z := (λ y, pl x y) <$> seqZ 0 h.

(** A [w] by [h] plane with line size [ls] lies inside its block. *)
Definition plane_fits (m : mem) (p : ptr) (ls w h : Z) : Prop :=
  0 < w ≤ ls ∧ 0 < h ∧ 0 ≤ off p ∧
  ∃ b, heap m !! blk p = Some b ∧ off p + (h - 1) * ls + w ≤ Z.of_nat (length b).

(** A scratch buffer of at least [n] samples. *)
Definition temp_fits (m : mem) (t : ptr) (n : Z) : Prop :=
  0 ≤ off t ∧ ∃ b, heap m !! blk t = Some b ∧ off t + n ≤ Z.of_nat (length b).

(** The stores that did not go to the scratch buffers, in order. *)
Definition user_trace (t0 t1 : ptr) (m : mem) : list ptr :=
  filter (λ q, blk q ≠ blk t0 ∧ blk q ≠ blk t1) (trace m).

(** Both plane drivers run [blur_power] over [n] runs of [len] samples: run
    [i] starts [i * a] after the plane's origin and has step [b]. *)
Definition pass (dst : ptr) (da db : Z) (src : ptr) (sa sb : Z)
    (n len radius power : Z) (temp0 temp1 : ptr) (m : mem) : option mem :=
  for_range 0 n
    (λ i, blur_power (dst +ₚ i * da) db (src +ₚ i * sa) sb
            len radius power temp0 temp1) m.

(** The cells a pass writes, run after run. *)
Definition pass_cells (dst : ptr) (da db : Z) (n len : Z) : list ptr :=
  i ← seqZ 0 n; (λ k, dst +ₚ (i * da + k * db)) <$> seqZ 0 len.

(** The run [i] of a plane given by its samples [sv i k]. *)
Definition run_of (sv : Z → Z → Z) (len i : Z) : list Z :=
  sv i <$> seqZ 0 len.

(** What a pass over the runs [0 .. i) of a plane has established. *)
Definition pass_state (m : mem) (dst : ptr) (da db : Z) (src : ptr) (sa sb : Z)
    (n len r p : Z) (t0 t1 : ptr) (sv : Z → Z → Z) (i : Z) (mc : mem) : Prop :=
  same_shape m mc ∧
  (∀ b, b ≠ blk dst → b ≠ blk t0 → b ≠ blk t1 → heap mc !! b = heap m !! b) ∧
  (∀ i' k, 0 ≤ i' < i → 0 ≤ k < len →
     load mc (dst +ₚ (i' * da + k * db)) =
     Some (rdz (bp_out r p (run_of sv len i')) k)) ∧
  (∀ i' k, i ≤ i' < n → 0 ≤ k < len →
     load mc (src +ₚ (i' * sa + k * sb)) = Some (sv i' k)) ∧
  user_trace t0 t1 mc = user_trace t0 t1 m ++ pass_cells dst da db i len.

(** The buffers a plane driver works on: source and destination plane
    inside their blocks, two scratch buffers of [max w h] samples in blocks
    of their own, and a destination that is either in another block than
    the source or the source itself. *)
Definition layout_ok (m : mem) (dst : ptr) (dls : Z) (src : ptr) (sls : Z)
    (w h : Z) (t0 t1 : ptr) : Prop :=
  plane_fits m src sls w h ∧ plane_fits m dst dls w h ∧
  temp_fits m t0 (Z.max w h) ∧ temp_fits m t1 (Z.max w h) ∧
  blk t0 ≠ blk t1 ∧ blk t0 ≠ blk src ∧ blk t1 ≠ blk src ∧
  blk t0 ≠ blk dst ∧ blk t1 ≠ blk dst ∧
  (blk dst ≠ blk src ∨ (dst = src ∧ dls = sls)).

(** The plane after the horizontal and after the vertical pass. *)
Definition hblur_plane (r p w : Z) (pl : Z → Z → Z) (x y : Z) : Z :=
  rdz (bp_out r p (row pl w y)) x.

Definition vblur_plane (r p h : Z) (pl : Z → Z → Z) (x y : Z) : Z :=
  rdz (bp_out r p (col pl h x)) y.

(** The samples of a plane row by row, and column by column. *)
Definition hblur_cells (dst : ptr) (ls w h : Z) : list ptr :=
  y ← seqZ 0 h; (λ x, cell dst ls x y) <$> seqZ 0 w.

Definition vblur_cells (dst : ptr) (ls w h : Z) : list ptr :=
  x ← seqZ 0 w; (λ y, cell dst ls x y) <$> seqZ 0 h.

(** What a plane driver leaves: blocks keep their sizes, blocks other than
    the destination and the scratch buffers keep their contents, the
    destination holds the plane [out], and the stores outside the scratch
    buffers are [cells], in that order. *)
Definition driver_post (m : mem) (dst : ptr) (dls w h : Z) (t0 t1 : ptr)
    (out : Z → Z → Z) (cells : list ptr) (m' : mem) : Prop :=
  same_shape m m' ∧
  (∀ b, b ≠ blk dst → b ≠ blk t0 → b ≠ blk t1 → heap m' !! b = heap m !! b) ∧
  (∀ x y, 0 ≤ x < w → 0 ≤ y < h → load m' (cell dst dls x y) = Some (out x y)) ∧
  user_trace t0 t1 m' = user_trace t0 t1 m ++ cells.

(** ** Arithmetic of one pass *)

(** What a pass makes of a run of equal samples [v]. *)
Definition blur_const (r v : Z) : Z :=
  norm (blur_inv r) (wrap32 ((2 * r + 1) * v)) `mod` 256.

(** The average of [n] samples of sum [s], rounded to the nearest integer. *)
Definition round_avg (s n : Z) : Z := (2 * s + n) `div` (2 * n).

Definition sum_list (l : list Z) : Z := foldr Z.add 0 l.

(** ** The 1-D blur on a run of its own *)

(** [blur] from a buffer holding the run [l] into a second buffer of the
    same length, both with step 1. *)
Definition blur_on_run (r : Z) (l : list Z) : option (list Z) :=
  let len := Z.of_nat (length l) in
  m' ← blur (Ptr 1 0) 1 (Ptr 0 0) 1 len r
         (Mem [int_to_u8 <$> l; replicate (length l) Byte.x00] []);
  run m' (Ptr 1 0) 1 len.


(** The buffers of one [blur_power] call: the destination run and the two
    scratch buffers lie inside their blocks, the scratch buffers are in
    blocks of their own, and the destination is in another block than the
    source or is the source itself. *)
Definition run_layout (m : mem) (dst : ptr) (ds : Z) (src : ptr) (ss : Z)
    (len : Z) (t0 t1 : ptr) : Prop :=
  ds ≠ 0 ∧
  (∀ k, 0 ≤ k < len → in_bounds m (dst +ₚ k * ds)) ∧
  (∀ k, 0 ≤ k < len → in_bounds m (t0 +ₚ k * 1)) ∧
  (∀ k, 0 ≤ k < len → in_bounds m (t1 +ₚ k * 1)) ∧
  blk t0 ≠ blk t1 ∧ blk t0 ≠ blk src ∧ blk t1 ≠ blk src ∧
  blk t0 ≠ blk dst ∧ blk t1 ≠ blk dst ∧
  (blk dst ≠ blk src ∨ (dst = src ∧ ds = ss)).

(** The plane after both passes, horizontal first. *)
Definition blur_plane (r p w h : Z) (pl : Z → Z → Z) : Z → Z → Z :=
  vblur_plane r p h (hblur_plane r p w pl).

(** The normalisation when nothing wraps around. *)
Definition norm_z (inv sum : Z) : Z := (sum * inv + 32768) `div` 65536.

(** Checks by enumeration over the radius, the sample value [v] of a run of
    equal samples, and the window sum [s]. *)
Definition fits_inv (r inv : Z) : bool :=
  bool_decide (0 ≤ inv) &&
  bool_decide (255 * (2 * r + 1) * inv + 32768 < 2 ^ 31).

Definition const_exact (r : Z) : bool :=
  let inv := blur_inv r in
  fits_inv r inv &&
  forallb (λ v, norm_z inv ((2 * r + 1) * v) =? v) (seqZ 0 256).

Definition centre_exact (r : Z) : bool :=
  let inv := blur_inv r in
  fits_inv r inv &&
  forallb (λ s, norm_z inv s =? round_avg s (2 * r + 1))
          (seqZ 0 (255 * (2 * r + 1) + 1)).

Definition top_in_range (r : Z) : bool :=
  let inv := blur_inv r in
  fits_inv r inv && (norm_z inv (255 * (2 * r + 1)) <=? 255).

(** ** Buffers for the examples *)

(** A run of five samples, a destination of nine, two scratch buffers. *)
Definition demo_run : list Z := [10; 200; 30; 40; 250].

Definition demo_mem : mem :=
  Mem [int_to_u8 <$> demo_run;
       int_to_u8 <$> [0; 0; 0; 0; 0; 0; 0; 0; 0];
       int_to_u8 <$> [1; 1; 1; 1; 1];
       int_to_u8 <$> [2; 2; 2; 2; 2]] [].

(** A 3 by 3 plane with line size 4, a destination plane of the same
    layout, and two scratch buffers of three samples. *)
Definition demo_plane_mem : mem :=
  Mem [int_to_u8 <$> [1; 2; 3; 99; 40; 50; 60; 99; 7; 8; 250; 99];
       int_to_u8 <$> [0; 0; 0; 77; 0; 0; 0; 77; 0; 0; 0; 77];
       int_to_u8 <$> [0; 0; 0];
       int_to_u8 <$> [0; 0; 0]] [].

(** Coordinate [x] of a line of [n] samples, read from the other end when
    [f] is set. *)
Definition mirror (f : bool) (n x : Z) : Z := if f then n - 1 - x else x.

(** The plane of [demo_plane_mem] with its rows reversed, and a plane of
    equal samples. *)
Definition demo_plane_mirrored : mem :=
  Mem [int_to_u8 <$> [3; 2; 1; 99; 60; 50; 40; 99; 250; 8; 7; 99];
       int_to_u8 <$> [0; 0; 0; 77; 0; 0; 0; 77; 0; 0; 0; 77];
       int_to_u8 <$> [0; 0; 0];
       int_to_u8 <$> [0; 0; 0]] [].

Definition demo_plane_flat : mem :=
  Mem [int_to_u8 <$> [200; 200; 200; 99; 200; 200; 200; 99; 200; 200; 200; 99];
       int_to_u8 <$> [0; 0; 0; 77; 0; 0; 0; 77; 0; 0; 0; 77];
       int_to_u8 <$> [0; 0; 0];
       int_to_u8 <$> [0; 0; 0]] [].

(** ** A filter context for the examples *)

(** The context as the option parser leaves it for [boxblur=2:2:ar=1:ap=1]:
    no chroma expression, chroma power -1. *)
Definition demo_options : BoxBlurContext :=
  {| luma_param := FilterParam.mk 0 2 (Some "2"%string);
     chroma_param := FilterParam.mk 0 (-1) None;
     alpha_param := FilterParam.mk 0 1 (Some "1"%string);
     hsub := 0; vsub := 0;
     radius := [0; 0; 0; 0]; power := [0; 0; 0; 0];
     temp := [None; None] |}.

(** An evaluator that knows three constant expressions and rejects
    everything else with -22. *)
Definition demo_eval (e : string) (var_values : list Z) : Z * Z :=
  if String.eqb e "1" then (0, 1)
  else if String.eqb e "2" then (0, 2)
  else if String.eqb e "9" then (0, 9)
  else (-22, 0).

(** The variable values [config_input] hands to the evaluator. *)
Definition var_values_of (log2_chroma_w log2_chroma_h w h : Z) : list Z :=
  [w; h; sar32 w log2_chroma_w; sar32 h log2_chroma_h;
   shl32 1 log2_chroma_w; shl32 1 log2_chroma_h].

(** Width and height of a plane, as [config_input] checks them and
    [filter_frame] passes them on: planes 1 and 2 are the chroma planes. *)
Definition plane_w (hsub w : Z) (plane : nat) : Z :=
  if decide (plane = 1 ∨ plane = 2)%nat then sar32 w hsub else w.
Definition plane_h (vsub h : Z) (plane : nat) : Z :=
  if decide (plane = 1 ∨ plane = 2)%nat then sar32 h vsub else h.

(** The plane dimensions a component's radius is checked against. *)
Definition comp_w (hsub w : Z) (comp : component) : Z :=
  if comp is chroma then sar32 w hsub else w.
Definition comp_h (vsub h : Z) (comp : component) : Z :=
  if comp is chroma then sar32 h vsub else h.

(** The component whose radius and power plane [plane] is blurred with. *)
Definition plane_comp (plane : nat) : component :=
  match plane with
  | O => luma
  | 1%nat | 2%nat => chroma
  | _ => alpha
  end.

(** [demo_options] after [init], and with a luma expression that the
    evaluator of the examples rejects or that is too large. *)
Definition demo_context : BoxBlurContext := (init (λ _, Some) demo_options).1.2.

Definition demo_context_with (luma_expr : string) : BoxBlurContext :=
  set_param luma (set_radius_expr (Some luma_expr) (luma_param demo_context))
    demo_context.

(** ** The planes of a frame *)

(** The number of pointers of [in->data] before the first [NULL]. *)
Fixpoint leading (in_data : list (option ptr)) : nat :=
  match in_data with
  | Some _ :: rest => S (leading rest)
  | _ => O
  end.

(** The number of planes the loops of [filter_frame] visit. *)
Definition nb_planes (in_data : list (option ptr)) : nat :=
  Nat.min 4 (leading in_data).

(** [body] on the planes [ps], one after the other. *)
Fixpoint run_planes (ps : list nat) (body : nat → mem → option mem) (m : mem)
  : option mem :=
  match ps with
  | [] => Some m
  | plane :: ps' => m ← body plane m; run_planes ps' body m
  end.

(** What [filter_frame] passes to [hblur] and [vblur] for one plane. *)
Record plane_desc := {
  pd_dst : ptr; pd_dls : Z;
  pd_src : ptr; pd_sls : Z;
  pd_w : Z; pd_h : Z;
  pd_r : Z; pd_p : Z
}.

Definition plane_desc_of (boxblur : BoxBlurContext) (inlink_w : Z)
    (in_ out : AVFrame) (plane : nat) : option plane_desc :=
  dst ← mjoin (data out !! plane); dls ← linesize out !! plane;
  src ← mjoin (data in_ !! plane); sls ← linesize in_ !! plane;
  r ← radius boxblur !! plane; p ← power boxblur !! plane;
  Some {| pd_dst := dst; pd_dls := dls; pd_src := src; pd_sls := sls;
          pd_w := plane_w (hsub boxblur) inlink_w plane;
          pd_h := plane_h (vsub boxblur) (height in_) plane;
          pd_r := r; pd_p := p |}.

(** The planes of a frame that [filter_frame] can work on: each plane and
    the scratch buffers laid out as the drivers need them, radius and power
    within what a pass supports, every output plane in a buffer of its
    own. *)
Definition frame_ok (m : mem) (t0 t1 : ptr) (ds : list plane_desc) : Prop :=
  (∀ i d, ds !! i = Some d →
     layout_ok m (pd_dst d) (pd_dls d) (pd_src d) (pd_sls d) (pd_w d) (pd_h d) t0 t1 ∧
     pass_ok (pd_r d) (pd_p d) (pd_w d) ∧ pass_ok (pd_r d) (pd_p d) (pd_h d)) ∧
  (∀ i j d e, ds !! i = Some d → ds !! j = Some e →
     blk (pd_dst d) ≠ blk (pd_src e) ∧ (i ≠ j → blk (pd_dst d) ≠ blk (pd_dst e))).

(** A frame of two 3 by 3 planes with line size 4, its output frame, and
    the context [config_input] would leave for it. *)
Definition demo_frame_mem : mem :=
  Mem [int_to_u8 <$> [1; 2; 3; 99; 40; 50; 60; 99; 7; 8; 250; 99];
       int_to_u8 <$> [0; 0; 0; 77; 0; 0; 0; 77; 0; 0; 0; 77];
       int_to_u8 <$> [0; 0; 0];
       int_to_u8 <$> [0; 0; 0];
       int_to_u8 <$> [128; 130; 128; 0; 126; 128; 128; 0; 128; 128; 120; 0];
       int_to_u8 <$> [0; 0; 0; 0; 0; 0; 0; 0; 0; 0; 0; 0]] [].

Definition demo_frame_in : AVFrame :=
  {| data := [Some (Ptr 0 0); Some (Ptr 4 0); None; None; None; None; None; None];
     linesize := [4; 4; 0; 0; 0; 0; 0; 0];
     height := 3 |}.

Definition demo_frame_out : AVFrame :=
  {| data := [Some (Ptr 1 0); Some (Ptr 5 0); None; None; None; None; None; None];
     linesize := [4; 4; 0; 0; 0; 0; 0; 0];
     height := 3 |}.

Definition demo_frame_context : BoxBlurContext :=
  with_planes [1; 1; 1; 1] [2; 1; 1; 2]
    (with_temp [Some (Ptr 2 0); Some (Ptr 3 0)] demo_context).

Definition demo_frame_planes : list plane_desc :=
  [ {| pd_dst := Ptr 1 0; pd_dls := 4; pd_src := Ptr 0 0; pd_sls := 4;
       pd_w := 3; pd_h := 3; pd_r := 1; pd_p := 2 |};
    {| pd_dst := Ptr 5 0; pd_dls := 4; pd_src := Ptr 4 0; pd_sls := 4;
       pd_w := 3; pd_h := 3; pd_r := 1; pd_p := 1 |} ].

(** The order in which [config_input] goes through the components. *)
Definition comp_index (comp : component) : nat :=
  match comp with
  | luma => 0
  | chroma => 1
  | alpha => 2
  end.

(** [q] is a sample of the destination plane of [d]. *)
Definition in_dst_plane (d : plane_desc) (q : ptr) : Prop :=
  ∃ x y, 0 ≤ x < pd_w d ∧ 0 ≤ y < pd_h d ∧ q = cell (pd_dst d) (pd_dls d) x y.


(** Options without an alpha expression, and an [av_strdup] that succeeds
    for the chroma copy and fails for the alpha copy. *)
Definition demo_options_no_alpha : BoxBlurContext :=
  set_param alpha (FilterParam.mk 0 (-1) None) demo_options.

Definition demo_strdup (comp : component) (s : string) : option string :=
  if comp is chroma then Some s else None.

(** * Properties *)

(** ** Wrap-around arithmetic *)

Lemma wrap32_small z : - 2 ^ 31 ≤ z < 2 ^ 31 → wrap32 z = z.
Proof. intros H. unfold wrap32. rewrite Z.mod_small; lia. Qed.

Lemma wrap32_range z : - 2 ^ 31 ≤ wrap32 z < 2 ^ 31.
Proof.
  unfold wrap32. pose proof (Z.mod_pos_bound (z + 2 ^ 31) (2 ^ 32)). lia.
Qed.

Lemma wrap32_congr a b : a `mod` 2 ^ 32 = b `mod` 2 ^ 32 → wrap32 a = wrap32 b.
Proof.
  intros H. unfold wrap32. f_equal.
  rewrite (Z.add_mod a), (Z.add_mod b), H by lia. done.
Qed.

Lemma wrap32_mod z : wrap32 z `mod` 2 ^ 32 = z `mod` 2 ^ 32.
Proof.
  unfold wrap32.
  rewrite <- Zminus_mod_idemp_l, Z.mod_mod, Zminus_mod_idemp_l by lia.
  f_equal. lia.
Qed.

Lemma wrap32_idemp z : wrap32 (wrap32 z) = wrap32 z.
Proof. apply wrap32_congr, wrap32_mod. Qed.

Lemma wrap32_add_l a b : wrap32 (wrap32 a + b) = wrap32 (a + b).
Proof.
  apply wrap32_congr.
  rewrite Z.add_mod, wrap32_mod, <- Z.add_mod by lia. done.
Qed.

Lemma wrap32_add_r a b : wrap32 (a + wrap32 b) = wrap32 (a + b).
Proof. rewrite Z.add_comm, wrap32_add_l. f_equal. lia. Qed.

Lemma wrap32_sub_l a b : wrap32 (wrap32 a - b) = wrap32 (a - b).
Proof.
  apply wrap32_congr.
  rewrite Zminus_mod, wrap32_mod, <- Zminus_mod by lia. done.
Qed.

Lemma wrap32_mul_l a b : wrap32 (wrap32 a * b) = wrap32 (a * b).
Proof.
  apply wrap32_congr.
  rewrite Z.mul_mod, wrap32_mod, <- Z.mul_mod by lia. done.
Qed.

(** ** Samples *)

Lemma u8_range b : 0 ≤ u8_to_int b < 256.
Proof. unfold u8_to_int. pose proof (Byte.to_N_bounded b). lia. Qed.

Lemma u8_to_int_to_u8 v : u8_to_int (int_to_u8 v) = v `mod` 256.
Proof.
  unfold u8_to_int, int_to_u8.
  pose proof (Z.mod_pos_bound v 256 eq_refl) as Hv.
  destruct (Byte.of_N (Z.to_N (v `mod` 256))) as [b|] eqn:Hb; simpl.
  - apply Byte.to_of_N in Hb. rewrite Hb. lia.
  - apply Byte.of_N_None_iff in Hb. lia.
Qed.

Lemma int_to_u8_to_int b : int_to_u8 (u8_to_int b) = b.
Proof.
  unfold int_to_u8, u8_to_int. pose proof (Byte.to_N_bounded b).
  rewrite Z.mod_small by lia. rewrite N2Z.id. by rewrite Byte.of_to_N.
Qed.

(** ** Memory *)

Lemma padd_padd p a b : p +ₚ a +ₚ b = p +ₚ (a + b).
Proof. destruct p. unfold padd. simpl. f_equal. lia. Qed.

Lemma padd_0 p : p +ₚ 0 = p.
Proof. destruct p. unfold padd. simpl. f_equal. lia. Qed.

Lemma blk_padd p a : blk (p +ₚ a) = blk p.
Proof. done. Qed.

Lemma in_bounds_alt m p :
  in_bounds m p ↔
  0 ≤ off p ∧ ∃ b, heap m !! blk p = Some b ∧ (Z.to_nat (off p) < length b)%nat.
Proof.
  unfold in_bounds, load. destruct (decide (0 ≤ off p)); last first.
  { split; [intros [? ?]; done | lia]. }
  destruct (heap m !! blk p) as [b|] eqn:Hb; simpl.
  - rewrite fmap_is_Some, lookup_lt_is_Some. naive_solver.
  - split; [intros [? ?]; done | naive_solver].
Qed.

Lemma store_Some m p v : in_bounds m p → is_Some (store p v m).
Proof.
  rewrite in_bounds_alt. intros (H0 & b & Hb & Hlt). unfold store.
  rewrite decide_True by done. rewrite Hb. simpl.
  rewrite decide_True by done. eauto.
Qed.

Lemma store_inv m p v m' :
  store p v m = Some m' →
  0 ≤ off p ∧ ∃ b, heap m !! blk p = Some b ∧ (Z.to_nat (off p) < length b)%nat ∧
    m' = Mem (<[blk p := <[Z.to_nat (off p) := int_to_u8 v]> b]> (heap m))
             (trace m ++ [p]).
Proof.
  unfold store. destruct (decide (0 ≤ off p)); [|done].
  destruct (heap m !! blk p) as [b|] eqn:Hb; simpl; [|done].
  destruct (decide (Z.to_nat (off p) < length b)%nat); [|done].
  intros [= <-]. eauto.
Qed.

Lemma store_in_bounds m p v m' : store p v m = Some m' → in_bounds m p.
Proof.
  intros (? & b & ? & ? & _)%store_inv. apply in_bounds_alt. eauto.
Qed.

Lemma store_trace m p v m' : store p v m = Some m' → trace m' = trace m ++ [p].
Proof. intros (? & b & ? & ? & ->)%store_inv. done. Qed.

Lemma store_shape m p v m' : store p v m = Some m' → same_shape m m'.
Proof.
  intros (? & b & Hb & ? & ->)%store_inv. unfold same_shape. simpl.
  rewrite list_fmap_insert, length_insert. symmetry. apply list_insert_id.
  by rewrite list_lookup_fmap, Hb.
Qed.

Lemma load_store_eq m p v m' : store p v m = Some m' → load m' p = Some (v `mod` 256).
Proof.
  intros (? & b & Hb & ? & ->)%store_inv. unfold load. simpl.
  rewrite decide_True by done.
  rewrite list_lookup_insert_eq by (by eapply lookup_lt_Some). simpl.
  rewrite list_lookup_insert_eq by done. simpl. by rewrite u8_to_int_to_u8.
Qed.

Lemma load_store_ne m p v m' q : store p v m = Some m' → q ≠ p → load m' q = load m q.
Proof.
  intros (? & b & Hb & ? & ->)%store_inv Hne. unfold load. simpl.
  destruct (decide (0 ≤ off q)); [|done].
  destruct (decide (blk q = blk p)) as [Hblk|Hblk].
  - rewrite Hblk, Hb. rewrite list_lookup_insert_eq by (by eapply lookup_lt_Some).
    simpl. f_equal. apply list_lookup_insert_ne. intros Heq. apply Hne.
    destruct p, q; simpl in *. f_equal; [done | lia].
  - by rewrite list_lookup_insert_ne.
Qed.

Lemma store_heap_other m p v m' b :
  store p v m = Some m' → b ≠ blk p → heap m' !! b = heap m !! b.
Proof.
  intros (? & bb & Hb & ? & ->)%store_inv Hne. simpl.
  by rewrite list_lookup_insert_ne.
Qed.

Lemma same_shape_refl m : same_shape m m.
Proof. done. Qed.

Lemma same_shape_trans m1 m2 m3 :
  same_shape m1 m2 → same_shape m2 m3 → same_shape m1 m3.
Proof. unfold same_shape. congruence. Qed.

Lemma same_shape_in_bounds m m' p : same_shape m m' → in_bounds m p → in_bounds m' p.
Proof.
  unfold same_shape. intros Hs. rewrite !in_bounds_alt.
  intros (H0 & b & Hb & Hlt). split; [done|].
  assert ((length <$> heap m') !! blk p = Some (length b)) as Hl.
  { rewrite <- Hs, list_lookup_fmap, Hb. done. }
  rewrite list_lookup_fmap in Hl.
  destruct (heap m' !! blk p) as [b'|]; simplify_eq/=. exists b'. split; [done|lia].
Qed.


Lemma load_heap_eq m m' p : heap m !! blk p = heap m' !! blk p → load m p = load m' p.
Proof. intros H. unfold load. by rewrite H. Qed.

Lemma store_run_app p step x vs1 vs2 m :
  store_run p step x (vs1 ++ vs2) m =
  m' ← store_run p step x vs1 m; store_run p step (x + Z.of_nat (length vs1)) vs2 m'.
Proof.
  revert x m. induction vs1 as [|v vs1 IH]; intros x m; simpl.
  - f_equal. lia.
  - destruct (store _ v m) as [m1|]; simpl; [|done].
    rewrite IH. destruct (store_run p step (x + 1) vs1 m1); simpl; [|done].
    f_equal. lia.
Qed.

Lemma store_run_shape p step x vs m m' :
  store_run p step x vs m = Some m' → same_shape m m'.
Proof.
  revert x m. induction vs as [|v vs IH]; intros x m; simpl.
  - by intros [= ->].
  - destruct (store _ v m) as [m1|] eqn:Hst; simpl; [|done].
    intros H. eapply same_shape_trans; [by eapply store_shape | by eapply IH].
Qed.

Lemma store_run_trace p step x vs m m' :
  store_run p step x vs m = Some m' →
  trace m' = trace m ++ ((λ i, p +ₚ i * step) <$> seqZ x (Z.of_nat (length vs))).
Proof.
  revert x m. induction vs as [|v vs IH]; intros x m.
  - intros [= ->]. by rewrite seqZ_nil, app_nil_r.
  - rewrite length_cons, Nat2Z.inj_succ. cbn [store_run].
    destruct (store _ v m) as [m1|] eqn:Hst; [|done].
    intros H. cbn in H. rewrite (IH _ _ H), (store_trace _ _ _ _ Hst), <- app_assoc.
    f_equal. rewrite (seqZ_cons x) by lia. rewrite fmap_cons. cbn [app].
    do 3 f_equal; lia.
Qed.

Lemma store_run_heap_other p step x vs m m' b :
  store_run p step x vs m = Some m' → b ≠ blk p → heap m' !! b = heap m !! b.
Proof.
  revert x m. induction vs as [|v vs IH]; intros x m; simpl.
  - by intros [= ->].
  - destruct (store _ v m) as [m1|] eqn:Hst; simpl; [|done].
    intros H Hne. rewrite (IH _ _ H Hne). by eapply store_heap_other.
Qed.

Lemma store_run_load_other p step x vs m m' q :
  store_run p step x vs m = Some m' →
  (∀ i, x ≤ i < x + Z.of_nat (length vs) → q ≠ p +ₚ i * step) →
  load m' q = load m q.
Proof.
  revert x m. induction vs as [|v vs IH]; intros x m; simpl.
  - by intros [= ->].
  - destruct (store _ v m) as [m1|] eqn:Hst; simpl; [|done].
    intros H Hq. rewrite (IH _ _ H) by (intros; apply Hq; lia).
    eapply load_store_ne; [done|]. apply Hq. lia.
Qed.

Lemma padd_step_inj p step i j : step ≠ 0 → p +ₚ i * step = p +ₚ j * step → i = j.
Proof. intros Hs [= H]. nia. Qed.

Lemma store_run_load p step x vs m m' (i : nat) v :
  step ≠ 0 →
  store_run p step x vs m = Some m' → vs !! i = Some v →
  load m' (p +ₚ (x + Z.of_nat i) * step) = Some (v `mod` 256).
Proof.
  intros Hstep. revert x m i. induction vs as [|v0 vs IH]; intros x m i; simpl; [done|].
  destruct (store _ v0 m) as [m1|] eqn:Hst; simpl; [|done].
  intros H Hi. destruct i as [|i]; simpl in *.
  - simplify_eq. rewrite (store_run_load_other _ _ _ _ _ _ _ H).
    + replace (x + Z.of_nat 0) with x by lia. by eapply load_store_eq.
    + intros j Hj Heq%padd_step_inj; [lia|done].
  - replace (x + Z.of_nat (S i)) with ((x + 1) + Z.of_nat i) by lia. by eapply IH.
Qed.

Lemma store_run_Some p step x vs m :
  (∀ i, x ≤ i < x + Z.of_nat (length vs) → in_bounds m (p +ₚ i * step)) →
  is_Some (store_run p step x vs m).
Proof.
  revert x m. induction vs as [|v vs IH]; intros x m Hb; simpl; [eauto|].
  destruct (store_Some m (p +ₚ x * step) v) as [m1 Hst].
  { apply Hb. simpl. lia. }
  rewrite Hst. simpl. apply IH. intros i Hi.
  eapply same_shape_in_bounds; [by eapply store_shape|]. apply Hb. simpl. lia.
Qed.

Lemma store_run_is_run p step vs m m' :
  step ≠ 0 → store_run p step 0 vs m = Some m' →
  is_run m' p step ((λ v, v `mod` 256) <$> vs).
Proof.
  intros Hstep H i v Hi. rewrite list_lookup_fmap in Hi.
  destruct (vs !! i) as [v0|] eqn:Hv; simplify_eq/=.
  by apply (store_run_load _ _ _ _ _ _ _ _ Hstep H Hv).
Qed.

(** ** Loops *)

Lemma for_each_app {S : Type} xs ys (body : Z → S → option S) s :
  for_each (xs ++ ys) body s = s' ← for_each xs body s; for_each ys body s'.
Proof.
  revert s. induction xs as [|x xs IH]; intros s; simpl; [done|].
  destruct (body x s); simpl; [apply IH|done].
Qed.

Lemma for_range_nil {S : Type} lo hi (body : Z → S → option S) s :
  hi ≤ lo → for_range lo hi body s = Some s.
Proof. intros. unfold for_range. by rewrite seqZ_nil by lia. Qed.

Lemma for_range_inv {S : Type} (I : Z → S → Prop) lo hi body s :
  lo ≤ hi → I lo s →
  (∀ x s, lo ≤ x < hi → I x s → ∃ s', body x s = Some s' ∧ I (x + 1) s') →
  ∃ s', for_range lo hi body s = Some s' ∧ I hi s'.
Proof.
  intros Hle. unfold for_range.
  remember (Z.to_nat (hi - lo)) as n eqn:Hn.
  revert lo s Hle Hn. induction n as [|n IH]; intros lo s Hle Hn Hi Hstep.
  - assert (hi = lo) as -> by lia. rewrite seqZ_nil by lia. eauto.
  - rewrite seqZ_cons by lia. simpl.
    destruct (Hstep lo s) as (s1 & -> & Hi1); [lia|done|]. simpl.
    replace (Z.pred (hi - lo)) with (hi - Z.succ lo) by lia.
    apply IH; [lia|lia|by replace (Z.succ lo) with (lo + 1) by lia|].
    intros x s2 Hx. apply Hstep. lia.
Qed.

(** ** Window sums *)


Lemma sumZ_nil f lo n : n ≤ 0 → sumZ f lo n = 0.
Proof. intros. unfold sumZ. by rewrite seqZ_nil. Qed.

Lemma sumZ_cons f lo n : 0 < n → sumZ f lo n = f lo + sumZ f (lo + 1) (n - 1).
Proof.
  intros. unfold sumZ. rewrite (seqZ_cons lo n) by done. rewrite fmap_cons.
  cbn [foldr]. do 3 f_equal; lia.
Qed.

Lemma sumZ_split f lo n1 n2 :
  0 ≤ n1 → 0 ≤ n2 → sumZ f lo (n1 + n2) = sumZ f lo n1 + sumZ f (lo + n1) n2.
Proof.
  intros. unfold sumZ. rewrite seqZ_app, fmap_app, foldr_app by done.
  generalize (f <$> seqZ lo n1). intros xs.
  induction xs as [|x xs IH]; simpl; [done|]. rewrite IH. lia.
Qed.

Lemma sumZ_snoc f lo n : 0 ≤ n → sumZ f lo (n + 1) = sumZ f lo n + f (lo + n).
Proof.
  intros. rewrite sumZ_split by lia. f_equal.
  rewrite sumZ_cons by lia. rewrite sumZ_nil by lia. lia.
Qed.

Lemma sumZ_ext f g lo n :
  (∀ i, lo ≤ i < lo + n → f i = g i) → sumZ f lo n = sumZ g lo n.
Proof.
  intros H. unfold sumZ. f_equal. apply list_fmap_ext.
  intros i x [-> ?]%lookup_seqZ. apply H. lia.
Qed.

Lemma sumZ_rev f c lo n : sumZ (λ i, f (c - i)) lo n = sumZ f (c - lo - n + 1) n.
Proof.
  destruct (decide (0 ≤ n)); [|by rewrite !sumZ_nil by lia].
  rewrite <- (Z2Nat.id n) by done. generalize (Z.to_nat n). clear. intros k.
  revert lo. induction k as [|k IH]; intros lo.
  - by rewrite !sumZ_nil by lia.
  - rewrite Nat2Z.inj_succ, <- !Z.add_1_r.
    rewrite (sumZ_cons _ lo) by lia. rewrite sumZ_snoc by lia.
    replace (Z.of_nat k + 1 - 1) with (Z.of_nat k) by lia.
    rewrite IH. rewrite Z.add_comm. f_equal; [f_equal; lia|f_equal; lia].
Qed.

Lemma sumZ_const c lo n : 0 ≤ n → sumZ (λ _, c) lo n = n * c.
Proof.
  intros Hn. rewrite <- (Z2Nat.id n) by done. generalize (Z.to_nat n). clear.
  intros k. induction k as [|k IH].
  - by rewrite sumZ_nil by lia.
  - rewrite Nat2Z.inj_succ, <- Z.add_1_r, sumZ_snoc, IH by lia. lia.
Qed.

Lemma sumZ_bounds f lo n a b :
  0 ≤ n → (∀ i, lo ≤ i < lo + n → a ≤ f i ≤ b) → n * a ≤ sumZ f lo n ≤ n * b.
Proof.
  intros Hn. rewrite <- (Z2Nat.id n) by done. generalize (Z.to_nat n). clear.
  intros k. induction k as [|k IH]; intros H.
  - rewrite sumZ_nil by lia. lia.
  - rewrite Nat2Z.inj_succ, <- Z.add_1_r in *. rewrite sumZ_snoc by lia.
    specialize (H (lo + Z.of_nat k)) as H1.
    assert (Z.of_nat k * a ≤ sumZ f lo (Z.of_nat k) ≤ Z.of_nat k * b).
    { apply IH. intros. apply H. lia. }
    lia.
Qed.

Lemma win_slide l r x :
  0 ≤ r →
  win l r (x + 1) =
  win l r x + rdz l (refl (Z.of_nat (length l)) (x + 1 + r))
            - rdz l (refl (Z.of_nat (length l)) (x - r)).
Proof.
  intros Hr. unfold win.
  replace (2 * r + 1) with (2 * r + 1) at 1 by done.
  rewrite (sumZ_snoc _ (x + 1 - r) (2 * r)) by lia.
  rewrite (sumZ_cons _ (x - r)) by lia.
  replace (x - r + 1) with (x + 1 - r) by lia.
  replace (2 * r + 1 - 1) with (2 * r) by lia.
  replace (x + 1 - r + 2 * r) with (x + 1 + r) by lia. lia.
Qed.

Lemma win_init l r :
  0 ≤ r → r < Z.of_nat (length l) →
  win l r (- 1) = 2 * sumZ (rdz l) 0 r + rdz l r.
Proof.
  intros Hr Hlen. unfold win.
  replace (2 * r + 1) with ((r + 1) + r) by lia.
  rewrite sumZ_split by lia.
  rewrite (sumZ_ext _ (λ i, rdz l (- 1 - i)) (- 1 - r) (r + 1)).
  2:{ intros i Hi. unfold refl. by rewrite decide_True by lia. }
  rewrite sumZ_rev.
  replace (- 1 - (- 1 - r) - (r + 1) + 1) with 0 by lia.
  rewrite sumZ_snoc by lia.
  rewrite (sumZ_ext _ (rdz l) (- 1 - r + (r + 1)) r).
  2:{ intros i Hi. unfold refl.
      rewrite decide_False by lia. by rewrite decide_False by lia. }
  replace (- 1 - r + (r + 1)) with 0 by lia. rewrite Z.add_0_l. lia.
Qed.

(** ** The 1-D blur writes the normalised window sums *)

Lemma is_run_load m p step l k :
  is_run m p step l → 0 ≤ k < Z.of_nat (length l) →
  load m (p +ₚ k * step) = Some (rdz l k).
Proof.
  intros Hrun Hk. destruct (lookup_lt_is_Some_2 l (Z.to_nat k)) as [v Hv]; [lia|].
  unfold rdz. rewrite Hv. simpl. rewrite <- (Hrun _ _ Hv). do 3 f_equal. lia.
Qed.

Lemma refl_range len i : - len ≤ i < 2 * len → 0 ≤ refl len i < len.
Proof. intros. unfold refl. repeat case_decide; lia. Qed.

Lemma bind_Some_l {A B} (f : A → option B) x : Some x ≫= f = f x.
Proof. done. Qed.

Section blur_correct.

Variables (m : mem) (dst : ptr) (ds : Z) (src : ptr) (ss : Z) (r : Z) (l : list Z).

Hypothesis Hr : 0 ≤ r.
Hypothesis Hlen : 2 * r < Z.of_nat (length l).
Hypothesis Hblk : blk dst ≠ blk src.
Hypothesis Hsrc : is_run m src ss l.
Hypothesis Hdst : ∀ k, 0 ≤ k < Z.of_nat (length l) → in_bounds m (dst +ₚ k * ds).


Lemma blur_loop1 :
  for_range 0 r
    (λ x sum, v ← load m (src +ₚ x * ss); Some (add32 sum (shl32 v 1))) 0
  = Some (wrap32 (2 * sumZ (rdz l) 0 r)).
Proof.
  destruct (for_range_inv (λ x sum, sum = wrap32 (2 * sumZ (rdz l) 0 x)) 0 r
    (λ x sum, v ← load m (src +ₚ x * ss); Some (add32 sum (shl32 v 1))) 0)
    as (s & Hs & ->); [done| |..|done].
  - by rewrite sumZ_nil.
  - intros x s Hx ->. rewrite (is_run_load m src ss l) by (done || lia). simpl.
    eexists; split; [done|]. unfold add32, shl32.
    rewrite wrap32_add_l, wrap32_add_r, sumZ_snoc by lia.
    rewrite Z.shiftl_mul_pow2 by lia. f_equal.
    rewrite Z.add_0_l. change (2 ^ 1) with 2. lia.
Qed.

Lemma slide_step ia ib x s :
  blur_state m dst ds r l x s → 0 ≤ x < Z.of_nat (length l) →
  ia x = refl (Z.of_nat (length l)) (x + r) →
  ib x = refl (Z.of_nat (length l)) (x - 1 - r) →
  ∃ s', slide dst ds src ss (blur_inv r) ia ib x s = Some s' ∧ blur_state m dst ds r l (x + 1) s'.
Proof.
  destruct s as [sum mc]. intros [Hsum Hst] Hx Hia Hib. simpl in Hsum, Hst.
  assert (∀ k, 0 ≤ k < Z.of_nat (length l) →
               load mc (src +ₚ k * ss) = Some (rdz l k)) as Hld.
  { intros k Hk. rewrite <- (is_run_load m src ss l k) by done.
    apply load_heap_eq. rewrite blk_padd.
    eapply store_run_heap_other; [done|]. done. }
  unfold slide.
  rewrite (Hld (ia x)) by (rewrite Hia; apply refl_range; lia). simpl.
  rewrite (Hld (ib x)) by (rewrite Hib; apply refl_range; lia). simpl.
  destruct (store_Some mc (dst +ₚ x * ds)
              (norm (blur_inv r) (add32 sum (sub32 (rdz l (ia x)) (rdz l (ib x))))))
    as [m' Hm'].
  { eapply same_shape_in_bounds; [by eapply store_run_shape|]. by apply Hdst. }
  rewrite Hm'. simpl. eexists; split; [done|].
  assert (add32 sum (sub32 (rdz l (ia x)) (rdz l (ib x))) = wrap32 (win l r x)) as Hw.
  { rewrite Hsum. unfold add32, sub32. rewrite wrap32_add_l, wrap32_add_r.
    f_equal. pose proof (win_slide l r (x - 1) Hr) as Hs.
    replace (x - 1 + 1) with x in Hs by lia. rewrite Hs, Hia, Hib. lia. }
  split; simpl.
  - rewrite Hw. do 2 f_equal. lia.
  - rewrite seqZ_app, fmap_app, store_run_app by lia. rewrite Hst. simpl.
    rewrite length_fmap, length_seqZ, Z2Nat.id by lia.
    change (Z.of_nat 0) with 0. rewrite !Z.add_0_l.
    unfold blur_at. rewrite <- Hw, Hm'. done.
Qed.

Lemma blur_spec :
  ∃ m', blur dst ds src ss (Z.of_nat (length l)) r m = Some m' ∧
        store_run dst ds 0 (blur_raw r l) m = Some m'.
Proof.
  assert (blur_state m dst ds r l 0
            (add32 (wrap32 (2 * sumZ (rdz l) 0 r)) (rdz l r), m)) as H0.
  { split; [|done]. cbn [fst].
    unfold add32. rewrite wrap32_add_l. f_equal. rewrite win_init; lia. }
  destruct (for_range_inv (blur_state m dst ds r l) 0 (r + 1)
    (slide dst ds src ss (blur_inv r) (λ x, r + x) (λ x, r - x)) _ ltac:(lia) H0)
    as (s2 & Hs2 & H2).
  { intros x s Hx Hs. apply slide_step; [done|lia|..];
      unfold refl; repeat case_decide; lia. }
  destruct (for_range_inv (blur_state m dst ds r l) (r + 1) (Z.of_nat (length l) - r)
    (slide dst ds src ss (blur_inv r) (λ x, r + x) (λ x, x - r - 1)) _ ltac:(lia) H2)
    as (s3 & Hs3 & H3).
  { intros x s Hx Hs. apply slide_step; [done|lia|..];
      unfold refl; repeat case_decide; lia. }
  destruct (for_range_inv (blur_state m dst ds r l)
    (Z.of_nat (length l) - r) (Z.of_nat (length l))
    (slide dst ds src ss (blur_inv r)
       (λ x, 2 * Z.of_nat (length l) - r - x - 1) (λ x, x - r - 1)) _ ltac:(lia) H3)
    as (s4 & Hs4 & H4).
  { intros x s Hx Hs. apply slide_step; [done|lia|..];
      unfold refl; repeat case_decide; lia. }
  exists s4.2. split; [|apply H4].
  unfold blur. cbv zeta.
  rewrite blur_loop1, bind_Some_l.
  rewrite (is_run_load m src ss l) by (done || lia). rewrite bind_Some_l.
  rewrite Hs2, bind_Some_l.
  rewrite (Z.max_r 0 (r + 1)) by lia. rewrite Hs3, bind_Some_l.
  rewrite (Z.max_r (r + 1) (Z.of_nat (length l) - r)) by lia.
  rewrite Hs4, bind_Some_l. done.
Qed.

End blur_correct.

(** ** Copies and the power compositor *)

Lemma load_range m p v : load m p = Some v → is_byte v.
Proof.
  unfold load. destruct (decide (0 ≤ off p)); [|done].
  destruct (heap m !! blk p) as [b|]; simpl; [|done].
  destruct (b !! Z.to_nat (off p)) as [c|]; simpl; [|done].
  intros [= <-]. apply u8_range.
Qed.

Lemma int_to_u8_mod v : int_to_u8 (v `mod` 256) = int_to_u8 v.
Proof. unfold int_to_u8. by rewrite Z.mod_mod. Qed.

Lemma store_mod p v m : store p (v `mod` 256) m = store p v m.
Proof. unfold store. by rewrite int_to_u8_mod. Qed.

Lemma store_run_mod p step x vs m :
  store_run p step x ((λ v, v `mod` 256) <$> vs) m = store_run p step x vs m.
Proof.
  revert x m. induction vs as [|v vs IH]; intros x m; simpl; [done|].
  rewrite store_mod. destruct (store _ v m); simpl; [apply IH|done].
Qed.

Lemma is_run_bytes m p step l : is_run m p step l → Forall is_byte l.
Proof.
  intros H. apply Forall_lookup. intros i v Hv. eapply load_range, H, Hv.
Qed.

Lemma seqZ_rdz l : rdz l <$> seqZ 0 (Z.of_nat (length l)) = l.
Proof.
  apply list_eq. intros i. rewrite list_lookup_fmap.
  destruct (decide (i < length l)%nat) as [Hi|Hi].
  - rewrite lookup_seqZ_lt by lia. simpl. unfold rdz.
    rewrite Z.add_0_l, Nat2Z.id.
    destruct (lookup_lt_is_Some_2 l i Hi) as [v ->]. done.
  - rewrite lookup_seqZ_ge by lia. simpl. symmetry. apply lookup_ge_None. lia.
Qed.

Lemma length_blur_raw r l : length (blur_raw r l) = length l.
Proof. unfold blur_raw. by rewrite length_fmap, length_seqZ, Nat2Z.id. Qed.

Lemma length_blur_out r l : length (blur_out r l) = length l.
Proof. unfold blur_out. by rewrite length_fmap, length_blur_raw. Qed.

Lemma length_iter_blur_out r n l : length (Nat.iter n (blur_out r) l) = length l.
Proof. induction n as [|n IH]; simpl; [done|]. by rewrite length_blur_out. Qed.

Lemma length_bp_out r p l : length (bp_out r p l) = length l.
Proof. unfold bp_out. case_match; [apply length_iter_blur_out|done]. Qed.

Lemma temps_only_refl t0 t1 m : temps_only t0 t1 m m.
Proof.
  split; [done|]. split; [done|]. exists []. by rewrite app_nil_r.
Qed.

Lemma temps_only_trans t0 t1 m1 m2 m3 :
  temps_only t0 t1 m1 m2 → temps_only t0 t1 m2 m3 → temps_only t0 t1 m1 m3.
Proof.
  intros (Hs1 & Hh1 & tw1 & Ht1 & Hf1) (Hs2 & Hh2 & tw2 & Ht2 & Hf2).
  split; [by eapply same_shape_trans|]. split.
  - intros b ? ?. rewrite Hh2, Hh1 by done. done.
  - exists (tw1 ++ tw2). rewrite Ht2, Ht1, app_assoc. split; [done|].
    by apply Forall_app.
Qed.

Lemma temps_only_store_run t0 t1 p step x vs m m' :
  blk p = blk t0 ∨ blk p = blk t1 →
  store_run p step x vs m = Some m' → temps_only t0 t1 m m'.
Proof.
  intros Hp H. split; [by eapply store_run_shape|]. split.
  - intros b ? ?. eapply store_run_heap_other; [done|]. naive_solver.
  - eexists. split; [by eapply store_run_trace|].
    apply Forall_fmap, Forall_forall. intros i _. simpl. done.
Qed.

Lemma temps_only_load t0 t1 m m' q :
  temps_only t0 t1 m m' → blk q ≠ blk t0 → blk q ≠ blk t1 → load m' q = load m q.
Proof. intros (_ & H & _) ? ?. apply load_heap_eq. by apply H. Qed.

Lemma temps_only_is_run t0 t1 m m' p step l :
  temps_only t0 t1 m m' → blk p ≠ blk t0 → blk p ≠ blk t1 →
  is_run m p step l → is_run m' p step l.
Proof.
  intros Ht ? ? Hrun i v Hv. rewrite (temps_only_load t0 t1 m m') by done.
  by apply Hrun.
Qed.

Lemma copy_run_spec m dst ds src ss l :
  is_run m src ss l →
  blk dst ≠ blk src ∨ (dst = src ∧ ds = ss) →
  (∀ k, 0 ≤ k < Z.of_nat (length l) → in_bounds m (dst +ₚ k * ds)) →
  ∃ m', copy_run dst ds src ss (Z.of_nat (length l)) m = Some m' ∧
        store_run dst ds 0 l m = Some m'.
Proof.
  intros Hsrc Halias Hdst. unfold copy_run.
  destruct (for_range_inv
    (λ x mc, store_run dst ds 0 (rdz l <$> seqZ 0 x) m = Some mc ∧
             ∀ k, 0 ≤ k < Z.of_nat (length l) →
                  load mc (src +ₚ k * ss) = Some (rdz l k))
    0 (Z.of_nat (length l))
    (λ i m, v ← load m (src +ₚ i * ss); store (dst +ₚ i * ds) v m) m)
    as (m' & Hm' & Hst & _); [lia| |..].
  - split; [done|]. intros k Hk. by apply is_run_load.
  - intros x mc Hx [Hst Hld]. rewrite Hld by done. simpl.
    destruct (store_Some mc (dst +ₚ x * ds) (rdz l x)) as [mc' Hmc'].
    { eapply same_shape_in_bounds; [by eapply store_run_shape|]. by apply Hdst. }
    exists mc'. split; [done|]. split.
    + rewrite seqZ_app, fmap_app, store_run_app by lia. rewrite Hst. simpl.
      rewrite length_fmap, length_seqZ, Z2Nat.id by lia.
      change (Z.of_nat 0) with 0. rewrite !Z.add_0_l, Hmc'. done.
    + intros k Hk. destruct (decide (src +ₚ k * ss = dst +ₚ x * ds)) as [Heq|Hne].
      * rewrite Heq, (load_store_eq _ _ _ _ Hmc').
        destruct Halias as [Hb|[-> ->]].
        { exfalso. apply Hb. apply (f_equal blk) in Heq. by rewrite !blk_padd in Heq. }
        assert (rdz l k = rdz l x) as Hkx.
        { specialize (Hld k Hk) as H1. specialize (Hld x ltac:(lia)) as H2.
          rewrite Heq in H1. congruence. }
        rewrite Hkx. f_equal. apply Z.mod_small.
        eapply load_range, (Hld x). lia.
      * rewrite (load_store_ne _ _ _ _ _ Hmc') by done. by apply Hld.
  - rewrite seqZ_rdz in Hst. eauto.
Qed.

Lemma blur_run_spec m dst ds src ss r l :
  0 ≤ r → 2 * r < Z.of_nat (length l) → blk dst ≠ blk src →
  is_run m src ss l →
  (∀ k, 0 ≤ k < Z.of_nat (length l) → in_bounds m (dst +ₚ k * ds)) →
  ∃ m', blur dst ds src ss (Z.of_nat (length l)) r m = Some m' ∧
        store_run dst ds 0 (blur_out r l) m = Some m'.
Proof.
  intros. destruct (blur_spec m dst ds src ss r l) as (m' & ? & ?); try done.
  exists m'. split; [done|]. unfold blur_out. by rewrite store_run_mod.
Qed.

Lemma blur_out_bytes r l : Forall is_byte (blur_out r l).
Proof.
  unfold blur_out. apply Forall_fmap, Forall_forall. intros v _. simpl.
  apply Z.mod_pos_bound. done.
Qed.

Lemma bytes_mod l : Forall is_byte l → (λ v, v `mod` 256) <$> l = l.
Proof.
  intros H. induction H as [|v l Hv _ IH]; [done|].
  rewrite fmap_cons, IH. f_equal. by apply Z.mod_small.
Qed.

Lemma store_run_is_run_bytes p step vs m m' :
  step ≠ 0 → Forall is_byte vs → store_run p step 0 vs m = Some m' →
  is_run m' p step vs.
Proof.
  intros Hs Hb H. rewrite <- (bytes_mod vs Hb). by eapply store_run_is_run.
Qed.

Section blur_power_correct.

Variables (m : mem) (dst : ptr) (ds : Z) (src : ptr) (ss : Z).
Variables (r p : Z) (t0 t1 : ptr) (l : list Z).

Hypothesis Hsrc : is_run m src ss l.
Hypothesis Hdst : ∀ k, 0 ≤ k < Z.of_nat (length l) → in_bounds m (dst +ₚ k * ds).
Hypothesis Halias : blk dst ≠ blk src ∨ (dst = src ∧ ds = ss).
Hypothesis Htt : blk t0 ≠ blk t1.
Hypothesis Ht0s : blk t0 ≠ blk src.
Hypothesis Ht1s : blk t1 ≠ blk src.
Hypothesis Ht0d : blk t0 ≠ blk dst.
Hypothesis Ht1d : blk t1 ≠ blk dst.
Hypothesis Ht0 : ∀ k, 0 ≤ k < Z.of_nat (length l) → in_bounds m (t0 +ₚ k * 1).
Hypothesis Ht1 : ∀ k, 0 ≤ k < Z.of_nat (length l) → in_bounds m (t1 +ₚ k * 1).

Lemma ping_pong_spec n a b ma la :
  0 ≤ r → 2 * r < Z.of_nat (length l) →
  (a = t0 ∧ b = t1) ∨ (a = t1 ∧ b = t0) →
  temps_only t0 t1 m ma → is_run ma a 1 la → length la = length l →
  ∃ a' b' m',
    ping_pong n (Z.of_nat (length l)) r a b ma = Some (a', b', m') ∧
    temps_only t0 t1 m m' ∧
    is_run m' a' 1 (Nat.iter n (blur_out r) la) ∧
    (a' = t0 ∨ a' = t1).
Proof.
  intros Hr Hlen. revert a b ma la.
  induction n as [|n IH]; intros a b ma la Hab Hma Hla Hlenla; simpl.
  - exists a, b, ma. split; [done|]. split; [done|]. split; [done|].
    destruct Hab as [[-> _]|[-> _]]; auto.
  - destruct (blur_run_spec ma b 1 a 1 r la) as (mb & Hmb & Hst);
      [done|lia|naive_solver|done|..].
    { intros k Hk. eapply same_shape_in_bounds; [apply Hma|].
      rewrite Hlenla in Hk. destruct Hab as [[_ ->]|[_ ->]]; auto. }
    rewrite Hlenla in Hmb. rewrite Hmb. simpl.
    destruct (IH b a mb (blur_out r la)) as (a' & b' & m' & Hpp & Htm & Hrun & Ha');
      [naive_solver| | |by rewrite length_blur_out|].
    { eapply temps_only_trans; [done|].
      eapply temps_only_store_run; [|done]. naive_solver. }
    { eapply store_run_is_run_bytes; [done|apply blur_out_bytes|done]. }
    exists a', b', m'. rewrite Hpp. split; [done|]. split; [done|].
    split; [|done].
    change (blur_out r (Nat.iter n (blur_out r) la))
      with (Nat.iter (S n) (blur_out r) la).
    by rewrite Nat.iter_succ_r.
Qed.

Lemma blur_power_spec :
  pass_ok r p (Z.of_nat (length l)) →
  ∃ mt m',
    blur_power dst ds src ss (Z.of_nat (length l)) r p t0 t1 m = Some m' ∧
    temps_only t0 t1 m mt ∧
    store_run dst ds 0 (bp_out r p l) mt = Some m'.
Proof.
  intros Hok. unfold blur_power, bp_out.
  destruct (bool_decide (r ≠ 0) && bool_decide (p ≠ 0)) eqn:Hrp; last first.
  { destruct (copy_run_spec m dst ds src ss l) as (m' & ? & ?); [done..|].
    exists m, m'. split; [done|]. split; [apply temps_only_refl|done]. }
  apply andb_prop in Hrp as [Hr0%bool_decide_eq_true Hp0%bool_decide_eq_true].
  destruct Hok as [?|[?|(Hr' & Hp' & Hlen)]]; [done|done|].
  assert (0 ≤ r) as Hr by lia. assert (0 ≤ p) as Hp by lia.
  destruct (blur_run_spec m t0 1 src ss r l) as (m1 & Hm1 & Hst1); [done..|].
  rewrite Hm1. simpl.
  assert (temps_only t0 t1 m m1) as Htm1.
  { eapply temps_only_store_run; [|done]. by left. }
  assert (is_run m1 t0 1 (blur_out r l)) as Hrun1.
  { eapply store_run_is_run_bytes; [done|apply blur_out_bytes|done]. }
  destruct (ping_pong_spec (Z.to_nat (p - 2)) t0 t1 m1 (blur_out r l))
    as (a & b & m2 & Hpp & Htm2 & Hrun2 & Ha);
    [done|done|by left|done|done|by rewrite length_blur_out|].
  rewrite Hpp. simpl.
  assert (∀ k, 0 ≤ k < Z.of_nat (length l) → in_bounds m2 (dst +ₚ k * ds)) as Hdst2.
  { intros k Hk. eapply same_shape_in_bounds; [apply Htm2|]. by apply Hdst. }
  destruct (decide (p > 1)) as [Hp1|Hp1].
  - destruct (blur_run_spec m2 dst ds a 1 r (Nat.iter (Z.to_nat (p - 2)) (blur_out r)
                                               (blur_out r l)))
      as (m' & Hm' & Hst); [done| | |done| |].
    + by rewrite length_iter_blur_out, length_blur_out.
    + destruct Ha as [-> | ->]; done.
    + by rewrite length_iter_blur_out, length_blur_out.
    + rewrite length_iter_blur_out, length_blur_out in Hm'.
      exists m2, m'. split; [done|]. split; [done|].
      replace (Z.to_nat p) with (S (S (Z.to_nat (p - 2)))) by lia.
      rewrite Nat.iter_succ, Nat.iter_succ_r. done.
  - assert (p = 1) as -> by lia. simpl in Hpp. simplify_eq.
    destruct (copy_run_spec m2 dst ds a 1 (blur_out r l)) as (m' & Hm' & Hst);
      [done|left; done|by rewrite length_blur_out|].
    rewrite length_blur_out in Hm'. exists m2, m'. done.
Qed.

End blur_power_correct.

(** ** A pass over the runs of a plane *)

Lemma for_each_ext {S : Type} xs (f g : Z → S → option S) s :
  (∀ x s, x ∈ xs → f x s = g x s) → for_each xs f s = for_each xs g s.
Proof.
  revert s. induction xs as [|x xs IH]; intros s H; simpl; [done|].
  rewrite H by left. destruct (g x s); simpl; [|done].
  apply IH. intros. apply H. by right.
Qed.

Lemma for_range_ext {S : Type} lo hi (f g : Z → S → option S) s :
  (∀ x s, lo ≤ x < hi → f x s = g x s) → for_range lo hi f s = for_range lo hi g s.
Proof.
  intros H. apply for_each_ext. intros x s' Hx%elem_of_seqZ. apply H. lia.
Qed.

Lemma length_run_of sv len i : 0 ≤ len → Z.of_nat (length (run_of sv len i)) = len.
Proof. intros. unfold run_of. rewrite length_fmap, length_seqZ. lia. Qed.

Lemma rdz_run_of sv len i k : 0 ≤ k < len → rdz (run_of sv len i) k = sv i k.
Proof.
  intros Hk. unfold rdz, run_of. rewrite list_lookup_fmap.
  rewrite lookup_seqZ_lt by lia. simpl. f_equal. lia.
Qed.

Lemma is_run_run_of m p step sv len i :
  (∀ k, 0 ≤ k < len → load m (p +ₚ k * step) = Some (sv i k)) →
  is_run m p step (run_of sv len i).
Proof.
  intros H j v. unfold run_of. rewrite list_lookup_fmap.
  intros [k [Hk ->]]%fmap_Some. apply lookup_seqZ in Hk as [-> ?].
  rewrite Z.add_0_l. apply H. lia.
Qed.

Lemma bp_out_bytes r p l : Forall is_byte l → Forall is_byte (bp_out r p l).
Proof.
  intros Hl. unfold bp_out. case_match; [|done].
  destruct (Z.to_nat p) as [|n]; simpl; [done|]. apply blur_out_bytes.
Qed.

Lemma user_trace_app_temps t0 t1 m m' tw :
  trace m' = trace m ++ tw →
  Forall (λ q, blk q = blk t0 ∨ blk q = blk t1) tw →
  user_trace t0 t1 m' = user_trace t0 t1 m.
Proof.
  intros Ht Htw. unfold user_trace. rewrite Ht, list.filter_app.
  rewrite <- (app_nil_r (filter _ (trace m))) at 2. f_equal. clear Ht.
  induction Htw as [|q tw Hq _ IH]; [done|].
  rewrite filter_cons_False; [exact IH|]. intros [? ?]. naive_solver.
Qed.

Lemma user_trace_app_user t0 t1 m m' dw :
  trace m' = trace m ++ dw →
  Forall (λ q, blk q ≠ blk t0 ∧ blk q ≠ blk t1) dw →
  user_trace t0 t1 m' = user_trace t0 t1 m ++ dw.
Proof.
  intros Ht Hdw. unfold user_trace. rewrite Ht, list.filter_app. f_equal.
  clear Ht. induction Hdw as [|q dw Hq _ IH]; [done|].
  rewrite filter_cons_True by done. by rewrite IH.
Qed.

Lemma temps_only_user_trace t0 t1 m m' :
  temps_only t0 t1 m m' → user_trace t0 t1 m' = user_trace t0 t1 m.
Proof. intros (_ & _ & tw & ? & ?). by eapply user_trace_app_temps. Qed.

Lemma pass_cells_snoc dst da db i len :
  0 ≤ i →
  pass_cells dst da db (i + 1) len =
  pass_cells dst da db i len ++ ((λ k, dst +ₚ (i * da + k * db)) <$> seqZ 0 len).
Proof.
  intros Hi. unfold pass_cells. rewrite seqZ_app by lia.
  rewrite bind_app. f_equal. rewrite (seqZ_cons (0 + i)) by lia.
  rewrite (seqZ_nil (Z.succ (0 + i))) by lia. rewrite Z.add_0_l.
  rewrite bind_cons. change (mbind ?f []) with (@nil ptr). by rewrite app_nil_r.
Qed.

Lemma padd_inj p a b : p +ₚ a = p +ₚ b → a = b.
Proof. intros [= H]. lia. Qed.

Section pass_correct.

Variables (m : mem) (dst : ptr) (da db : Z) (src : ptr) (sa sb : Z).
Variables (n len r p : Z) (t0 t1 : ptr) (sv : Z → Z → Z).

Hypothesis Hok : pass_ok r p len.
Hypothesis Hlen : 0 ≤ len.
Hypothesis Hn : 0 ≤ n.
Hypothesis Hdb : db ≠ 0.
Hypothesis Hsv : ∀ i k, 0 ≤ i < n → 0 ≤ k < len →
  load m (src +ₚ (i * sa + k * sb)) = Some (sv i k).
Hypothesis Hdstb : ∀ i k, 0 ≤ i < n → 0 ≤ k < len →
  in_bounds m (dst +ₚ (i * da + k * db)).
Hypothesis Hinj : ∀ i k i' k', 0 ≤ i < n → 0 ≤ k < len → 0 ≤ i' < n → 0 ≤ k' < len →
  i * da + k * db = i' * da + k' * db → i = i' ∧ k = k'.
Hypothesis Halias : blk dst ≠ blk src ∨ (dst = src ∧ da = sa ∧ db = sb).
Hypothesis Htt : blk t0 ≠ blk t1.
Hypothesis Ht0s : blk t0 ≠ blk src.
Hypothesis Ht1s : blk t1 ≠ blk src.
Hypothesis Ht0d : blk t0 ≠ blk dst.
Hypothesis Ht1d : blk t1 ≠ blk dst.
Hypothesis Ht0 : ∀ k, 0 ≤ k < len → in_bounds m (t0 +ₚ k * 1).
Hypothesis Ht1 : ∀ k, 0 ≤ k < len → in_bounds m (t1 +ₚ k * 1).

Lemma pass_step i mc :
  0 ≤ i < n →
  pass_state m dst da db src sa sb n len r p t0 t1 sv i mc →
  ∃ m', blur_power (dst +ₚ i * da) db (src +ₚ i * sa) sb len r p t0 t1 mc = Some m' ∧
        pass_state m dst da db src sa sb n len r p t0 t1 sv (i + 1) m'.
Proof.
  intros Hi (Hshape & Hother & Hdone & Htodo & Htrace).
  assert (Z.of_nat (length (run_of sv len i)) = len) as Hl
    by (apply length_run_of; lia).
  destruct (blur_power_spec mc (dst +ₚ i * da) db (src +ₚ i * sa) sb r p t0 t1
              (run_of sv len i)) as (mt & m' & Hbp & Htm & Hst); try done.
  { apply is_run_run_of. intros k Hk. rewrite padd_padd. apply Htodo; lia. }
  { rewrite Hl. intros k Hk. rewrite padd_padd.
    eapply same_shape_in_bounds; [done|]. by apply Hdstb. }
  { destruct Halias as [?|(-> & -> & ->)]; [by left|by right]. }
  { rewrite Hl. intros k Hk. eapply same_shape_in_bounds; [done|]. by apply Ht0. }
  { rewrite Hl. intros k Hk. eapply same_shape_in_bounds; [done|]. by apply Ht1. }
  { by rewrite Hl. }
  rewrite Hl in Hbp. exists m'. split; [done|].
  assert (Forall is_byte (bp_out r p (run_of sv len i))) as Hbytes.
  { apply bp_out_bytes. eapply (is_run_bytes mc (src +ₚ i * sa) sb).
    apply is_run_run_of. intros k Hk. rewrite padd_padd. apply Htodo; lia. }
  assert (Z.of_nat (length (bp_out r p (run_of sv len i))) = len) as Hlo
    by (by rewrite length_bp_out).
  assert (∀ q, blk q ≠ blk t0 → blk q ≠ blk t1 →
               (∀ k, 0 ≤ k < len → q ≠ dst +ₚ (i * da + k * db)) →
               load m' q = load mc q) as Hframe.
  { intros q ? ? Hq. rewrite (store_run_load_other _ _ _ _ _ _ _ Hst).
    - by eapply temps_only_load.
    - intros k Hk. rewrite padd_padd. apply Hq. lia. }
  split; [|split; [|split; [|split]]].
  - eapply same_shape_trans; [done|]. eapply same_shape_trans; [apply Htm|].
    by eapply store_run_shape.
  - intros b ? ? ?. rewrite (store_run_heap_other _ _ _ _ _ _ _ Hst) by done.
    destruct Htm as (_ & Htm & _). rewrite Htm by done. by apply Hother.
  - intros i' k Hi' Hk. destruct (decide (i' = i)) as [->|Hne].
    + destruct (lookup_lt_is_Some_2 (bp_out r p (run_of sv len i)) (Z.to_nat k))
        as [v Hv]; [lia|].
      pose proof (store_run_load _ _ _ _ _ _ _ _ Hdb Hst Hv) as Hld.
      rewrite padd_padd, Z.add_0_l, Z2Nat.id in Hld by lia.
      rewrite Hld. unfold rdz. rewrite Hv. simpl. f_equal. apply Z.mod_small.
      eapply Forall_lookup_1 in Hbytes; [|done]. done.
    + rewrite Hframe; [apply Hdone; lia|done|done|].
      intros k' Hk' Heq%padd_inj. apply Hinj in Heq; lia.
  - intros i' k Hi' Hk. rewrite Hframe; [apply Htodo; lia|done|done|].
    intros k' Hk' Heq. destruct Halias as [Hb|(-> & -> & ->)].
    + apply Hb. apply (f_equal blk) in Heq. by rewrite !blk_padd in Heq.
    + apply padd_inj, Hinj in Heq; lia.
  - rewrite pass_cells_snoc by lia. rewrite app_assoc, <- Htrace.
    rewrite <- (temps_only_user_trace t0 t1 mc mt Htm).
    apply user_trace_app_user.
    + rewrite (store_run_trace _ _ _ _ _ _ Hst), Hlo. f_equal.
      apply list_fmap_ext. intros ? k _. simpl. by rewrite padd_padd.
    + apply Forall_fmap, Forall_forall. intros k _. simpl. done.
Qed.

Lemma pass_spec :
  ∃ m', pass dst da db src sa sb n len r p t0 t1 m = Some m' ∧
        pass_state m dst da db src sa sb n len r p t0 t1 sv n m'.
Proof.
  unfold pass.
  apply (for_range_inv (pass_state m dst da db src sa sb n len r p t0 t1 sv)); [done| |].
  - split; [done|]. split; [done|]. split; [intros; lia|]. split; [done|].
    unfold pass_cells. rewrite (seqZ_nil 0 0) by lia. by rewrite app_nil_r.
  - intros i mc Hi Hinv. by apply pass_step.
Qed.

End pass_correct.

(** ** The plane drivers *)

Lemma stride_inj ls w i k i' k' :
  w ≤ ls → 0 ≤ k < w → 0 ≤ k' < w → i * ls + k = i' * ls + k' → i = i' ∧ k = k'.
Proof. intros. assert (i = i') by nia. subst. lia. Qed.

Lemma plane_fits_in_bounds m p ls w h x y :
  plane_fits m p ls w h → 0 ≤ x < w → 0 ≤ y < h → in_bounds m (cell p ls x y).
Proof.
  intros (Hw & Hh & Hoff & b & Hb & Hsize) Hx Hy. apply in_bounds_alt.
  unfold cell. simpl. split; [nia|]. exists b. split; [done|]. nia.
Qed.

Lemma temp_fits_in_bounds m t n k :
  temp_fits m t n → 0 ≤ k < n → in_bounds m (t +ₚ k * 1).
Proof.
  intros (Hoff & b & Hb & Hsize) Hk. apply in_bounds_alt. simpl.
  split; [lia|]. exists b. split; [done|lia].
Qed.

Lemma plane_of_load m p ls x y :
  in_bounds m (cell p ls x y) → load m (cell p ls x y) = Some (plane_of m p ls x y).
Proof. intros [v Hv]. unfold plane_of. by rewrite Hv. Qed.

Lemma load_plane_of m p ls x y v :
  load m (cell p ls x y) = Some v → plane_of m p ls x y = v.
Proof. intros H. unfold plane_of. by rewrite H. Qed.

Lemma hblur_pass dst dls src sls w h r p t0 t1 m :
  hblur dst dls src sls w h r p t0 t1 m =
  if bool_decide (r = 0) && bool_decide (dst = src) then Some m
  else pass dst dls 1 src sls 1 h w r p t0 t1 m.
Proof. done. Qed.

Lemma vblur_pass dst dls src sls w h r p t0 t1 m :
  vblur dst dls src sls w h r p t0 t1 m =
  if bool_decide (r = 0) && bool_decide (dst = src) then Some m
  else pass dst 1 dls src 1 sls w h r p t0 t1 m.
Proof.
  unfold vblur, pass. case_match; [done|]. apply for_range_ext.
  intros x s _. by rewrite !Z.mul_1_r.
Qed.

Lemma hblur_pass_cells dst ls w h : pass_cells dst ls 1 h w = hblur_cells dst ls w h.
Proof.
  unfold pass_cells, hblur_cells, cell. apply list_bind_ext; [|done].
  intros y. apply list_fmap_ext. intros ? x _. simpl. by rewrite Z.mul_1_r.
Qed.

Lemma vblur_pass_cells dst ls w h : pass_cells dst 1 ls w h = vblur_cells dst ls w h.
Proof.
  unfold pass_cells, vblur_cells, cell. apply list_bind_ext; [|done].
  intros x. apply list_fmap_ext. intros ? y _. simpl. f_equal. lia.
Qed.

Lemma bp_out_id r p l : r = 0 ∨ p = 0 → bp_out r p l = l.
Proof.
  intros H. unfold bp_out. destruct H as [-> | ->].
  - done.
  - by rewrite andb_comm.
Qed.

Section drivers_correct.

Variables (m : mem) (dst : ptr) (dls : Z) (src : ptr) (sls : Z).
Variables (w h r p : Z) (t0 t1 : ptr).

Hypothesis Hlayout : layout_ok m dst dls src sls w h t0 t1.

Lemma hblur_spec :
  pass_ok r p w →
  ∃ m', hblur dst dls src sls w h r p t0 t1 m = Some m' ∧
        driver_post m dst dls w h t0 t1
          (hblur_plane r p w (plane_of m src sls))
          (if bool_decide (r = 0) && bool_decide (dst = src) then []
           else hblur_cells dst dls w h) m'.
Proof.
  intros Hok.
  destruct Hlayout as (Hsrc & Hdst & Ht0 & Ht1 & ? & ? & ? & ? & ? & Halias).
  rewrite hblur_pass.
  destruct (bool_decide (r = 0) && bool_decide (dst = src)) eqn:Hearly.
  { apply andb_prop in Hearly as [->%bool_decide_eq_true ->%bool_decide_eq_true].
    destruct Halias as [?|[_ ->]]; [done|].
    exists m. split; [done|]. split; [done|]. split; [done|].
    split; [|by rewrite app_nil_r].
    intros x y Hx Hy. rewrite plane_of_load by (by eapply plane_fits_in_bounds).
    f_equal. unfold hblur_plane. rewrite bp_out_id by (by left).
    unfold row. symmetry. apply (rdz_run_of (λ y x, plane_of m src sls x y)). done. }
  assert (0 < w ≤ dls ∧ 0 < h) as Hwh by (destruct Hdst as (? & ? & _); lia).
  destruct (pass_spec m dst dls 1 src sls 1 h w r p t0 t1
              (λ y x, plane_of m src sls x y))
    as (m' & Hm' & Hshape & Hother & Hdone & _ & Htrace); try done; try lia.
  - intros y x Hy Hx. rewrite Z.mul_1_r. apply (plane_of_load m src sls x y).
    by eapply plane_fits_in_bounds.
  - intros y x Hy Hx. rewrite Z.mul_1_r. by eapply (plane_fits_in_bounds m dst dls).
  - intros y x y' x' Hy Hx Hy' Hx'. rewrite !Z.mul_1_r.
    apply (stride_inj dls w); [lia|done..].
  - destruct Halias as [?|[-> ->]]; [by left|by right].
  - intros k Hk. eapply temp_fits_in_bounds; [done|lia].
  - intros k Hk. eapply temp_fits_in_bounds; [done|lia].
  - exists m'. split; [done|]. split; [done|]. split; [done|]. split.
    + intros x y Hx Hy. unfold cell. rewrite <- (Z.mul_1_r x) at 1.
      rewrite Hdone by done. done.
    + by rewrite Htrace, hblur_pass_cells.
Qed.

Lemma vblur_spec :
  pass_ok r p h →
  ∃ m', vblur dst dls src sls w h r p t0 t1 m = Some m' ∧
        driver_post m dst dls w h t0 t1
          (vblur_plane r p h (plane_of m src sls))
          (if bool_decide (r = 0) && bool_decide (dst = src) then []
           else vblur_cells dst dls w h) m'.
Proof.
  intros Hok.
  destruct Hlayout as (Hsrc & Hdst & Ht0 & Ht1 & ? & ? & ? & ? & ? & Halias).
  rewrite vblur_pass.
  destruct (bool_decide (r = 0) && bool_decide (dst = src)) eqn:Hearly.
  { apply andb_prop in Hearly as [->%bool_decide_eq_true ->%bool_decide_eq_true].
    destruct Halias as [?|[_ ->]]; [done|].
    exists m. split; [done|]. split; [done|]. split; [done|].
    split; [|by rewrite app_nil_r].
    intros x y Hx Hy. rewrite plane_of_load by (by eapply plane_fits_in_bounds).
    f_equal. unfold vblur_plane. rewrite bp_out_id by (by left).
    unfold col. symmetry. apply (rdz_run_of (λ x y, plane_of m src sls x y)). done. }
  assert (0 < w ≤ dls ∧ 0 < h) as Hwh by (destruct Hdst as (? & ? & _); lia).
  destruct (pass_spec m dst 1 dls src 1 sls w h r p t0 t1
              (λ x y, plane_of m src sls x y))
    as (m' & Hm' & Hshape & Hother & Hdone & _ & Htrace); try done; try lia.
  - intros x y Hx Hy. rewrite Z.mul_1_r, Z.add_comm.
    apply (plane_of_load m src sls x y). by eapply plane_fits_in_bounds.
  - intros x y Hx Hy. rewrite Z.mul_1_r, Z.add_comm.
    by eapply (plane_fits_in_bounds m dst dls).
  - intros x y x' y' Hx Hy Hx' Hy'. rewrite !Z.mul_1_r. intros Heq.
    destruct (stride_inj dls w y x y' x') as [-> ->]; [lia|done|done|lia|done].
  - destruct Halias as [?|[-> ->]]; [by left|by right].
  - intros k Hk. eapply temp_fits_in_bounds; [done|lia].
  - intros k Hk. eapply temp_fits_in_bounds; [done|lia].
  - exists m'. split; [done|]. split; [done|]. split; [done|]. split.
    + intros x y Hx Hy. unfold cell. rewrite Z.add_comm, <- (Z.mul_1_r x) at 1.
      rewrite Hdone by done. done.
    + by rewrite Htrace, vblur_pass_cells.
Qed.

End drivers_correct.

(** ** Runs: mirror images, equal samples, the centre of a shortest run *)

Lemma lookup_blur_out r l (i : nat) :
  (i < length l)%nat →
  blur_out r l !! i = Some (blur_at r l (Z.of_nat i) `mod` 256).
Proof.
  intros Hi. unfold blur_out, blur_raw. rewrite !list_lookup_fmap.
  rewrite lookup_seqZ_lt by lia. simpl. by rewrite Z.add_0_l.
Qed.

Lemma rdz_blur_out r l k :
  0 ≤ k < Z.of_nat (length l) → rdz (blur_out r l) k = blur_at r l k `mod` 256.
Proof.
  intros Hk. unfold rdz. rewrite lookup_blur_out by lia. simpl.
  do 2 f_equal. lia.
Qed.

Lemma rdz_reverse l k :
  0 ≤ k < Z.of_nat (length l) →
  rdz (reverse l) k = rdz l (Z.of_nat (length l) - 1 - k).
Proof.
  intros Hk. unfold rdz. rewrite reverse_lookup by lia. do 2 f_equal. lia.
Qed.

Lemma refl_mirror len i :
  - len ≤ i < 2 * len → len - 1 - refl len i = refl len (len - 1 - i).
Proof. intros. unfold refl. repeat case_decide; lia. Qed.

Lemma win_reverse l r x :
  0 ≤ r ≤ Z.of_nat (length l) → 0 ≤ x < Z.of_nat (length l) →
  win (reverse l) r x = win l r (Z.of_nat (length l) - 1 - x).
Proof.
  intros Hr Hx. unfold win. rewrite length_reverse.
  pose (F := λ j, rdz l (refl (Z.of_nat (length l)) j)).
  trans (sumZ (λ i, F (Z.of_nat (length l) - 1 - i)) (x - r) (2 * r + 1)).
  - apply sumZ_ext. intros i Hi. unfold F.
    rewrite rdz_reverse by (apply refl_range; lia).
    f_equal. apply refl_mirror. lia.
  - rewrite (sumZ_rev F). unfold F. f_equal. lia.
Qed.

Lemma blur_out_reverse r l :
  0 ≤ r ≤ Z.of_nat (length l) →
  blur_out r (reverse l) = reverse (blur_out r l).
Proof.
  intros Hr. apply list_eq. intros i.
  destruct (decide (i < length l)%nat) as [Hi|Hi].
  - rewrite lookup_blur_out by (by rewrite length_reverse).
    rewrite reverse_lookup by (by rewrite length_blur_out).
    rewrite length_blur_out, lookup_blur_out by lia.
    unfold blur_at. rewrite win_reverse by lia. do 5 f_equal. lia.
  - rewrite !lookup_ge_None_2; [done|..].
    + rewrite length_reverse, length_blur_out. lia.
    + rewrite length_blur_out, length_reverse. lia.
Qed.

Lemma iter_blur_out_reverse r n l :
  0 ≤ r ≤ Z.of_nat (length l) →
  Nat.iter n (blur_out r) (reverse l) = reverse (Nat.iter n (blur_out r) l).
Proof.
  intros Hr. induction n as [|n IH]; [done|].
  rewrite !Nat.iter_succ, IH. apply blur_out_reverse.
  by rewrite length_iter_blur_out.
Qed.

Lemma bp_out_reverse r p l :
  0 ≤ r ≤ Z.of_nat (length l) →
  bp_out r p (reverse l) = reverse (bp_out r p l).
Proof.
  intros Hr. unfold bp_out. case_match; [|done]. by apply iter_blur_out_reverse.
Qed.

Lemma fmap_const_seqZ {A} (c : A) lo n :
  (λ _, c) <$> seqZ lo n = replicate (Z.to_nat n) c.
Proof.
  apply list_eq. intros i. rewrite list_lookup_fmap.
  destruct (decide (Z.of_nat i < n)) as [Hi|Hi].
  - rewrite lookup_seqZ_lt by done. simpl. symmetry.
    apply lookup_replicate_2. lia.
  - rewrite lookup_seqZ_ge by lia. simpl. symmetry.
    apply lookup_replicate_None. lia.
Qed.

Lemma rdz_replicate n v k : 0 ≤ k < Z.of_nat n → rdz (replicate n v) k = v.
Proof. intros Hk. unfold rdz. by rewrite lookup_replicate_2 by lia. Qed.

Lemma win_replicate n v r x :
  0 ≤ r ≤ Z.of_nat n → 0 ≤ x < Z.of_nat n →
  win (replicate n v) r x = (2 * r + 1) * v.
Proof.
  intros Hr Hx. unfold win. rewrite length_replicate.
  rewrite (sumZ_ext _ (λ _, v)).
  - apply sumZ_const. lia.
  - intros i Hi. apply rdz_replicate, refl_range. lia.
Qed.

Lemma blur_out_replicate r n v :
  0 ≤ r ≤ Z.of_nat n →
  blur_out r (replicate n v) = replicate n (blur_const r v).
Proof.
  intros Hr. apply list_eq. intros i.
  destruct (decide (i < n)%nat) as [Hi|Hi].
  - rewrite lookup_blur_out by (by rewrite length_replicate).
    rewrite lookup_replicate_2 by done. unfold blur_at, blur_const.
    by rewrite win_replicate by lia.
  - rewrite !lookup_ge_None_2; [done|..].
    + rewrite length_replicate. lia.
    + rewrite length_blur_out, length_replicate. lia.
Qed.

Lemma bp_out_replicate r p n v :
  0 ≤ r ≤ Z.of_nat n →
  bp_out r p (replicate n v) =
  replicate n (if bool_decide (r ≠ 0) && bool_decide (p ≠ 0)
               then Nat.iter (Z.to_nat p) (blur_const r) v else v).
Proof.
  intros Hr. unfold bp_out. case_match; [|done].
  induction (Z.to_nat p) as [|k IH]; [done|].
  rewrite !Nat.iter_succ, IH. by apply blur_out_replicate.
Qed.

Lemma sumZ_rdz l : sumZ (rdz l) 0 (Z.of_nat (length l)) = sum_list l.
Proof. unfold sumZ, sum_list. by rewrite seqZ_rdz. Qed.

Lemma win_centre l r :
  0 ≤ r → Z.of_nat (length l) = 2 * r + 1 → win l r r = sum_list l.
Proof.
  intros Hr Hl. unfold win. rewrite <- sumZ_rdz, Hl.
  replace (r - r) with 0 by lia. apply sumZ_ext.
  intros i Hi. unfold refl. rewrite !decide_False by lia. done.
Qed.

Lemma sum_list_bounds l :
  Forall is_byte l → 0 ≤ sum_list l ≤ 255 * Z.of_nat (length l).
Proof.
  intros H. induction H as [|v l Hv _ IH]; simpl; [lia|].
  unfold is_byte in Hv. lia.
Qed.

(** ** The fixed-point normalisation, radius by radius *)

Lemma forallb_seqZ (f : Z → bool) lo n x :
  forallb f (seqZ lo n) = true → lo ≤ x < lo + n → f x = true.
Proof.
  intros H Hx. rewrite forallb_forall in H. apply H.
  apply list_elem_of_In, elem_of_seqZ. done.
Qed.

Lemma norm_no_wrap inv s :
  0 ≤ s → 0 ≤ inv → s * inv + 32768 < 2 ^ 31 →
  norm inv (wrap32 s) = norm_z inv s.
Proof.
  intros Hs Hinv Hfit. assert (0 ≤ s * inv) by nia.
  unfold norm, norm_z, add32, mul32, shl32, sar32.
  rewrite wrap32_mul_l.
  change (Z.shiftl 1 15) with 32768. rewrite (wrap32_small 32768) by lia.
  rewrite (wrap32_small (s * inv)) by lia.
  rewrite wrap32_small by lia.
  rewrite Z.shiftr_div_pow2 by lia. done.
Qed.

Lemma norm_fits inv r s :
  0 ≤ inv → 255 * (2 * r + 1) * inv + 32768 < 2 ^ 31 →
  0 ≤ r → 0 ≤ s ≤ 255 * (2 * r + 1) →
  norm inv (wrap32 s) = norm_z inv s.
Proof.
  intros Ha Hb Hr Hs. apply norm_no_wrap; [lia|done|].
  assert (s * inv ≤ 255 * (2 * r + 1) * inv)
    by (apply Z.mul_le_mono_nonneg_r; lia).
  lia.
Qed.

Lemma all_const_exact : forallb const_exact (seqZ 0 153) = true.
Proof. vm_compute. reflexivity. Qed.

Lemma blur_const_exact r v : 0 ≤ r ≤ 152 → is_byte v → blur_const r v = v.
Proof.
  intros Hr Hv. unfold is_byte in Hv.
  pose proof (forallb_seqZ _ _ _ r all_const_exact ltac:(lia)) as H.
  revert H. unfold blur_const, const_exact, fits_inv. cbv zeta.
  generalize (blur_inv r). intros inv H.
  apply andb_prop in H as [Hfit H]. apply andb_prop in Hfit as [Ha Hb].
  apply bool_decide_eq_true in Ha. apply bool_decide_eq_true in Hb.
  apply (forallb_seqZ _ _ _ v) in H; [|lia]. apply Z.eqb_eq in H.
  rewrite (norm_fits inv r) by (done || nia).
  rewrite H. apply Z.mod_small. lia.
Qed.

Lemma all_centre_exact : forallb centre_exact (seqZ 1 10) = true.
Proof. vm_compute. reflexivity. Qed.

Lemma round_avg_byte s n : 0 < n → 0 ≤ s ≤ 255 * n → 0 ≤ round_avg s n ≤ 255.
Proof.
  intros Hn Hs. unfold round_avg. split.
  - apply Z.div_pos; lia.
  - apply Z.lt_succ_r. apply Z.div_lt_upper_bound; lia.
Qed.

Lemma norm_round_avg r s :
  1 ≤ r ≤ 10 → 0 ≤ s ≤ 255 * (2 * r + 1) →
  norm (blur_inv r) (wrap32 s) `mod` 256 = round_avg s (2 * r + 1).
Proof.
  intros Hr Hs.
  pose proof (forallb_seqZ _ _ _ r all_centre_exact ltac:(lia)) as H.
  revert H. unfold centre_exact, fits_inv. cbv zeta.
  generalize (blur_inv r). intros inv H.
  apply andb_prop in H as [Hfit H]. apply andb_prop in Hfit as [Ha Hb].
  apply bool_decide_eq_true in Ha. apply bool_decide_eq_true in Hb.
  apply (forallb_seqZ _ _ _ s) in H; [|lia]. apply Z.eqb_eq in H.
  rewrite (norm_fits inv r) by (done || lia). rewrite H.
  apply Z.mod_small. pose proof (round_avg_byte s (2 * r + 1)). lia.
Qed.

Lemma all_top_in_range : forallb top_in_range (seqZ 0 177) = true.
Proof. vm_compute. reflexivity. Qed.

Lemma norm_z_mono inv s s' : 0 ≤ inv → s ≤ s' → norm_z inv s ≤ norm_z inv s'.
Proof. intros. unfold norm_z. apply Z.div_le_mono; [lia|nia]. Qed.

Lemma norm_in_range r s :
  0 ≤ r ≤ 176 → 0 ≤ s ≤ 255 * (2 * r + 1) →
  0 ≤ norm (blur_inv r) (wrap32 s) ≤ 255.
Proof.
  intros Hr Hs.
  pose proof (forallb_seqZ _ _ _ r all_top_in_range ltac:(lia)) as H.
  revert H. unfold top_in_range, fits_inv. cbv zeta.
  generalize (blur_inv r). intros inv H.
  apply andb_prop in H as [Hfit Htop%Z.leb_le].
  apply andb_prop in Hfit as [Ha Hb].
  apply bool_decide_eq_true in Ha. apply bool_decide_eq_true in Hb.
  rewrite (norm_fits inv r) by (done || lia). split.
  - unfold norm_z. apply Z.div_pos; [nia|lia].
  - etrans; [|exact Htop]. apply norm_z_mono; lia.
Qed.

(** ** Runs read back from memory *)

Lemma is_run_run m p step l :
  is_run m p step l → run m p step (Z.of_nat (length l)) = Some l.
Proof.
  intros H. unfold run. apply mapM_Some_2, Forall2_same_length_lookup_2.
  - by rewrite length_seqZ, Nat2Z.id.
  - intros i k v [-> _]%lookup_seqZ Hv. rewrite Z.add_0_l. by apply H.
Qed.

Lemma run_is_run m p step len l : run m p step len = Some l → is_run m p step l.
Proof.
  unfold run. intros H%mapM_Some_1 i v Hv.
  destruct (Forall2_lookup_r _ _ _ _ _ H Hv) as (k & Hk & Hld).
  apply lookup_seqZ in Hk as [-> _]. by rewrite Z.add_0_l in Hld.
Qed.

Lemma blur_power_run m dst ds src ss r p t0 t1 l :
  run_layout m dst ds src ss (Z.of_nat (length l)) t0 t1 →
  pass_ok r p (Z.of_nat (length l)) →
  is_run m src ss l →
  ∃ m', blur_power dst ds src ss (Z.of_nat (length l)) r p t0 t1 m = Some m' ∧
        is_run m' dst ds (bp_out r p l) ∧
        run m' dst ds (Z.of_nat (length l)) = Some (bp_out r p l).
Proof.
  intros (Hds & Hdst & Ht0 & Ht1 & ? & ? & ? & ? & ? & Halias) Hok Hsrc.
  destruct (blur_power_spec m dst ds src ss r p t0 t1 l)
    as (mt & m' & Hbp & Htm & Hst); try done.
  assert (is_run m' dst ds (bp_out r p l)) as Hrun.
  { eapply store_run_is_run_bytes; [done| |done].
    apply bp_out_bytes. by eapply is_run_bytes. }
  exists m'. split; [done|]. split; [done|].
  rewrite <- (length_bp_out r p l). by apply is_run_run.
Qed.

Lemma blur_run m dst ds src ss r l :
  0 ≤ r → 2 * r < Z.of_nat (length l) → blk dst ≠ blk src → ds ≠ 0 →
  is_run m src ss l →
  (∀ k, 0 ≤ k < Z.of_nat (length l) → in_bounds m (dst +ₚ k * ds)) →
  ∃ m', blur dst ds src ss (Z.of_nat (length l)) r m = Some m' ∧
        is_run m' dst ds (blur_out r l) ∧
        run m' dst ds (Z.of_nat (length l)) = Some (blur_out r l).
Proof.
  intros Hr Hlen Hblk Hds Hsrc Hdst.
  destruct (blur_run_spec m dst ds src ss r l) as (m' & Hm' & Hst); try done.
  assert (is_run m' dst ds (blur_out r l)) as Hrun.
  { eapply store_run_is_run_bytes; [done|apply blur_out_bytes|done]. }
  exists m'. split; [done|]. split; [done|].
  rewrite <- (length_blur_out r l). by apply is_run_run.
Qed.

Lemma is_run_fresh l :
  Forall is_byte l →
  is_run (Mem [int_to_u8 <$> l; replicate (length l) Byte.x00] []) (Ptr 0 0) 1 l.
Proof.
  intros Hl i v Hv. unfold load. simpl. rewrite decide_True by lia. simpl.
  replace (Z.to_nat (0 + Z.of_nat i * 1)) with i by lia.
  rewrite list_lookup_fmap, Hv. simpl. rewrite u8_to_int_to_u8.
  f_equal. apply Z.mod_small. by eapply Forall_lookup_1 in Hl.
Qed.

Lemma blur_on_run_out r l :
  Forall is_byte l → 0 ≤ r → 2 * r < Z.of_nat (length l) →
  blur_on_run r l = Some (blur_out r l).
Proof.
  intros Hl Hr Hlen. unfold blur_on_run.
  destruct (blur_run (Mem [int_to_u8 <$> l; replicate (length l) Byte.x00] [])
              (Ptr 1 0) 1 (Ptr 0 0) 1 r l) as (m' & Hm' & _ & Hrun); try done.
  - by apply is_run_fresh.
  - intros k Hk. apply in_bounds_alt. simpl. split; [lia|].
    eexists. split; [done|]. rewrite length_replicate. lia.
  - cbv zeta. rewrite Hm'. simpl. done.
Qed.


(** ** Both passes over a plane, as [filter_frame] runs them *)

Lemma plane_fits_shape m m' p ls w h :
  same_shape m m' → plane_fits m p ls w h → plane_fits m' p ls w h.
Proof.
  unfold same_shape. intros Hs (? & ? & ? & b & Hb & ?).
  split; [done|]. split; [done|]. split; [done|].
  assert ((length <$> heap m') !! blk p = Some (length b)) as Hl.
  { rewrite <- Hs, list_lookup_fmap, Hb. done. }
  rewrite list_lookup_fmap in Hl.
  destruct (heap m' !! blk p) as [b'|]; simplify_eq/=. exists b'. split; [done|lia].
Qed.

Lemma temp_fits_shape m m' t n :
  same_shape m m' → temp_fits m t n → temp_fits m' t n.
Proof.
  unfold same_shape. intros Hs (? & b & Hb & ?). split; [done|].
  assert ((length <$> heap m') !! blk t = Some (length b)) as Hl.
  { rewrite <- Hs, list_lookup_fmap, Hb. done. }
  rewrite list_lookup_fmap in Hl.
  destruct (heap m' !! blk t) as [b'|]; simplify_eq/=. exists b'. split; [done|lia].
Qed.

Lemma bp_out_ext r p l l' : l = l' → bp_out r p l = bp_out r p l'.
Proof. by intros ->. Qed.

Lemma vblur_plane_ext r p h pl pl' x y :
  (∀ y, 0 ≤ y < h → pl x y = pl' x y) →
  vblur_plane r p h pl x y = vblur_plane r p h pl' x y.
Proof.
  intros H. unfold vblur_plane, col. do 2 f_equal.
  apply list_fmap_ext. intros i y' [-> ?]%lookup_seqZ. apply H. lia.
Qed.

Lemma hblur_plane_ext r p w pl pl' x y :
  (∀ x, 0 ≤ x < w → pl x y = pl' x y) →
  hblur_plane r p w pl x y = hblur_plane r p w pl' x y.
Proof.
  intros H. unfold hblur_plane, row. do 2 f_equal.
  apply list_fmap_ext. intros i x' [-> ?]%lookup_seqZ. apply H. lia.
Qed.

Lemma plane_blur_spec m out ols inp ils w h r p t0 t1 :
  layout_ok m out ols inp ils w h t0 t1 → blk out ≠ blk inp →
  pass_ok r p w → pass_ok r p h →
  ∃ m1 m2,
    hblur out ols inp ils w h r p t0 t1 m = Some m1 ∧
    vblur out ols out ols w h r p t0 t1 m1 = Some m2 ∧
    driver_post m out ols w h t0 t1
      (blur_plane r p w h (plane_of m inp ils))
      (hblur_cells out ols w h ++
       if bool_decide (r = 0) then [] else vblur_cells out ols w h) m2.
Proof.
  intros Hlay Hblk Hokw Hokh.
  destruct (hblur_spec m out ols inp ils w h r p t0 t1 Hlay Hokw)
    as (m1 & Hm1 & Hs1 & Ho1 & Hp1 & Ht1).
  assert (layout_ok m1 out ols out ols w h t0 t1) as Hlay1.
  { destruct Hlay as (? & ? & ? & ? & ? & ? & ? & ? & ? & ?).
    split; [by eapply plane_fits_shape|]. split; [by eapply plane_fits_shape|].
    split; [by eapply temp_fits_shape|]. split; [by eapply temp_fits_shape|].
    split; [done|]. split; [done|]. split; [done|]. split; [done|].
    split; [done|]. by right. }
  destruct (vblur_spec m1 out ols out ols w h r p t0 t1 Hlay1 Hokh)
    as (m2 & Hm2 & Hs2 & Ho2 & Hp2 & Ht2).
  exists m1, m2. split; [done|]. split; [done|].
  split; [by eapply same_shape_trans|]. split; [|split].
  - intros b ? ? ?. rewrite Ho2, Ho1 by done. done.
  - intros x y Hx Hy. rewrite Hp2 by done. f_equal. unfold blur_plane.
    apply vblur_plane_ext. intros y' Hy'. apply load_plane_of. by apply Hp1.
  - rewrite Ht2, Ht1.
    rewrite (bool_decide_eq_false_2 (out = inp)) by (by intros ->).
    rewrite andb_false_r. rewrite (bool_decide_eq_true_2 (out = out)) by done.
    rewrite andb_true_r, <- app_assoc. done.
Qed.

Lemma rdz_row pl w x y : 0 ≤ x < w → rdz (row pl w y) x = pl x y.
Proof. intros. apply (rdz_run_of (λ y x, pl x y)). done. Qed.

Lemma rdz_col pl h x y : 0 ≤ y < h → rdz (col pl h x) y = pl x y.
Proof. intros. apply (rdz_run_of (λ x y, pl x y)). done. Qed.

Lemma blur_plane_id r p w h pl x y :
  r = 0 ∨ p = 0 → 0 ≤ x < w → 0 ≤ y < h → blur_plane r p w h pl x y = pl x y.
Proof.
  intros Hrp Hx Hy. unfold blur_plane, vblur_plane.
  rewrite bp_out_id, rdz_col by done.
  unfold hblur_plane. by rewrite bp_out_id, rdz_row.
Qed.

Lemma pass_ok_id r p len : r = 0 ∨ p = 0 → pass_ok r p len.
Proof. intros [?|?]; [by left|by right; left]. Qed.

(** * The claims *)

(** Buffers given in full: bounds and contents are settled by evaluation. *)
Ltac concrete_bounds :=
  intros ? ?; apply in_bounds_alt; simpl in *;
  split; [lia | eexists; split; [reflexivity | simpl; lia]].

Ltac concrete_run_layout :=
  split; [lia|]; split; [concrete_bounds|]; split; [concrete_bounds|];
  split; [concrete_bounds|]; simpl; repeat split; try lia; auto.

Ltac concrete_is_run :=
  match goal with
  | |- is_run ?m ?p ?s ?l =>
    apply (run_is_run m p s (Z.of_nat (length l))); vm_compute; reflexivity
  end.

(** C1.  [blur_power] with radius 1, power 1 and unit strides turns the run
    [0,0,0,255,0,0,0] into [0,0,85,85,85,0,0], whatever the destination and
    the scratch buffers held before. *)
Theorem blur_power_test_vector m dst src t0 t1 :
  run_layout m dst 1 src 1 7 t0 t1 →
  is_run m src 1 [0; 0; 0; 255; 0; 0; 0] →
  ∃ m', blur_power dst 1 src 1 7 1 1 t0 t1 m = Some m' ∧
        run m' dst 1 7 = Some [0; 0; 85; 85; 85; 0; 0].
Proof.
  intros Hlay Hsrc.
  destruct (blur_power_run m dst 1 src 1 1 1 t0 t1 [0; 0; 0; 255; 0; 0; 0])
    as (m' & Hbp & _ & Hrun); [done| |done|].
  { right. right. simpl. lia. }
  exists m'. split; [exact Hbp|]. exact Hrun.
Qed.

Lemma blur_power_test_vector_witness :
  ∃ m', blur_power (Ptr 1 0) 1 (Ptr 0 0) 1 7 1 1 (Ptr 2 0) (Ptr 3 0)
          (Mem [int_to_u8 <$> [0; 0; 0; 255; 0; 0; 0];
                int_to_u8 <$> [9; 9; 9; 9; 9; 9; 9];
                int_to_u8 <$> [1; 2; 3; 4; 5; 6; 7];
                int_to_u8 <$> [7; 6; 5; 4; 3; 2; 1]] []) = Some m' ∧
        run m' (Ptr 1 0) 1 7 = Some [0; 0; 85; 85; 85; 0; 0].
Proof.
  apply blur_power_test_vector.
  - concrete_run_layout.
  - concrete_is_run.
Defined.

Ltac concrete_plane_fits :=
  split; [lia|]; split; [lia|]; split; [simpl; lia|];
  eexists; split; [reflexivity | simpl; lia].

Ltac concrete_temp_fits :=
  split; [simpl; lia|]; eexists; split; [reflexivity | simpl; lia].

Ltac concrete_layout_ok :=
  split; [concrete_plane_fits|]; split; [concrete_plane_fits|];
  split; [concrete_temp_fits|]; split; [concrete_temp_fits|];
  simpl; repeat split; try lia; auto.

(** C2.  With radius 0 (any power) or power 0 (any radius), [blur_power]
    stores in the destination run exactly the samples of the source run;
    hence the two passes that [filter_frame] runs over a plane, [hblur]
    from the input plane and [vblur] in place, leave in the output plane
    the samples of the input plane. *)
Theorem identity_when_radius_or_power_zero :
  (∀ m dst ds src ss r p t0 t1 l,
     r = 0 ∨ p = 0 →
     run_layout m dst ds src ss (Z.of_nat (length l)) t0 t1 →
     is_run m src ss l →
     ∃ m', blur_power dst ds src ss (Z.of_nat (length l)) r p t0 t1 m = Some m' ∧
           run m' dst ds (Z.of_nat (length l)) = Some l) ∧
  (∀ m out ols inp ils w h r p t0 t1,
     r = 0 ∨ p = 0 →
     layout_ok m out ols inp ils w h t0 t1 → blk out ≠ blk inp →
     ∃ m1 m2,
       hblur out ols inp ils w h r p t0 t1 m = Some m1 ∧
       vblur out ols out ols w h r p t0 t1 m1 = Some m2 ∧
       ∀ x y, 0 ≤ x < w → 0 ≤ y < h →
              is_Some (load m (cell inp ils x y)) ∧
              load m2 (cell out ols x y) = load m (cell inp ils x y)).
Proof.
  split.
  - intros m dst ds src ss r p t0 t1 l Hrp Hlay Hsrc.
    destruct (blur_power_run m dst ds src ss r p t0 t1 l)
      as (m' & Hbp & _ & Hrun); [done|by apply pass_ok_id|done|].
    exists m'. split; [done|]. by rewrite bp_out_id in Hrun.
  - intros m out ols inp ils w h r p t0 t1 Hrp Hlay Hblk.
    destruct (plane_blur_spec m out ols inp ils w h r p t0 t1)
      as (m1 & m2 & Hm1 & Hm2 & _ & _ & Hpl & _);
      [done|done|by apply pass_ok_id|by apply pass_ok_id|].
    exists m1, m2. split; [done|]. split; [done|]. intros x y Hx Hy.
    assert (in_bounds m (cell inp ils x y)) as Hin.
    { destruct Hlay as (? & _). by eapply plane_fits_in_bounds. }
    split; [exact Hin|].
    rewrite Hpl, blur_plane_id by done. symmetry. by apply plane_of_load.
Qed.

Lemma identity_when_radius_or_power_zero_witness :
  (∃ m', blur_power (Ptr 1 0) 1 (Ptr 0 0) 1 (Z.of_nat (length [10; 20; 30]))
           0 3 (Ptr 2 0) (Ptr 3 0)
           (Mem [int_to_u8 <$> [10; 20; 30]; int_to_u8 <$> [0; 0; 0];
                 int_to_u8 <$> [0; 0; 0]; int_to_u8 <$> [0; 0; 0]] []) = Some m' ∧
         run m' (Ptr 1 0) 1 (Z.of_nat (length [10; 20; 30])) = Some [10; 20; 30]) ∧
  (∃ m1 m2,
     hblur (Ptr 1 0) 3 (Ptr 0 0) 3 2 2 7 0 (Ptr 2 0) (Ptr 3 0)
       (Mem [int_to_u8 <$> [1; 2; 99; 3; 4; 99]; int_to_u8 <$> [0; 0; 0; 0; 0; 0];
             int_to_u8 <$> [0; 0]; int_to_u8 <$> [0; 0]] []) = Some m1 ∧
     vblur (Ptr 1 0) 3 (Ptr 1 0) 3 2 2 7 0 (Ptr 2 0) (Ptr 3 0) m1 = Some m2 ∧
     ∀ x y, 0 ≤ x < 2 → 0 ≤ y < 2 →
       is_Some (load (Mem [int_to_u8 <$> [1; 2; 99; 3; 4; 99];
                           int_to_u8 <$> [0; 0; 0; 0; 0; 0];
                           int_to_u8 <$> [0; 0]; int_to_u8 <$> [0; 0]] [])
                  (cell (Ptr 0 0) 3 x y)) ∧
       load m2 (cell (Ptr 1 0) 3 x y) =
       load (Mem [int_to_u8 <$> [1; 2; 99; 3; 4; 99];
                  int_to_u8 <$> [0; 0; 0; 0; 0; 0];
                  int_to_u8 <$> [0; 0]; int_to_u8 <$> [0; 0]] [])
            (cell (Ptr 0 0) 3 x y)).
Proof.
  destruct identity_when_radius_or_power_zero as [Hrun Hplane]. split.
  - apply Hrun.
    + by left.
    + concrete_run_layout.
    + concrete_is_run.
  - apply Hplane.
    + by right.
    + concrete_layout_ok.
    + simpl. lia.
Defined.




(** * Further properties of the code *)

(** ** blur *)

Lemma rdz_byte l k :
  Forall is_byte l → 0 ≤ k < Z.of_nat (length l) → is_byte (rdz l k).
Proof.
  intros Hl Hk. destruct (lookup_lt_is_Some_2 l (Z.to_nat k)) as [v Hv]; [lia|].
  unfold rdz. rewrite Hv. simpl. by eapply Forall_lookup_1 in Hl.
Qed.

Lemma win_bounds l r x :
  Forall is_byte l → 0 ≤ r ≤ Z.of_nat (length l) → 0 ≤ x < Z.of_nat (length l) →
  0 ≤ win l r x ≤ 255 * (2 * r + 1).
Proof.
  intros Hl Hr Hx. unfold win.
  pose proof (sumZ_bounds (λ i, rdz l (refl (Z.of_nat (length l)) i))
                (x - r) (2 * r + 1) 0 255 ltac:(lia)) as H.
  rewrite Z.mul_0_r, (Z.mul_comm (2 * r + 1) 255) in H. apply H.
  intros i Hi. pose proof (rdz_byte l (refl (Z.of_nat (length l)) i) Hl) as Hb.
  unfold is_byte in Hb. assert (0 ≤ refl (Z.of_nat (length l)) i < Z.of_nat (length l))
    by (apply refl_range; lia). lia.
Qed.

Lemma blur_loads m dst ds src ss r l :
  0 ≤ r → 2 * r < Z.of_nat (length l) → blk dst ≠ blk src → ds ≠ 0 →
  is_run m src ss l →
  (∀ k, 0 ≤ k < Z.of_nat (length l) → in_bounds m (dst +ₚ k * ds)) →
  ∃ m', blur dst ds src ss (Z.of_nat (length l)) r m = Some m' ∧
        ∀ x, 0 ≤ x < Z.of_nat (length l) →
             load m' (dst +ₚ x * ds) = Some (blur_at r l x `mod` 256).
Proof.
  intros Hr Hlen Hblk Hds Hsrc Hdst.
  destruct (blur_run m dst ds src ss r l) as (m' & Hm' & Hrun & _); try done.
  exists m'. split; [done|]. intros x Hx.
  rewrite (is_run_load m' dst ds (blur_out r l)); [|done|by rewrite length_blur_out].
  by rewrite rdz_blur_out.
Qed.

(** X1.  For a radius whose window fits in the run, [blur] stores at every
    position x of the destination the normalised sum of the 2r+1 source
    samples around x, where the positions before the first and after the
    last sample stand for the mirror image of the run (edge sample
    repeated): the running sum of the three loops is the direct window
    sum. *)
Theorem blur_writes_window_sums m dst ds src ss r l :
  0 ≤ r → 2 * r < Z.of_nat (length l) → blk dst ≠ blk src → ds ≠ 0 →
  is_run m src ss l →
  (∀ k, 0 ≤ k < Z.of_nat (length l) → in_bounds m (dst +ₚ k * ds)) →
  ∃ m', blur dst ds src ss (Z.of_nat (length l)) r m = Some m' ∧
        ∀ x, 0 ≤ x < Z.of_nat (length l) →
             load m' (dst +ₚ x * ds) =
             Some (norm (blur_inv r) (wrap32 (win l r x)) `mod` 256).
Proof. apply blur_loads. Qed.

Lemma blur_writes_window_sums_witness :
  ∃ m', blur (Ptr 1 0) 2 (Ptr 0 0) 1 (Z.of_nat (length demo_run)) 2 demo_mem
        = Some m' ∧
        ∀ x, 0 ≤ x < Z.of_nat (length demo_run) →
             load m' (Ptr 1 0 +ₚ x * 2) =
             Some (norm (blur_inv 2) (wrap32 (win demo_run 2 x)) `mod` 256).
Proof.
  apply blur_writes_window_sums.
  - lia.
  - simpl. lia.
  - simpl. lia.
  - lia.
  - concrete_is_run.
  - concrete_bounds.
Defined.

(** X2.  [blur] stores to the samples of the destination run, first to
    last, once each, and to nothing else: every other sample of memory
    keeps its value and every buffer its size. *)
Theorem blur_touches_only_destination m dst ds src ss r l :
  0 ≤ r → 2 * r < Z.of_nat (length l) → blk dst ≠ blk src →
  is_run m src ss l →
  (∀ k, 0 ≤ k < Z.of_nat (length l) → in_bounds m (dst +ₚ k * ds)) →
  ∃ m', blur dst ds src ss (Z.of_nat (length l)) r m = Some m' ∧
        same_shape m m' ∧
        trace m' = trace m ++ ((λ k, dst +ₚ k * ds) <$> seqZ 0 (Z.of_nat (length l))) ∧
        ∀ q, (∀ k, 0 ≤ k < Z.of_nat (length l) → q ≠ dst +ₚ k * ds) →
             load m' q = load m q.
Proof.
  intros Hr Hlen Hblk Hsrc Hdst.
  destruct (blur_spec m dst ds src ss r l) as (m' & Hm' & Hst); try done.
  exists m'. split; [done|]. split; [by eapply store_run_shape|]. split.
  - rewrite (store_run_trace _ _ _ _ _ _ Hst). by rewrite length_blur_raw.
  - intros q Hq. eapply store_run_load_other; [done|].
    intros k Hk. apply Hq. rewrite length_blur_raw in Hk. lia.
Qed.

Lemma blur_touches_only_destination_witness :
  ∃ m', blur (Ptr 1 0) 2 (Ptr 0 0) 1 (Z.of_nat (length demo_run)) 2 demo_mem
        = Some m' ∧
        same_shape demo_mem m' ∧
        trace m' = trace demo_mem ++
          ((λ k, Ptr 1 0 +ₚ k * 2) <$> seqZ 0 (Z.of_nat (length demo_run))) ∧
        ∀ q, (∀ k, 0 ≤ k < Z.of_nat (length demo_run) → q ≠ Ptr 1 0 +ₚ k * 2) →
             load m' q = load demo_mem q.
Proof.
  apply blur_touches_only_destination.
  - lia.
  - simpl. lia.
  - simpl. lia.
  - concrete_is_run.
  - concrete_bounds.
Defined.

(** X3.  The two edges are treated alike: blurring the reversed run gives
    the reversed blur of the run. *)
Theorem blur_on_run_reverse r l :
  Forall is_byte l → 0 ≤ r → 2 * r < Z.of_nat (length l) →
  blur_on_run r (reverse l) = reverse <$> blur_on_run r l.
Proof.
  intros Hl Hr Hlen.
  rewrite !blur_on_run_out; try done.
  - simpl. f_equal. apply blur_out_reverse. lia.
  - by apply Forall_reverse.
  - by rewrite length_reverse.
Qed.

Lemma blur_on_run_reverse_witness :
  blur_on_run 2 (reverse demo_run) = reverse <$> blur_on_run 2 demo_run.
Proof.
  apply blur_on_run_reverse.
  - unfold demo_run, is_byte. repeat constructor; lia.
  - lia.
  - simpl. lia.
Defined.

(** X4.  Up to radius 152 the fixed-point reciprocal is exact on runs of
    equal samples: such a run is left as it is. *)
Theorem blur_on_run_constant r n v :
  0 ≤ r ≤ 152 → 2 * r < Z.of_nat n → is_byte v →
  blur_on_run r (replicate n v) = Some (replicate n v).
Proof.
  intros Hr Hn Hv. rewrite blur_on_run_out.
  - rewrite blur_out_replicate by lia. by rewrite blur_const_exact.
  - by apply Forall_replicate.
  - lia.
  - by rewrite length_replicate.
Qed.

Lemma blur_on_run_constant_witness :
  blur_on_run 3 (replicate 9 77) = Some (replicate 9 77).
Proof.
  apply blur_on_run_constant.
  - lia.
  - simpl. lia.
  - unfold is_byte. lia.
Defined.

(** X5.  Up to radius 176 the value [(sum*inv + (1<<15))>>16] that [blur]
    computes for a position lies in 0..255, so the sample stored is that
    value: the conversion to [uint8_t] drops nothing. *)
Theorem blur_stores_without_truncation m dst ds src ss r l :
  0 ≤ r ≤ 176 → 2 * r < Z.of_nat (length l) → blk dst ≠ blk src → ds ≠ 0 →
  is_run m src ss l →
  (∀ k, 0 ≤ k < Z.of_nat (length l) → in_bounds m (dst +ₚ k * ds)) →
  ∃ m', blur dst ds src ss (Z.of_nat (length l)) r m = Some m' ∧
        ∀ x, 0 ≤ x < Z.of_nat (length l) →
             0 ≤ norm (blur_inv r) (wrap32 (win l r x)) ≤ 255 ∧
             load m' (dst +ₚ x * ds) =
             Some (norm (blur_inv r) (wrap32 (win l r x))).
Proof.
  intros Hr Hlen Hblk Hds Hsrc Hdst.
  destruct (blur_loads m dst ds src ss r l) as (m' & Hm' & Hld);
    try done; [lia|]. unfold blur_at in Hld.
  exists m'. split; [done|]. intros x Hx.
  assert (0 ≤ norm (blur_inv r) (wrap32 (win l r x)) ≤ 255) as Hv.
  { apply norm_in_range; [done|].
    apply win_bounds; [by eapply is_run_bytes|lia|done]. }
  split; [done|]. rewrite Hld by done. f_equal. apply Z.mod_small. lia.
Qed.

Lemma blur_stores_without_truncation_witness :
  ∃ m', blur (Ptr 1 0) 2 (Ptr 0 0) 1 (Z.of_nat (length demo_run)) 2 demo_mem
        = Some m' ∧
        ∀ x, 0 ≤ x < Z.of_nat (length demo_run) →
             0 ≤ norm (blur_inv 2) (wrap32 (win demo_run 2 x)) ≤ 255 ∧
             load m' (Ptr 1 0 +ₚ x * 2) =
             Some (norm (blur_inv 2) (wrap32 (win demo_run 2 x))).
Proof.
  apply blur_stores_without_truncation.
  - lia.
  - simpl. lia.
  - simpl. lia.
  - lia.
  - concrete_is_run.
  - concrete_bounds.
Defined.

(** X6.  On a run of exactly 2r+1 samples the middle sample of the result
    is the normalised sum of all samples of the run; up to radius 10 that
    is their average rounded to the nearest integer. *)
Theorem blur_centre_of_shortest_run m dst ds src ss r l :
  0 ≤ r → Z.of_nat (length l) = 2 * r + 1 → blk dst ≠ blk src → ds ≠ 0 →
  is_run m src ss l →
  (∀ k, 0 ≤ k < Z.of_nat (length l) → in_bounds m (dst +ₚ k * ds)) →
  ∃ m', blur dst ds src ss (2 * r + 1) r m = Some m' ∧
        load m' (dst +ₚ r * ds) =
        Some (norm (blur_inv r) (wrap32 (sum_list l)) `mod` 256) ∧
        (1 ≤ r ≤ 10 →
         load m' (dst +ₚ r * ds) = Some (round_avg (sum_list l) (2 * r + 1))).
Proof.
  intros Hr Hlen Hblk Hds Hsrc Hdst.
  destruct (blur_loads m dst ds src ss r l) as (m' & Hm' & Hld);
    try done; [lia|].
  rewrite Hlen in Hm'. exists m'. split; [done|].
  specialize (Hld r ltac:(lia)). unfold blur_at in Hld.
  rewrite win_centre in Hld by done. split; [done|].
  intros Hr10. rewrite Hld. f_equal. apply norm_round_avg; [done|].
  pose proof (sum_list_bounds l (is_run_bytes _ _ _ _ Hsrc)). lia.
Qed.

Lemma blur_centre_of_shortest_run_witness :
  ∃ m', blur (Ptr 1 0) 2 (Ptr 0 0) 1 (2 * 2 + 1) 2 demo_mem = Some m' ∧
        load m' (Ptr 1 0 +ₚ 2 * 2) =
        Some (norm (blur_inv 2) (wrap32 (sum_list demo_run)) `mod` 256) ∧
        (1 ≤ 2 ≤ 10 →
         load m' (Ptr 1 0 +ₚ 2 * 2) = Some (round_avg (sum_list demo_run) (2 * 2 + 1))).
Proof.
  apply blur_centre_of_shortest_run.
  - lia.
  - reflexivity.
  - simpl. lia.
  - lia.
  - concrete_is_run.
  - concrete_bounds.
Defined.

(** ** blur_power *)

Lemma blur_power_full m dst ds src ss r p t0 t1 l :
  run_layout m dst ds src ss (Z.of_nat (length l)) t0 t1 →
  pass_ok r p (Z.of_nat (length l)) →
  is_run m src ss l →
  ∃ m', blur_power dst ds src ss (Z.of_nat (length l)) r p t0 t1 m = Some m' ∧
        is_run m' dst ds (bp_out r p l) ∧
        same_shape m m' ∧
        (∀ q, blk q ≠ blk t0 → blk q ≠ blk t1 →
              (∀ k, 0 ≤ k < Z.of_nat (length l) → q ≠ dst +ₚ k * ds) →
              load m' q = load m q) ∧
        user_trace t0 t1 m' =
        user_trace t0 t1 m ++ ((λ k, dst +ₚ k * ds) <$> seqZ 0 (Z.of_nat (length l))).
Proof.
  intros (Hds & Hdst & Ht0 & Ht1 & ? & ? & ? & ? & ? & Halias) Hok Hsrc.
  destruct (blur_power_spec m dst ds src ss r p t0 t1 l)
    as (mt & m' & Hbp & Htm & Hst); try done.
  exists m'. split; [done|]. split; [|split; [|split]].
  - eapply store_run_is_run_bytes; [done| |done].
    apply bp_out_bytes. by eapply is_run_bytes.
  - eapply same_shape_trans; [apply Htm|]. by eapply store_run_shape.
  - intros q ? ? Hq. rewrite (store_run_load_other _ _ _ _ _ _ _ Hst).
    + by eapply temps_only_load.
    + intros k Hk. rewrite length_bp_out in Hk. apply Hq. lia.
  - rewrite <- (temps_only_user_trace t0 t1 m mt Htm).
    apply user_trace_app_user.
    + rewrite (store_run_trace _ _ _ _ _ _ Hst). by rewrite length_bp_out.
    + apply Forall_fmap, Forall_forall. intros k _. simpl. done.
Qed.

Lemma run_layout_shape m m' dst ds src ss len t0 t1 :
  same_shape m m' → run_layout m dst ds src ss len t0 t1 →
  run_layout m' dst ds src ss len t0 t1.
Proof.
  intros Hs (? & Hd & Ha & Hb & ?). split; [done|].
  split; [intros; eapply same_shape_in_bounds; eauto|].
  split; [intros; eapply same_shape_in_bounds; eauto|].
  split; [intros; eapply same_shape_in_bounds; eauto|]. done.
Qed.

Lemma bp_out_add r p q l : 0 ≤ p → 0 ≤ q → bp_out r q (bp_out r p l) = bp_out r (p + q) l.
Proof.
  intros Hp Hq. unfold bp_out.
  destruct (decide (r = 0)) as [->|Hr]; [done|].
  rewrite (bool_decide_eq_true_2 (r ≠ 0)) by done. simpl.
  destruct (decide (p = 0)) as [->|Hp0].
  { simpl. done. }
  destruct (decide (q = 0)) as [->|Hq0].
  { rewrite Z.add_0_r. rewrite (bool_decide_eq_true_2 (p ≠ 0)) by done. done. }
  rewrite !bool_decide_eq_true_2 by lia.
  rewrite Z2Nat.inj_add, Nat.add_comm by lia. by rewrite Nat.iter_add.
Qed.

Lemma pass_ok_add r p q len :
  0 ≤ p → 0 ≤ q → pass_ok r p len → pass_ok r q len → pass_ok r (p + q) len.
Proof. unfold pass_ok. intros. destruct (decide (r = 0)); [by left|]. right. lia. Qed.

(** X7.  [blur_power] changes the samples of the destination run and the
    two scratch buffers and nothing else; every buffer keeps its size; and
    apart from its stores to the scratch buffers it stores to each sample
    of the destination run once, first to last. *)
Theorem blur_power_touches_only_destination_and_scratch
    m dst ds src ss r p t0 t1 l :
  run_layout m dst ds src ss (Z.of_nat (length l)) t0 t1 →
  pass_ok r p (Z.of_nat (length l)) →
  is_run m src ss l →
  ∃ m', blur_power dst ds src ss (Z.of_nat (length l)) r p t0 t1 m = Some m' ∧
        same_shape m m' ∧
        (∀ q, blk q ≠ blk t0 → blk q ≠ blk t1 →
              (∀ k, 0 ≤ k < Z.of_nat (length l) → q ≠ dst +ₚ k * ds) →
              load m' q = load m q) ∧
        user_trace t0 t1 m' =
        user_trace t0 t1 m ++ ((λ k, dst +ₚ k * ds) <$> seqZ 0 (Z.of_nat (length l))).
Proof.
  intros Hlay Hok Hsrc.
  destruct (blur_power_full m dst ds src ss r p t0 t1 l)
    as (m' & ? & _ & ? & ? & ?); try done.
  by exists m'.
Qed.

Lemma blur_power_touches_only_destination_and_scratch_witness :
  ∃ m', blur_power (Ptr 1 0) 2 (Ptr 0 0) 1 (Z.of_nat (length demo_run)) 2 3
          (Ptr 2 0) (Ptr 3 0) demo_mem = Some m' ∧
        same_shape demo_mem m' ∧
        (∀ q, blk q ≠ blk (Ptr 2 0) → blk q ≠ blk (Ptr 3 0) →
              (∀ k, 0 ≤ k < Z.of_nat (length demo_run) → q ≠ Ptr 1 0 +ₚ k * 2) →
              load m' q = load demo_mem q) ∧
        user_trace (Ptr 2 0) (Ptr 3 0) m' =
        user_trace (Ptr 2 0) (Ptr 3 0) demo_mem ++
        ((λ k, Ptr 1 0 +ₚ k * 2) <$> seqZ 0 (Z.of_nat (length demo_run))).
Proof.
  apply blur_power_touches_only_destination_and_scratch.
  - concrete_run_layout.
  - right. right. simpl. lia.
  - concrete_is_run.
Defined.

(** X8.  When the radius or the power is 0, or both are positive and twice
    the radius is below the length of the run, what the scratch buffers
    hold on entry does not reach the result: two memories with the same
    source run give the same destination run, whatever else they hold. *)
Theorem blur_power_ignores_scratch_contents
    m1 m2 dst ds src ss r p t0 t1 l :
  run_layout m1 dst ds src ss (Z.of_nat (length l)) t0 t1 →
  run_layout m2 dst ds src ss (Z.of_nat (length l)) t0 t1 →
  pass_ok r p (Z.of_nat (length l)) →
  is_run m1 src ss l → is_run m2 src ss l →
  ∃ m1' m2' out,
    blur_power dst ds src ss (Z.of_nat (length l)) r p t0 t1 m1 = Some m1' ∧
    blur_power dst ds src ss (Z.of_nat (length l)) r p t0 t1 m2 = Some m2' ∧
    run m1' dst ds (Z.of_nat (length l)) = Some out ∧
    run m2' dst ds (Z.of_nat (length l)) = Some out.
Proof.
  intros Hl1 Hl2 Hok Hs1 Hs2.
  destruct (blur_power_run m1 dst ds src ss r p t0 t1 l) as (m1' & ? & _ & ?);
    try done.
  destruct (blur_power_run m2 dst ds src ss r p t0 t1 l) as (m2' & ? & _ & ?);
    try done.
  by exists m1', m2', (bp_out r p l).
Qed.

Lemma blur_power_ignores_scratch_contents_witness :
  ∃ m1' m2' out,
    blur_power (Ptr 1 0) 2 (Ptr 0 0) 1 (Z.of_nat (length demo_run)) 2 3
      (Ptr 2 0) (Ptr 3 0) demo_mem = Some m1' ∧
    blur_power (Ptr 1 0) 2 (Ptr 0 0) 1 (Z.of_nat (length demo_run)) 2 3
      (Ptr 2 0) (Ptr 3 0)
      (Mem [int_to_u8 <$> demo_run;
            int_to_u8 <$> [5; 5; 5; 5; 5; 5; 5; 5; 5];
            int_to_u8 <$> [90; 80; 70; 60; 50; 40];
            int_to_u8 <$> [255; 255; 255; 255; 255]] []) = Some m2' ∧
    run m1' (Ptr 1 0) 2 (Z.of_nat (length demo_run)) = Some out ∧
    run m2' (Ptr 1 0) 2 (Z.of_nat (length demo_run)) = Some out.
Proof.
  apply blur_power_ignores_scratch_contents.
  - concrete_run_layout.
  - concrete_run_layout.
  - right. right. simpl. lia.
  - concrete_is_run.
  - concrete_is_run.
Defined.

(** X9.  Powers add up when p, q >= 0 and, for each of them, the radius or
    that power is 0, or both are positive and twice the radius is below the
    length of the run: [blur_power] with power p into an intermediate run
    and then with power q from there gives the destination run that one
    call with power p + q gives. *)
Theorem blur_power_powers_add m dst ds mid src ss r p q t0 t1 l :
  0 ≤ p → 0 ≤ q →
  run_layout m mid 1 src ss (Z.of_nat (length l)) t0 t1 →
  run_layout m dst ds mid 1 (Z.of_nat (length l)) t0 t1 →
  run_layout m dst ds src ss (Z.of_nat (length l)) t0 t1 →
  pass_ok r p (Z.of_nat (length l)) → pass_ok r q (Z.of_nat (length l)) →
  is_run m src ss l →
  ∃ m1 m2 m3 out,
    blur_power mid 1 src ss (Z.of_nat (length l)) r p t0 t1 m = Some m1 ∧
    blur_power dst ds mid 1 (Z.of_nat (length l)) r q t0 t1 m1 = Some m2 ∧
    blur_power dst ds src ss (Z.of_nat (length l)) r (p + q) t0 t1 m = Some m3 ∧
    run m2 dst ds (Z.of_nat (length l)) = Some out ∧
    run m3 dst ds (Z.of_nat (length l)) = Some out.
Proof.
  intros Hp Hq Hl1 Hl2 Hl3 Hokp Hokq Hsrc.
  destruct (blur_power_full m mid 1 src ss r p t0 t1 l)
    as (m1 & Hm1 & Hrun1 & Hs1 & _); try done.
  destruct (blur_power_run m1 dst ds mid 1 r q t0 t1 (bp_out r p l))
    as (m2 & Hm2 & _ & Hrun2).
  { rewrite length_bp_out. by eapply run_layout_shape. }
  { by rewrite length_bp_out. }
  { done. }
  destruct (blur_power_run m dst ds src ss r (p + q) t0 t1 l)
    as (m3 & Hm3 & _ & Hrun3); [done|by apply pass_ok_add|done|].
  rewrite length_bp_out in Hm2, Hrun2. rewrite bp_out_add in Hrun2 by done.
  by exists m1, m2, m3, (bp_out r (p + q) l).
Qed.

Lemma blur_power_powers_add_witness :
  ∃ m1 m2 m3 out,
    blur_power (Ptr 4 0) 1 (Ptr 0 0) 1 (Z.of_nat (length demo_run)) 2 1
      (Ptr 2 0) (Ptr 3 0)
      (Mem (heap demo_mem ++ [int_to_u8 <$> [0; 0; 0; 0; 0]]) []) = Some m1 ∧
    blur_power (Ptr 1 0) 2 (Ptr 4 0) 1 (Z.of_nat (length demo_run)) 2 2
      (Ptr 2 0) (Ptr 3 0) m1 = Some m2 ∧
    blur_power (Ptr 1 0) 2 (Ptr 0 0) 1 (Z.of_nat (length demo_run)) 2 (1 + 2)
      (Ptr 2 0) (Ptr 3 0)
      (Mem (heap demo_mem ++ [int_to_u8 <$> [0; 0; 0; 0; 0]]) []) = Some m3 ∧
    run m2 (Ptr 1 0) 2 (Z.of_nat (length demo_run)) = Some out ∧
    run m3 (Ptr 1 0) 2 (Z.of_nat (length demo_run)) = Some out.
Proof.
  apply blur_power_powers_add.
  - lia.
  - lia.
  - concrete_run_layout.
  - concrete_run_layout.
  - concrete_run_layout.
  - right. right. simpl. lia.
  - right. right. simpl. lia.
  - concrete_is_run.
Defined.

(** ** hblur and vblur *)

Section pass_frame.

Variables (m : mem) (dst : ptr) (da db : Z) (src : ptr) (sa sb : Z).
Variables (n len r p : Z) (t0 t1 : ptr) (sv : Z → Z → Z).

Hypothesis Hok : pass_ok r p len.
Hypothesis Hlen : 0 ≤ len.
Hypothesis Hn : 0 ≤ n.
Hypothesis Hdb : db ≠ 0.
Hypothesis Hsv : ∀ i k, 0 ≤ i < n → 0 ≤ k < len →
  load m (src +ₚ (i * sa + k * sb)) = Some (sv i k).
Hypothesis Hdstb : ∀ i k, 0 ≤ i < n → 0 ≤ k < len →
  in_bounds m (dst +ₚ (i * da + k * db)).
Hypothesis Hinj : ∀ i k i' k', 0 ≤ i < n → 0 ≤ k < len → 0 ≤ i' < n → 0 ≤ k' < len →
  i * da + k * db = i' * da + k' * db → i = i' ∧ k = k'.
Hypothesis Halias : blk dst ≠ blk src ∨ (dst = src ∧ da = sa ∧ db = sb).
Hypothesis Htt : blk t0 ≠ blk t1.
Hypothesis Ht0s : blk t0 ≠ blk src.
Hypothesis Ht1s : blk t1 ≠ blk src.
Hypothesis Ht0d : blk t0 ≠ blk dst.
Hypothesis Ht1d : blk t1 ≠ blk dst.
Hypothesis Ht0 : ∀ k, 0 ≤ k < len → in_bounds m (t0 +ₚ k * 1).
Hypothesis Ht1 : ∀ k, 0 ≤ k < len → in_bounds m (t1 +ₚ k * 1).

Lemma pass_frame :
  ∃ m', pass dst da db src sa sb n len r p t0 t1 m = Some m' ∧
        pass_state m dst da db src sa sb n len r p t0 t1 sv n m' ∧
        ∀ q, blk q ≠ blk t0 → blk q ≠ blk t1 →
             (∀ i k, 0 ≤ i < n → 0 ≤ k < len → q ≠ dst +ₚ (i * da + k * db)) →
             load m' q = load m q.
Proof.
  unfold pass.
  destruct (for_range_inv
              (λ i mc, pass_state m dst da db src sa sb n len r p t0 t1 sv i mc ∧
                       ∀ q, blk q ≠ blk t0 → blk q ≠ blk t1 →
                            (∀ i k, 0 ≤ i < n → 0 ≤ k < len →
                               q ≠ dst +ₚ (i * da + k * db)) →
                            load mc q = load m q) 0 n
              (λ i, blur_power (dst +ₚ i * da) db (src +ₚ i * sa) sb
                      len r p t0 t1) m) as (m' & Hm' & Hst & Hfr); [done| | |by eauto].
  - split; [|done].
    split; [done|]. split; [done|]. split; [intros; lia|]. split; [done|].
    unfold pass_cells. rewrite (seqZ_nil 0 0) by lia. by rewrite app_nil_r.
  - intros i mc Hi [Hst Hfr].
    destruct (pass_step m dst da db src sa sb n len r p t0 t1 sv) with (i := i) (mc := mc)
      as (m' & Hm' & Hst'); try done.
    exists m'. split; [done|]. split; [done|].
    destruct Hst as (Hshape & _ & _ & Htodo & _).
    assert (Z.of_nat (length (run_of sv len i)) = len) as Hl
      by (apply length_run_of; lia).
    destruct (blur_power_full mc (dst +ₚ i * da) db (src +ₚ i * sa) sb r p t0 t1
                (run_of sv len i)) as (m'' & Hm'' & _ & _ & Hframe & _).
    { rewrite Hl. split; [done|].
      split. { intros k Hk. rewrite padd_padd.
               eapply same_shape_in_bounds; [done|]. by apply Hdstb. }
      split. { intros k Hk. eapply same_shape_in_bounds; [done|]. by apply Ht0. }
      split. { intros k Hk. eapply same_shape_in_bounds; [done|]. by apply Ht1. }
      rewrite !blk_padd. repeat (split; [done|]).
      destruct Halias as [?|(-> & -> & ->)]; [by left|by right]. }
    { by rewrite Hl. }
    { apply is_run_run_of. intros k Hk. rewrite padd_padd. apply Htodo; lia. }
    rewrite Hl in Hm''. rewrite Hm' in Hm''. injection Hm'' as <-.
    intros q Hq0 Hq1 Hq. rewrite Hframe; [by apply Hfr|done|done|].
    intros k Hk. rewrite padd_padd. apply Hq; lia.
Qed.

End pass_frame.

Lemma hblur_frame m dst dls src sls w h r p t0 t1 :
  layout_ok m dst dls src sls w h t0 t1 → pass_ok r p w →
  ∃ m', hblur dst dls src sls w h r p t0 t1 m = Some m' ∧
        ∀ q, blk q ≠ blk t0 → blk q ≠ blk t1 →
             (∀ x y, 0 ≤ x < w → 0 ≤ y < h → q ≠ cell dst dls x y) →
             load m' q = load m q.
Proof.
  intros (Hsrc & Hdst & Ht0 & Ht1 & ? & ? & ? & ? & ? & Halias) Hok.
  rewrite hblur_pass. case_match; [by eauto|].
  assert (0 < w ≤ dls ∧ 0 < h) as Hwh by (destruct Hdst as (? & ? & _); lia).
  destruct (pass_frame m dst dls 1 src sls 1 h w r p t0 t1
              (λ y x, plane_of m src sls x y))
    as (m' & Hm' & _ & Hfr); try done; try lia.
  - intros y x Hy Hx. rewrite Z.mul_1_r. apply (plane_of_load m src sls x y).
    by eapply plane_fits_in_bounds.
  - intros y x Hy Hx. rewrite Z.mul_1_r. by eapply (plane_fits_in_bounds m dst dls).
  - intros y x y' x' Hy Hx Hy' Hx'. rewrite !Z.mul_1_r.
    apply (stride_inj dls w); [lia|done..].
  - destruct Halias as [?|[-> ->]]; [by left|by right].
  - intros k Hk. eapply temp_fits_in_bounds; [done|lia].
  - intros k Hk. eapply temp_fits_in_bounds; [done|lia].
  - exists m'. split; [done|]. intros q ? ? Hq. apply Hfr; [done..|].
    intros y x Hy Hx. rewrite Z.mul_1_r. by apply Hq.
Qed.

Lemma vblur_frame m dst dls src sls w h r p t0 t1 :
  layout_ok m dst dls src sls w h t0 t1 → pass_ok r p h →
  ∃ m', vblur dst dls src sls w h r p t0 t1 m = Some m' ∧
        ∀ q, blk q ≠ blk t0 → blk q ≠ blk t1 →
             (∀ x y, 0 ≤ x < w → 0 ≤ y < h → q ≠ cell dst dls x y) →
             load m' q = load m q.
Proof.
  intros (Hsrc & Hdst & Ht0 & Ht1 & ? & ? & ? & ? & ? & Halias) Hok.
  rewrite vblur_pass. case_match; [by eauto|].
  assert (0 < w ≤ dls ∧ 0 < h) as Hwh by (destruct Hdst as (? & ? & _); lia).
  destruct (pass_frame m dst 1 dls src 1 sls w h r p t0 t1
              (λ x y, plane_of m src sls x y))
    as (m' & Hm' & _ & Hfr); try done; try lia.
  - intros x y Hx Hy. rewrite Z.mul_1_r, Z.add_comm.
    apply (plane_of_load m src sls x y). by eapply plane_fits_in_bounds.
  - intros x y Hx Hy. rewrite Z.mul_1_r, Z.add_comm.
    by eapply (plane_fits_in_bounds m dst dls).
  - intros x y x' y' Hx Hy Hx' Hy'. rewrite !Z.mul_1_r. intros Heq.
    destruct (stride_inj dls w y x y' x') as [-> ->]; [lia|done|done|lia|done].
  - destruct Halias as [?|[-> ->]]; [by left|by right].
  - intros k Hk. eapply temp_fits_in_bounds; [done|lia].
  - intros k Hk. eapply temp_fits_in_bounds; [done|lia].
  - exists m'. split; [done|]. intros q ? ? Hq. apply Hfr; [done..|].
    intros x y Hx Hy. rewrite Z.mul_1_r, Z.add_comm. by apply Hq.
Qed.

(** X10.  When the radius or the power is 0, or both are positive and
    twice the radius is below the width, [hblur] blurs every row on its
    own: sample (x, y) of the destination becomes sample x of row y of the
    source put through [power] passes; the destination's line padding and
    every sample outside the destination and the scratch buffers keep their
    values. *)
Theorem hblur_blurs_each_row m dst dls src sls w h r p t0 t1 :
  layout_ok m dst dls src sls w h t0 t1 → pass_ok r p w →
  ∃ m', hblur dst dls src sls w h r p t0 t1 m = Some m' ∧
        (∀ x y, 0 ≤ x < w → 0 ≤ y < h →
           load m' (cell dst dls x y) =
           Some (rdz (bp_out r p (row (plane_of m src sls) w y)) x)) ∧
        (∀ q, blk q ≠ blk t0 → blk q ≠ blk t1 →
              (∀ x y, 0 ≤ x < w → 0 ≤ y < h → q ≠ cell dst dls x y) →
              load m' q = load m q).
Proof.
  intros Hlay Hok.
  destruct (hblur_spec m dst dls src sls w h r p t0 t1 Hlay Hok)
    as (m' & Hm' & _ & _ & Hout & _).
  destruct (hblur_frame m dst dls src sls w h r p t0 t1 Hlay Hok)
    as (m'' & Hm'' & Hfr).
  rewrite Hm' in Hm''. injection Hm'' as <-.
  exists m'. split; [done|]. split; [|done]. apply Hout.
Qed.

Lemma hblur_blurs_each_row_witness :
  ∃ m', hblur (Ptr 1 0) 4 (Ptr 0 0) 4 3 3 1 2 (Ptr 2 0) (Ptr 3 0) demo_plane_mem
        = Some m' ∧
        (∀ x y, 0 ≤ x < 3 → 0 ≤ y < 3 →
           load m' (cell (Ptr 1 0) 4 x y) =
           Some (rdz (bp_out 1 2 (row (plane_of demo_plane_mem (Ptr 0 0) 4) 3 y)) x)) ∧
        (∀ q, blk q ≠ blk (Ptr 2 0) → blk q ≠ blk (Ptr 3 0) →
              (∀ x y, 0 ≤ x < 3 → 0 ≤ y < 3 → q ≠ cell (Ptr 1 0) 4 x y) →
              load m' q = load demo_plane_mem q).
Proof.
  apply hblur_blurs_each_row.
  - concrete_layout_ok.
  - right. right. lia.
Defined.

(** X11.  When the radius or the power is 0, or both are positive and
    twice the radius is below the height, [vblur] blurs every column on its
    own, also when it works in place: sample (x, y) of the destination
    becomes sample y of column x of the source, as it was on entry, put
    through [power] passes; the line padding and every sample outside the
    destination and the scratch buffers keep their values. *)
Theorem vblur_blurs_each_column m dst dls src sls w h r p t0 t1 :
  layout_ok m dst dls src sls w h t0 t1 → pass_ok r p h →
  ∃ m', vblur dst dls src sls w h r p t0 t1 m = Some m' ∧
        (∀ x y, 0 ≤ x < w → 0 ≤ y < h →
           load m' (cell dst dls x y) =
           Some (rdz (bp_out r p (col (plane_of m src sls) h x)) y)) ∧
        (∀ q, blk q ≠ blk t0 → blk q ≠ blk t1 →
              (∀ x y, 0 ≤ x < w → 0 ≤ y < h → q ≠ cell dst dls x y) →
              load m' q = load m q).
Proof.
  intros Hlay Hok.
  destruct (vblur_spec m dst dls src sls w h r p t0 t1 Hlay Hok)
    as (m' & Hm' & _ & _ & Hout & _).
  destruct (vblur_frame m dst dls src sls w h r p t0 t1 Hlay Hok)
    as (m'' & Hm'' & Hfr).
  rewrite Hm' in Hm''. injection Hm'' as <-.
  exists m'. split; [done|]. split; [|done]. apply Hout.
Qed.

Lemma vblur_blurs_each_column_witness :
  ∃ m', vblur (Ptr 0 0) 4 (Ptr 0 0) 4 3 3 1 2 (Ptr 2 0) (Ptr 3 0) demo_plane_mem
        = Some m' ∧
        (∀ x y, 0 ≤ x < 3 → 0 ≤ y < 3 →
           load m' (cell (Ptr 0 0) 4 x y) =
           Some (rdz (bp_out 1 2 (col (plane_of demo_plane_mem (Ptr 0 0) 4) 3 x)) y)) ∧
        (∀ q, blk q ≠ blk (Ptr 2 0) → blk q ≠ blk (Ptr 3 0) →
              (∀ x y, 0 ≤ x < 3 → 0 ≤ y < 3 → q ≠ cell (Ptr 0 0) 4 x y) →
              load m' q = load demo_plane_mem q).
Proof.
  apply vblur_blurs_each_column.
  - concrete_layout_ok.
  - right. right. lia.
Defined.

(** X12.  Order of the stores.  Leaving aside the scratch buffers, [hblur]
    stores to each sample of the destination plane once, row by row, and
    [vblur] once, column by column; with radius 0 and the destination being
    the source, neither stores anything and the memory is returned as it
    was. *)
Theorem drivers_store_each_sample_once m dst dls src sls w h r p t0 t1 :
  layout_ok m dst dls src sls w h t0 t1 → pass_ok r p w → pass_ok r p h →
  ∃ mh mv,
    hblur dst dls src sls w h r p t0 t1 m = Some mh ∧
    vblur dst dls src sls w h r p t0 t1 m = Some mv ∧
    (r = 0 ∧ dst = src → mh = m ∧ mv = m) ∧
    (¬ (r = 0 ∧ dst = src) →
       user_trace t0 t1 mh = user_trace t0 t1 m ++ hblur_cells dst dls w h ∧
       user_trace t0 t1 mv = user_trace t0 t1 m ++ vblur_cells dst dls w h).
Proof.
  intros Hlay Hokw Hokh.
  destruct (hblur_spec m dst dls src sls w h r p t0 t1 Hlay Hokw)
    as (mh & Hmh & _ & _ & _ & Hth).
  destruct (vblur_spec m dst dls src sls w h r p t0 t1 Hlay Hokh)
    as (mv & Hmv & _ & _ & _ & Htv).
  exists mh, mv. split; [done|]. split; [done|]. split.
  - intros [-> ->]. unfold hblur in Hmh. unfold vblur in Hmv.
    rewrite !bool_decide_eq_true_2 in Hmh, Hmv by done. simpl in Hmh, Hmv.
    by simplify_eq.
  - intros Hne.
    assert (bool_decide (r = 0) && bool_decide (dst = src) = false) as Hb.
    { apply andb_false_iff.
      destruct (decide (r = 0)); [right|left]; apply bool_decide_eq_false_2; tauto. }
    rewrite Hb in Hth, Htv. done.
Qed.

Lemma drivers_store_each_sample_once_witness :
  ∃ mh mv,
    hblur (Ptr 1 0) 4 (Ptr 0 0) 4 3 3 1 2 (Ptr 2 0) (Ptr 3 0) demo_plane_mem = Some mh ∧
    vblur (Ptr 1 0) 4 (Ptr 0 0) 4 3 3 1 2 (Ptr 2 0) (Ptr 3 0) demo_plane_mem = Some mv ∧
    (1 = 0 ∧ Ptr 1 0 = Ptr 0 0 → mh = demo_plane_mem ∧ mv = demo_plane_mem) ∧
    (¬ (1 = 0 ∧ Ptr 1 0 = Ptr 0 0) →
       user_trace (Ptr 2 0) (Ptr 3 0) mh =
       user_trace (Ptr 2 0) (Ptr 3 0) demo_plane_mem ++ hblur_cells (Ptr 1 0) 4 3 3 ∧
       user_trace (Ptr 2 0) (Ptr 3 0) mv =
       user_trace (Ptr 2 0) (Ptr 3 0) demo_plane_mem ++ vblur_cells (Ptr 1 0) 4 3 3).
Proof.
  apply drivers_store_each_sample_once.
  - concrete_layout_ok.
  - right. right. lia.
  - right. right. lia.
Defined.

(** ** Both passes over a plane *)

Lemma layout_ok_in_place m m1 out ols inp ils w h t0 t1 :
  same_shape m m1 → layout_ok m out ols inp ils w h t0 t1 →
  layout_ok m1 out ols out ols w h t0 t1.
Proof.
  intros Hs (? & ? & ? & ? & ? & ? & ? & ? & ? & ?).
  split; [by eapply plane_fits_shape|]. split; [by eapply plane_fits_shape|].
  split; [by eapply temp_fits_shape|]. split; [by eapply temp_fits_shape|].
  split; [done|]. split; [done|]. split; [done|]. split; [done|].
  split; [done|]. by right.
Qed.

Lemma plane_blur_full m out ols inp ils w h r p t0 t1 :
  layout_ok m out ols inp ils w h t0 t1 → blk out ≠ blk inp →
  pass_ok r p w → pass_ok r p h →
  ∃ m1 m2,
    hblur out ols inp ils w h r p t0 t1 m = Some m1 ∧
    vblur out ols out ols w h r p t0 t1 m1 = Some m2 ∧
    (∀ x y, 0 ≤ x < w → 0 ≤ y < h →
       load m2 (cell out ols x y) =
       Some (blur_plane r p w h (plane_of m inp ils) x y)) ∧
    (∀ q, blk q ≠ blk t0 → blk q ≠ blk t1 →
          (∀ x y, 0 ≤ x < w → 0 ≤ y < h → q ≠ cell out ols x y) →
          load m2 q = load m q).
Proof.
  intros Hlay Hblk Hokw Hokh.
  destruct (plane_blur_spec m out ols inp ils w h r p t0 t1)
    as (m1 & m2 & Hm1 & Hm2 & _ & _ & Hout & _); try done.
  destruct (hblur_spec m out ols inp ils w h r p t0 t1 Hlay Hokw)
    as (m1' & Hm1' & Hs1 & _).
  rewrite Hm1 in Hm1'. injection Hm1' as <-.
  destruct (hblur_frame m out ols inp ils w h r p t0 t1 Hlay Hokw)
    as (m1' & Hm1' & Hfr1).
  rewrite Hm1 in Hm1'. injection Hm1' as <-.
  destruct (vblur_frame m1 out ols out ols w h r p t0 t1) as (m2' & Hm2' & Hfr2);
    [by eapply layout_ok_in_place|done|].
  rewrite Hm2 in Hm2'. injection Hm2' as <-.
  exists m1, m2. split; [done|]. split; [done|]. split; [done|].
  intros q ? ? Hq. rewrite Hfr2, Hfr1 by done. done.
Qed.

Lemma row_mirror f pl pl' w y y' :
  (∀ x, 0 ≤ x < w → pl' x y = pl (mirror f w x) y') →
  row pl' w y = (if f then reverse (row pl w y') else row pl w y').
Proof.
  intros H. apply list_eq. intros i. unfold row.
  destruct (decide (Z.of_nat i < w)) as [Hi|Hi].
  - rewrite list_lookup_fmap, lookup_seqZ_lt by lia. simpl.
    rewrite Z.add_0_l, H by lia. destruct f; simpl.
    + rewrite reverse_lookup by (rewrite length_fmap, length_seqZ; lia).
      rewrite list_lookup_fmap, length_fmap, length_seqZ.
      rewrite lookup_seqZ_lt by lia. simpl. do 2 f_equal. lia.
    + rewrite list_lookup_fmap, lookup_seqZ_lt by lia. simpl.
      by rewrite Z.add_0_l.
  - rewrite lookup_ge_None_2 by (rewrite length_fmap, length_seqZ; lia).
    symmetry. destruct f; apply lookup_ge_None_2;
      rewrite ?length_reverse, length_fmap, length_seqZ; lia.
Qed.

Lemma length_row pl w y : 0 ≤ w → Z.of_nat (length (row pl w y)) = w.
Proof. intros. unfold row. rewrite length_fmap, length_seqZ. lia. Qed.

Lemma rdz_bp_out_mirror (f : bool) r p l k :
  pass_ok r p (Z.of_nat (length l)) → 0 ≤ k < Z.of_nat (length l) →
  rdz (bp_out r p (if f then reverse l else l)) k =
  rdz (bp_out r p l) (mirror f (Z.of_nat (length l)) k).
Proof.
  intros Hok Hk. destruct f; [|done]. unfold mirror.
  destruct (decide (r = 0 ∨ p = 0)) as [Hid|Hid].
  - rewrite !bp_out_id by done. by apply rdz_reverse.
  - rewrite bp_out_reverse by (unfold pass_ok in Hok; lia).
    rewrite rdz_reverse by (by rewrite length_bp_out).
    by rewrite length_bp_out.
Qed.

Lemma hblur_plane_mirror f r p w pl pl' x y y' :
  pass_ok r p w →
  (∀ x, 0 ≤ x < w → pl' x y = pl (mirror f w x) y') →
  0 ≤ x < w →
  hblur_plane r p w pl' x y = hblur_plane r p w pl (mirror f w x) y'.
Proof.
  intros Hok H Hx. unfold hblur_plane. rewrite (row_mirror f pl pl' w y y' H).
  pose proof (length_row pl w y' ltac:(lia)) as Hl.
  rewrite rdz_bp_out_mirror by (by rewrite Hl). by rewrite Hl.
Qed.

Lemma vblur_plane_mirror f r p h pl pl' x x' y :
  pass_ok r p h →
  (∀ y, 0 ≤ y < h → pl' x y = pl x' (mirror f h y)) →
  0 ≤ y < h →
  vblur_plane r p h pl' x y = vblur_plane r p h pl x' (mirror f h y).
Proof.
  intros Hok H Hy.
  apply (hblur_plane_mirror f r p h (λ y x, pl x y) (λ y x, pl' x y) y x x');
    done.
Qed.

Lemma blur_plane_mirror fx fy r p w h pl pl' x y :
  pass_ok r p w → pass_ok r p h →
  (∀ x y, 0 ≤ x < w → 0 ≤ y < h → pl' x y = pl (mirror fx w x) (mirror fy h y)) →
  0 ≤ x < w → 0 ≤ y < h →
  blur_plane r p w h pl' x y = blur_plane r p w h pl (mirror fx w x) (mirror fy h y).
Proof.
  intros Hokw Hokh H Hx Hy. unfold blur_plane.
  apply vblur_plane_mirror; [done| |done].
  intros y' Hy'. apply hblur_plane_mirror; [done| |done].
  intros x' Hx'. by apply H.
Qed.

Lemma mirror_range f n x : 0 ≤ x < n → 0 ≤ mirror f n x < n.
Proof. unfold mirror. destruct f; lia. Qed.

Lemma iter_blur_const n r v :
  0 ≤ r ≤ 152 → is_byte v → Nat.iter n (blur_const r) v = v.
Proof.
  intros Hr Hv. induction n as [|n IH]; [done|]. simpl. rewrite IH.
  by apply blur_const_exact.
Qed.

Lemma bp_out_flat r p n v :
  0 ≤ r ≤ 152 → is_byte v → pass_ok r p (Z.of_nat n) →
  bp_out r p (replicate n v) = replicate n v.
Proof.
  intros Hr Hv Hok. destruct (decide (r = 0 ∨ p = 0)) as [Hid|Hid].
  - by apply bp_out_id.
  - rewrite bp_out_replicate by (unfold pass_ok in Hok; lia).
    case_match; [|done]. by rewrite iter_blur_const.
Qed.

Lemma row_flat pl w y v :
  0 ≤ w → (∀ x, 0 ≤ x < w → pl x y = v) → row pl w y = replicate (Z.to_nat w) v.
Proof.
  intros Hw H. apply list_eq. intros i. unfold row.
  destruct (decide (Z.of_nat i < w)) as [Hi|Hi].
  - rewrite list_lookup_fmap, lookup_seqZ_lt by lia. simpl.
    rewrite lookup_replicate_2 by lia. f_equal. apply H. lia.
  - rewrite lookup_ge_None_2 by (rewrite length_fmap, length_seqZ; lia).
    symmetry. apply lookup_ge_None_2. rewrite length_replicate. lia.
Qed.

Lemma hblur_plane_flat r p w pl x y v :
  0 ≤ r ≤ 152 → is_byte v → pass_ok r p w →
  (∀ x, 0 ≤ x < w → pl x y = v) → 0 ≤ x < w →
  hblur_plane r p w pl x y = v.
Proof.
  intros Hr Hv Hok H Hx. unfold hblur_plane.
  rewrite (row_flat pl w y v) by (done || lia).
  rewrite bp_out_flat by (done || by rewrite Z2Nat.id by lia).
  apply rdz_replicate. lia.
Qed.

Lemma blur_plane_flat r p w h pl x y v :
  0 ≤ r ≤ 152 → is_byte v → pass_ok r p w → pass_ok r p h →
  (∀ x y, 0 ≤ x < w → 0 ≤ y < h → pl x y = v) → 0 ≤ x < w → 0 ≤ y < h →
  blur_plane r p w h pl x y = v.
Proof.
  intros Hr Hv Hokw Hokh H Hx Hy. unfold blur_plane.
  apply (hblur_plane_flat r p h (λ y x, hblur_plane r p w pl x y) y x v);
    try done.
  intros y' Hy'. apply hblur_plane_flat; try done. intros x' Hx'. by apply H.
Qed.

(** X13.  When the radius or the power is 0, or both are positive and
    twice the radius is below the width and below the height, the two
    passes that [filter_frame] runs over a plane, [hblur] from the input
    plane and then [vblur] in place on the output plane, leave in the
    output plane the column blur of the row blur of the input plane, and
    change nothing else outside the scratch buffers: the input plane, the
    output plane's line padding and all other samples keep their values. *)
Theorem both_passes_blur_rows_then_columns m out ols inp ils w h r p t0 t1 :
  layout_ok m out ols inp ils w h t0 t1 → blk out ≠ blk inp →
  pass_ok r p w → pass_ok r p h →
  ∃ m1 m2,
    hblur out ols inp ils w h r p t0 t1 m = Some m1 ∧
    vblur out ols out ols w h r p t0 t1 m1 = Some m2 ∧
    (∀ x y, 0 ≤ x < w → 0 ≤ y < h →
       load m2 (cell out ols x y) =
       Some (vblur_plane r p h (hblur_plane r p w (plane_of m inp ils)) x y)) ∧
    (∀ q, blk q ≠ blk t0 → blk q ≠ blk t1 →
          (∀ x y, 0 ≤ x < w → 0 ≤ y < h → q ≠ cell out ols x y) →
          load m2 q = load m q).
Proof. apply plane_blur_full. Qed.

Lemma both_passes_blur_rows_then_columns_witness :
  ∃ m1 m2,
    hblur (Ptr 1 0) 4 (Ptr 0 0) 4 3 3 1 2 (Ptr 2 0) (Ptr 3 0) demo_plane_mem = Some m1 ∧
    vblur (Ptr 1 0) 4 (Ptr 1 0) 4 3 3 1 2 (Ptr 2 0) (Ptr 3 0) m1 = Some m2 ∧
    (∀ x y, 0 ≤ x < 3 → 0 ≤ y < 3 →
       load m2 (cell (Ptr 1 0) 4 x y) =
       Some (vblur_plane 1 2 3
               (hblur_plane 1 2 3 (plane_of demo_plane_mem (Ptr 0 0) 4)) x y)) ∧
    (∀ q, blk q ≠ blk (Ptr 2 0) → blk q ≠ blk (Ptr 3 0) →
          (∀ x y, 0 ≤ x < 3 → 0 ≤ y < 3 → q ≠ cell (Ptr 1 0) 4 x y) →
          load m2 q = load demo_plane_mem q).
Proof.
  apply both_passes_blur_rows_then_columns.
  - concrete_layout_ok.
  - simpl. lia.
  - right. right. lia.
  - right. right. lia.
Defined.

(** X14.  Working in place does not change the result: [hblur] and
    [vblur] from a plane onto itself leave in it, sample for sample, what
    they leave in a destination plane of another buffer. *)
Theorem drivers_in_place_as_out_of_place m dst dls src sls w h r p t0 t1 :
  layout_ok m dst dls src sls w h t0 t1 →
  pass_ok r p w → pass_ok r p h →
  ∃ mh mh' mv mv',
    hblur dst dls src sls w h r p t0 t1 m = Some mh ∧
    hblur src sls src sls w h r p t0 t1 m = Some mh' ∧
    vblur dst dls src sls w h r p t0 t1 m = Some mv ∧
    vblur src sls src sls w h r p t0 t1 m = Some mv' ∧
    ∀ x y, 0 ≤ x < w → 0 ≤ y < h →
      load mh' (cell src sls x y) = load mh (cell dst dls x y) ∧
      load mv' (cell src sls x y) = load mv (cell dst dls x y).
Proof.
  intros Hlay Hokw Hokh.
  assert (layout_ok m src sls src sls w h t0 t1) as Hlay'.
  { destruct Hlay as (? & ? & ? & ? & ? & ? & ? & ? & ? & ?).
    repeat (split; [done|]). by right. }
  destruct (hblur_spec m dst dls src sls w h r p t0 t1 Hlay Hokw)
    as (mh & Hmh & _ & _ & Hh & _).
  destruct (hblur_spec m src sls src sls w h r p t0 t1 Hlay' Hokw)
    as (mh' & Hmh' & _ & _ & Hh' & _).
  destruct (vblur_spec m dst dls src sls w h r p t0 t1 Hlay Hokh)
    as (mv & Hmv & _ & _ & Hv & _).
  destruct (vblur_spec m src sls src sls w h r p t0 t1 Hlay' Hokh)
    as (mv' & Hmv' & _ & _ & Hv' & _).
  exists mh, mh', mv, mv'. repeat (split; [done|]).
  intros x y Hx Hy. by rewrite Hh, Hh', Hv, Hv'.
Qed.

Lemma drivers_in_place_as_out_of_place_witness :
  ∃ mh mh' mv mv',
    hblur (Ptr 1 0) 4 (Ptr 0 0) 4 3 3 1 2 (Ptr 2 0) (Ptr 3 0) demo_plane_mem = Some mh ∧
    hblur (Ptr 0 0) 4 (Ptr 0 0) 4 3 3 1 2 (Ptr 2 0) (Ptr 3 0) demo_plane_mem = Some mh' ∧
    vblur (Ptr 1 0) 4 (Ptr 0 0) 4 3 3 1 2 (Ptr 2 0) (Ptr 3 0) demo_plane_mem = Some mv ∧
    vblur (Ptr 0 0) 4 (Ptr 0 0) 4 3 3 1 2 (Ptr 2 0) (Ptr 3 0) demo_plane_mem = Some mv' ∧
    ∀ x y, 0 ≤ x < 3 → 0 ≤ y < 3 →
      load mh' (cell (Ptr 0 0) 4 x y) = load mh (cell (Ptr 1 0) 4 x y) ∧
      load mv' (cell (Ptr 0 0) 4 x y) = load mv (cell (Ptr 1 0) 4 x y).
Proof.
  apply drivers_in_place_as_out_of_place.
  - concrete_layout_ok.
  - right. right. lia.
  - right. right. lia.
Defined.

(** X15.  Mirror symmetry of the plane blur, when the radius or the power
    is 0, or both are positive and twice the radius is below the width and
    below the height.  If one input plane is the other read right to left,
    or bottom to top, or both, then after both passes the output planes are
    related in the same way. *)
Theorem both_passes_commute_with_mirroring
    fx fy m mm out ols inp ils w h r p t0 t1 :
  layout_ok m out ols inp ils w h t0 t1 →
  layout_ok mm out ols inp ils w h t0 t1 →
  blk out ≠ blk inp →
  pass_ok r p w → pass_ok r p h →
  (∀ x y, 0 ≤ x < w → 0 ≤ y < h →
     load mm (cell inp ils x y) =
     load m (cell inp ils (mirror fx w x) (mirror fy h y))) →
  ∃ m1 m2 mm1 mm2,
    hblur out ols inp ils w h r p t0 t1 m = Some m1 ∧
    vblur out ols out ols w h r p t0 t1 m1 = Some m2 ∧
    hblur out ols inp ils w h r p t0 t1 mm = Some mm1 ∧
    vblur out ols out ols w h r p t0 t1 mm1 = Some mm2 ∧
    ∀ x y, 0 ≤ x < w → 0 ≤ y < h →
      load mm2 (cell out ols x y) =
      load m2 (cell out ols (mirror fx w x) (mirror fy h y)).
Proof.
  intros Hlay Hlay' Hblk Hokw Hokh Hmir.
  destruct (plane_blur_full m out ols inp ils w h r p t0 t1)
    as (m1 & m2 & Hm1 & Hm2 & Hout & _); try done.
  destruct (plane_blur_full mm out ols inp ils w h r p t0 t1)
    as (mm1 & mm2 & Hmm1 & Hmm2 & Hout' & _); try done.
  exists m1, m2, mm1, mm2. repeat (split; [done|]).
  intros x y Hx Hy.
  rewrite Hout', Hout by (done || by apply mirror_range). f_equal.
  apply blur_plane_mirror; try done.
  intros x' y' Hx' Hy'. unfold plane_of. by rewrite Hmir.
Qed.

Lemma both_passes_commute_with_mirroring_witness :
  ∃ m1 m2 mm1 mm2,
    hblur (Ptr 1 0) 4 (Ptr 0 0) 4 3 3 1 2 (Ptr 2 0) (Ptr 3 0) demo_plane_mem = Some m1 ∧
    vblur (Ptr 1 0) 4 (Ptr 1 0) 4 3 3 1 2 (Ptr 2 0) (Ptr 3 0) m1 = Some m2 ∧
    hblur (Ptr 1 0) 4 (Ptr 0 0) 4 3 3 1 2 (Ptr 2 0) (Ptr 3 0) demo_plane_mirrored
      = Some mm1 ∧
    vblur (Ptr 1 0) 4 (Ptr 1 0) 4 3 3 1 2 (Ptr 2 0) (Ptr 3 0) mm1 = Some mm2 ∧
    ∀ x y, 0 ≤ x < 3 → 0 ≤ y < 3 →
      load mm2 (cell (Ptr 1 0) 4 x y) =
      load m2 (cell (Ptr 1 0) 4 (mirror true 3 x) (mirror false 3 y)).
Proof.
  apply both_passes_commute_with_mirroring.
  - concrete_layout_ok.
  - concrete_layout_ok.
  - simpl. lia.
  - right. right. lia.
  - right. right. lia.
  - intros x y Hx Hy.
    assert (x = 0 ∨ x = 1 ∨ x = 2) as [->|[->| ->]] by lia;
      (assert (y = 0 ∨ y = 1 ∨ y = 2) as [->|[->| ->]] by lia); reflexivity.
Defined.

(** X16.  A plane of equal samples comes out unchanged for every radius up
    to 152 and every power, provided twice the radius is below the plane's
    width and height (or the radius or the power is 0). *)
Theorem both_passes_keep_a_flat_plane m out ols inp ils w h r p t0 t1 v :
  layout_ok m out ols inp ils w h t0 t1 → blk out ≠ blk inp →
  pass_ok r p w → pass_ok r p h → 0 ≤ r ≤ 152 →
  (∀ x y, 0 ≤ x < w → 0 ≤ y < h → load m (cell inp ils x y) = Some v) →
  ∃ m1 m2,
    hblur out ols inp ils w h r p t0 t1 m = Some m1 ∧
    vblur out ols out ols w h r p t0 t1 m1 = Some m2 ∧
    ∀ x y, 0 ≤ x < w → 0 ≤ y < h → load m2 (cell out ols x y) = Some v.
Proof.
  intros Hlay Hblk Hokw Hokh Hr Hflat.
  destruct (plane_blur_full m out ols inp ils w h r p t0 t1)
    as (m1 & m2 & Hm1 & Hm2 & Hout & _); try done.
  exists m1, m2. repeat (split; [done|]).
  intros x y Hx Hy. rewrite Hout by done. f_equal.
  apply blur_plane_flat; try done.
  - apply (load_range m (cell inp ils x y)). by apply Hflat.
  - intros x' y' Hx' Hy'. unfold plane_of. by rewrite Hflat.
Qed.

Lemma both_passes_keep_a_flat_plane_witness :
  ∃ m1 m2,
    hblur (Ptr 1 0) 4 (Ptr 0 0) 4 3 3 1 2 (Ptr 2 0) (Ptr 3 0) demo_plane_flat = Some m1 ∧
    vblur (Ptr 1 0) 4 (Ptr 1 0) 4 3 3 1 2 (Ptr 2 0) (Ptr 3 0) m1 = Some m2 ∧
    ∀ x y, 0 ≤ x < 3 → 0 ≤ y < 3 → load m2 (cell (Ptr 1 0) 4 x y) = Some 200.
Proof.
  apply both_passes_keep_a_flat_plane.
  - concrete_layout_ok.
  - simpl. lia.
  - right. right. lia.
  - right. right. lia.
  - lia.
  - intros x y Hx Hy.
    assert (x = 0 ∨ x = 1 ∨ x = 2) as [->|[->| ->]] by lia;
      (assert (y = 0 ∨ y = 1 ∨ y = 2) as [->|[->| ->]] by lia); reflexivity.
Defined.

(** ** init *)

(** X17.  What [init] returns: [AVERROR(EINVAL)] exactly when the luma
    radius expression is not set; otherwise [AVERROR(ENOMEM)] exactly when
    the chroma expression is missing and its [av_strdup] call fails, or
    that did not happen and the alpha expression is missing and its
    [av_strdup] call fails; otherwise 0.  When [init] fails on the alpha
    copy, the chroma parameters are already filled in: the chroma
    expression is set and a negative chroma power has been replaced by the
    luma power. *)
Theorem init_status dup b :
  (init dup b).1.1 =
    match FilterParam.radius_expr (luma_param b) with
    | None => AVERROR EINVAL
    | Some e =>
      if decide (FilterParam.radius_expr (chroma_param b) = None ∧
                 dup chroma e = None)
      then AVERROR ENOMEM
      else if decide (FilterParam.radius_expr (alpha_param b) = None ∧
                      dup alpha e = None)
      then AVERROR ENOMEM
      else 0
    end ∧
  ∀ e, FilterParam.radius_expr (luma_param b) = Some e →
       ¬ (FilterParam.radius_expr (chroma_param b) = None ∧ dup chroma e = None) →
       FilterParam.radius_expr (alpha_param b) = None → dup alpha e = None →
       (init dup b).1.1 = AVERROR ENOMEM ∧
       FilterParam.radius_expr (chroma_param (init dup b).1.2) =
         Some (default (default e (dup chroma e))
                 (FilterParam.radius_expr (chroma_param b))) ∧
       FilterParam.power (chroma_param (init dup b).1.2) =
         (if decide (FilterParam.power (chroma_param b) < 0)
          then FilterParam.power (luma_param b)
          else FilterParam.power (chroma_param b)).
Proof.
  unfold init. destruct b as [[lr lp le] [cr cp ce] [ar ap ae] hs vs rs ps ts]. simpl.
  split.
  - destruct le as [le|]; [|done].
    destruct ce as [ce|], ae as [ae|], (dup chroma le) as [d|],
      (dup alpha le) as [d'|]; simpl;
      repeat case_decide; simpl; try done; try tauto; naive_solver.
  - intros e -> Hc -> Ha. rewrite Ha.
    destruct ce as [ce|], (dup chroma e) as [d|]; simpl;
      repeat case_decide; simpl; try done; try lia; try tauto.
Qed.

Lemma init_status_witness :
  (init demo_strdup demo_options_no_alpha).1.1 = AVERROR ENOMEM ∧
  FilterParam.radius_expr (chroma_param (init demo_strdup demo_options_no_alpha).1.2) =
    Some (default (default "2"%string (demo_strdup chroma "2"))
            (FilterParam.radius_expr (chroma_param demo_options_no_alpha))) ∧
  FilterParam.power (chroma_param (init demo_strdup demo_options_no_alpha).1.2) =
    (if decide (FilterParam.power (chroma_param demo_options_no_alpha) < 0)
     then FilterParam.power (luma_param demo_options_no_alpha)
     else FilterParam.power (chroma_param demo_options_no_alpha)).
Proof.
  apply (proj2 (init_status demo_strdup demo_options_no_alpha) "2"%string).
  - reflexivity.
  - intros [_ ?]. done.
  - reflexivity.
  - reflexivity.
Defined.

(** X18.  When [init] returns 0 it has logged nothing and every component
    has a radius expression: its own if it had one, else the copy of the
    luma expression; a negative chroma or alpha power has been replaced by
    the luma power, and every other power is kept. *)
Theorem init_fills_missing_params dup b b' log :
  init dup b = (0, b', log) →
  log = [] ∧
  ∃ e, FilterParam.radius_expr (luma_param b) = Some e ∧
  ∀ comp,
    FilterParam.radius_expr (param comp b') =
      Some (default (default e (dup comp e))
              (FilterParam.radius_expr (param comp b))) ∧
    FilterParam.power (param comp b') =
      match comp with
      | luma => FilterParam.power (luma_param b)
      | _ => if decide (FilterParam.power (param comp b) < 0)
             then FilterParam.power (luma_param b)
             else FilterParam.power (param comp b)
      end.
Proof.
  unfold init. destruct b as [[lr lp le] [cr cp ce] [ar ap ae] hs vs rs ps ts]. simpl.
  destruct le as [le|]; [|done].
  destruct ce as [ce|], ae as [ae|], (dup chroma le) as [d|] eqn:Hd,
    (dup alpha le) as [d'|] eqn:Hd'; simpl;
    repeat case_decide; simpl; intros ?; simplify_eq; (split; [done|]);
    exists le; (split; [done|]); intros []; simpl; rewrite ?Hd, ?Hd'; simpl in *;
    repeat case_decide; try done; try lia; try tauto.
Qed.

Lemma init_fills_missing_params_witness :
  (init (λ _, Some) demo_options).2 = [] ∧
  ∃ e, FilterParam.radius_expr (luma_param demo_options) = Some e ∧
  ∀ comp,
    FilterParam.radius_expr (param comp (init (λ _, Some) demo_options).1.2) =
      Some (default (default e (Some e))
              (FilterParam.radius_expr (param comp demo_options))) ∧
    FilterParam.power (param comp (init (λ _, Some) demo_options).1.2) =
      match comp with
      | luma => FilterParam.power (luma_param demo_options)
      | _ => if decide (FilterParam.power (param comp demo_options) < 0)
             then FilterParam.power (luma_param demo_options)
             else FilterParam.power (param comp demo_options)
      end.
Proof.
  apply (init_fills_missing_params (λ _, Some) demo_options
           (init (λ _, Some) demo_options).1.2 (init (λ _, Some) demo_options).2).
  reflexivity.
Defined.

(** X19.  Whatever it returns, [init] leaves alone the luma parameters,
    the radius of every component, the chroma shifts, the per-plane radius
    and power arrays and the scratch pointers; and when it returns
    [AVERROR(EINVAL)] the whole context is as it was. *)
Theorem init_changes_only_chroma_and_alpha dup b :
  luma_param (init dup b).1.2 = luma_param b ∧
  (∀ comp, FilterParam.radius (param comp (init dup b).1.2) =
           FilterParam.radius (param comp b)) ∧
  hsub (init dup b).1.2 = hsub b ∧ vsub (init dup b).1.2 = vsub b ∧
  radius (init dup b).1.2 = radius b ∧ power (init dup b).1.2 = power b ∧
  temp (init dup b).1.2 = temp b ∧
  ((init dup b).1.1 = AVERROR EINVAL → (init dup b).1.2 = b).
Proof.
  unfold init. destruct b as [[lr lp le] [cr cp ce] [ar ap ae] hs vs rs ps ts]. simpl.
  destruct le as [le|]; [|by repeat split].
  destruct ce as [ce|], ae as [ae|], (dup chroma le) as [d|],
    (dup alpha le) as [d'|]; simpl;
    repeat case_decide; simpl; repeat split; try done;
    by intros [].
Qed.

(** X20.  [init] is idempotent: run again on a context it has returned 0
    for, it returns 0, changes nothing, and does not depend on what
    [av_strdup] would return. *)
Theorem init_twice dup dup' b b' log :
  init dup b = (0, b', log) → init dup' b' = (0, b', []).
Proof.
  unfold init. destruct b as [[lr lp le] [cr cp ce] [ar ap ae] hs vs rs ps ts]. simpl.
  destruct le as [le|]; [|done].
  destruct ce as [ce|], ae as [ae|], (dup chroma le) as [d|],
    (dup alpha le) as [d'|]; simpl;
    repeat case_decide; simpl; intros ?; simplify_eq; simpl;
    repeat case_decide; simpl in *; try done; try lia.
Qed.

Lemma init_twice_witness :
  init (λ _ _, None) (init (λ _, Some) demo_options).1.2 =
  (0, (init (λ _, Some) demo_options).1.2, []).
Proof.
  apply (init_twice (λ _, Some) (λ _ _, None) demo_options _
           (init (λ _, Some) demo_options).2).
  reflexivity.
Defined.

(** ** config_input *)

Local Opaque mul32 div32 FFMIN sar32 shl32 AVERROR.

Lemma config_input_cases eval m0 m1 lcw lch w h b st b' log :
  config_input eval m0 m1 lcw lch w h b = Some (st, b', log) →
  (∀ comp, FilterParam.power (param comp b') = FilterParam.power (param comp b) ∧
           FilterParam.radius_expr (param comp b') =
           FilterParam.radius_expr (param comp b)) ∧
  ((st = AVERROR ENOMEM ∧ log = [] ∧ (m0 = None ∨ m1 = None) ∧
    b' = with_temp [m0; if m0 is None then temp b !!! 1%nat else m1] b) ∨
   (∃ t0 t1, m0 = Some t0 ∧ m1 = Some t1 ∧ temp b' = [Some t0; Some t1] ∧
      hsub b' = lcw ∧ vsub b' = lch ∧
      ((∃ comp e, st < 0 ∧ log = [EvalFailed comp e] ∧
          FilterParam.radius_expr (param comp b) = Some e ∧
          eval e (var_values_of lcw lch w h) =
            (st, FilterParam.radius (param comp b')) ∧
          radius b' = radius b ∧ power b' = power b) ∨
       ((∀ comp, ∃ e, FilterParam.radius_expr (param comp b) = Some e ∧
                      0 ≤ (eval e (var_values_of lcw lch w h)).1 ∧
                      FilterParam.radius (param comp b') =
                      (eval e (var_values_of lcw lch w h)).2) ∧
        ∃ msg, msg = Params (FilterParam.radius (luma_param b'))
                  (FilterParam.power (luma_param b'))
                  (FilterParam.radius (chroma_param b'))
                  (FilterParam.power (chroma_param b'))
                  (FilterParam.radius (alpha_param b'))
                  (FilterParam.power (alpha_param b'))
                  w (sar32 w lcw) h (sar32 h lch) ∧
        ((∃ comp, st = AVERROR EINVAL ∧
            log = [msg; InvalidRadius comp (FilterParam.radius (param comp b'))
                          (div32 (FFMIN (comp_w lcw w comp) (comp_h lch h comp)) 2)] ∧
            (FilterParam.radius (param comp b') < 0 ∨
             mul32 2 (FilterParam.radius (param comp b')) >
             FFMIN (comp_w lcw w comp) (comp_h lch h comp)) ∧
            radius b' = radius b ∧ power b' = power b) ∨
         (st = 0 ∧ log = [msg] ∧
          (∀ comp, 0 ≤ FilterParam.radius (param comp b') ∧
                   mul32 2 (FilterParam.radius (param comp b')) ≤
                   FFMIN (comp_w lcw w comp) (comp_h lch h comp)) ∧
          radius b' = [FilterParam.radius (luma_param b');
                       FilterParam.radius (chroma_param b');
                       FilterParam.radius (chroma_param b');
                       FilterParam.radius (alpha_param b')] ∧
          power b' = [FilterParam.power (luma_param b');
                      FilterParam.power (chroma_param b');
                      FilterParam.power (chroma_param b');
                      FilterParam.power (alpha_param b')])))))).
Proof.
  unfold config_input, var_values_of, EVAL_RADIUS_EXPR, CHECK_RADIUS_VAL.
  destruct b as [[lr lp le] [cr cp ce] [ar ap ae] hs vs rs ps ts].
  destruct m0 as [t0|]; last first.
  { simpl. intros ?; simplify_eq. split; [by intros []|]. left. tauto. }
  destruct m1 as [t1|]; last first.
  { simpl. intros ?; simplify_eq. split; [by intros []|]. left. tauto. }
  rewrite !decide_False by done. simpl.
  destruct le as [le|]; [|done]. simpl.
  destruct (eval le _) as [retl rl] eqn:Hl. case_decide.
  { intros ?; simplify_eq. split; [by intros []|]. right. exists t0, t1.
    do 5 (split; [done|]). left. exists luma, le. by rewrite Hl. }
  simpl. destruct ce as [ce|]; [|done]. simpl.
  destruct (eval ce _) as [retc rc] eqn:Hc. case_decide.
  { intros ?; simplify_eq. split; [by intros []|]. right. exists t0, t1.
    do 5 (split; [done|]). left. exists chroma, ce. by rewrite Hc. }
  simpl. destruct ae as [ae|]; [|done]. simpl.
  destruct (eval ae _) as [reta ra] eqn:Ha. case_decide.
  { intros ?; simplify_eq. split; [by intros []|]. right. exists t0, t1.
    do 5 (split; [done|]). left. exists alpha, ae. by rewrite Ha. }
  simpl.
  assert (∀ comp : component, ∃ e,
            FilterParam.radius_expr
              (param comp
                 {| luma_param := FilterParam.mk lr lp (Some le);
                    chroma_param := FilterParam.mk cr cp (Some ce);
                    alpha_param := FilterParam.mk ar ap (Some ae);
                    hsub := hs; vsub := vs; radius := rs; power := ps;
                    temp := ts |}) = Some e ∧
            0 ≤ (eval e [w; h; sar32 w lcw; sar32 h lch; shl32 1 lcw; shl32 1 lch]).1 ∧
            match comp with luma => rl | chroma => rc | alpha => ra end =
            (eval e [w; h; sar32 w lcw; sar32 h lch; shl32 1 lcw; shl32 1 lch]).2)
    as Hev.
  { intros []; simpl; eexists; (split; [done|]).
    - rewrite Hl. simpl. lia.
    - rewrite Hc. simpl. lia.
    - rewrite Ha. simpl. lia. }
  case_decide.
  { intros ?; simplify_eq. split; [by intros []|]. right. exists t0, t1.
    do 5 (split; [done|]). right. split; [intros comp; destruct (Hev comp) as (e & ? & ? & ?); exists e; by destruct comp|].
    eexists. split; [done|]. left. exists luma. done. }
  case_decide.
  { intros ?; simplify_eq. split; [by intros []|]. right. exists t0, t1.
    do 5 (split; [done|]). right. split; [intros comp; destruct (Hev comp) as (e & ? & ? & ?); exists e; by destruct comp|].
    eexists. split; [done|]. left. exists chroma. done. }
  case_decide.
  { intros ?; simplify_eq. split; [by intros []|]. right. exists t0, t1.
    do 5 (split; [done|]). right. split; [intros comp; destruct (Hev comp) as (e & ? & ? & ?); exists e; by destruct comp|].
    eexists. split; [done|]. left. exists alpha. done. }
  intros ?; simplify_eq. split; [by intros []|]. right. exists t0, t1.
  do 5 (split; [done|]). right. split; [intros comp; destruct (Hev comp) as (e & ? & ? & ?); exists e; by destruct comp|].
  eexists. split; [done|]. right. split; [done|]. split; [done|].
  split; [|done]. intros []; simpl; lia.
Qed.
Ltac config_step :=
  cbn [hsub vsub with_sub with_temp temp param set_param set_radius luma_param
       chroma_param alpha_param FilterParam.radius FilterParam.power
       FilterParam.radius_expr mbind option_bind radius power with_planes fst snd].


Lemma config_input_radius_fails eval t0 t1 lcw lch w h b comp R :
  (∀ c, ∃ e, FilterParam.radius_expr (param c b) = Some e ∧
             0 ≤ (eval e (var_values_of lcw lch w h)).1 ∧
             (eval e (var_values_of lcw lch w h)).2 = R c) →
  (∀ c, (comp_index c < comp_index comp)%nat →
        0 ≤ R c ∧ mul32 2 (R c) ≤ FFMIN (comp_w lcw w c) (comp_h lch h c)) →
  R comp < 0 ∨ mul32 2 (R comp) > FFMIN (comp_w lcw w comp) (comp_h lch h comp) →
  ∃ b', config_input eval (Some t0) (Some t1) lcw lch w h b =
          Some (AVERROR EINVAL, b',
                [Params (R luma) (FilterParam.power (luma_param b))
                        (R chroma) (FilterParam.power (chroma_param b))
                        (R alpha) (FilterParam.power (alpha_param b))
                        w (sar32 w lcw) h (sar32 h lch);
                 InvalidRadius comp (R comp)
                   (div32 (FFMIN (comp_w lcw w comp) (comp_h lch h comp)) 2)]) ∧
        radius b' = radius b ∧ power b' = power b.
Proof.
  intros Hall Hbefore Hbad.
  destruct (Hall luma) as (le & Hle & Hl1 & Hl2).
  destruct (Hall chroma) as (ce & Hce & Hc1 & Hc2).
  destruct (Hall alpha) as (ae & Hae & Ha1 & Ha2).
  revert Hl1 Hl2 Hc1 Hc2 Ha1 Ha2.
  unfold config_input, var_values_of, EVAL_RADIUS_EXPR, CHECK_RADIUS_VAL.
  destruct b as [[lr lp le'] [cr cp ce'] [ar ap ae'] hs vs rs ps ts].
  simpl in Hle, Hce, Hae. subst le' ce' ae'.
  rewrite !decide_False by done. config_step.
  destruct (eval le _) as [retl rl]. destruct (eval ce _) as [retc rc].
  destruct (eval ae _) as [reta ra]. config_step. intros ? -> ? -> ? ->.
  rewrite (decide_False (P := retl < 0)) by lia. config_step.
  rewrite (decide_False (P := retc < 0)) by lia. config_step.
  rewrite (decide_False (P := reta < 0)) by lia. config_step.
  unfold comp_w, comp_h in *.
  destruct comp.
  - rewrite decide_True by done. by eexists.
  - destruct (Hbefore luma) as [? ?]; [simpl; lia|].
    rewrite decide_False by lia. rewrite decide_True by done. by eexists.
  - destruct (Hbefore luma) as [? ?]; [simpl; lia|].
    destruct (Hbefore chroma) as [? ?]; [simpl; lia|].
    rewrite decide_False by lia. rewrite decide_False by lia.
    rewrite decide_True by done. by eexists.
Qed.

Local Transparent mul32 div32 FFMIN sar32 shl32 AVERROR.

Lemma config_input_ok_exists eval t0 t1 lcw lch w h b :
  (∀ comp, ∃ e, FilterParam.radius_expr (param comp b) = Some e ∧
                0 ≤ (eval e (var_values_of lcw lch w h)).1 ∧
                0 ≤ (eval e (var_values_of lcw lch w h)).2 < 2 ^ 30 ∧
                2 * (eval e (var_values_of lcw lch w h)).2 ≤ comp_w lcw w comp ∧
                2 * (eval e (var_values_of lcw lch w h)).2 ≤ comp_h lch h comp) →
  ∃ b' log, config_input eval (Some t0) (Some t1) lcw lch w h b = Some (0, b', log).
Proof.
  intros Hall.
  destruct (Hall luma) as (le & Hle & Hl1 & Hl2 & Hl3 & Hl4).
  destruct (Hall chroma) as (ce & Hce & Hc1 & Hc2 & Hc3 & Hc4).
  destruct (Hall alpha) as (ae & Hae & Ha1 & Ha2 & Ha3 & Ha4).
  assert (∀ r a c, 0 ≤ r < 2 ^ 30 → 2 * r ≤ a → 2 * r ≤ c →
                   ¬ (r < 0 ∨ mul32 2 r > FFMIN a c)) as Hchk.
  { intros r a c Hr ? ?. unfold mul32, FFMIN. rewrite wrap32_small by lia.
    case_decide; lia. }
  revert Hl1 Hl2 Hl3 Hl4 Hc1 Hc2 Hc3 Hc4 Ha1 Ha2 Ha3 Ha4.
  unfold config_input, var_values_of, EVAL_RADIUS_EXPR, CHECK_RADIUS_VAL, comp_w, comp_h.
  destruct b as [[lr lp le'] [cr cp ce'] [ar ap ae'] hs vs rs ps ts].
  simpl in Hle, Hce, Hae. subst le' ce' ae'.
  rewrite !decide_False by done.
  cbn [hsub vsub with_sub with_temp temp param set_param set_radius luma_param
       chroma_param alpha_param FilterParam.radius FilterParam.power
       FilterParam.radius_expr mbind option_bind].
  destruct (eval le _) as [retl rl]. destruct (eval ce _) as [retc rc].
  destruct (eval ae _) as [reta ra].
  cbn [fst snd]. intros.
  rewrite (decide_False (P := retl < 0)) by lia.
  cbn [hsub vsub with_sub with_temp temp param set_param set_radius luma_param
       chroma_param alpha_param FilterParam.radius FilterParam.power
       FilterParam.radius_expr mbind option_bind].
  rewrite (decide_False (P := retc < 0)) by lia.
  cbn [hsub vsub with_sub with_temp temp param set_param set_radius luma_param
       chroma_param alpha_param FilterParam.radius FilterParam.power
       FilterParam.radius_expr mbind option_bind].
  rewrite (decide_False (P := reta < 0)) by lia.
  cbn [hsub vsub with_sub with_temp temp param set_param set_radius luma_param
       chroma_param alpha_param FilterParam.radius FilterParam.power
       FilterParam.radius_expr mbind option_bind].
  rewrite !decide_False by (by apply Hchk).
  by eexists _, _.
Qed.


Lemma valid_radius_bounds r a c :
  0 ≤ r → mul32 2 r ≤ FFMIN a c → r < 2 ^ 30 → 2 * r ≤ a ∧ 2 * r ≤ c.
Proof.
  unfold mul32, FFMIN. intros Hr H Hlt. rewrite wrap32_small in H by lia.
  case_decide; lia.
Qed.

Lemma AVERROR_neg e : AVERROR e < 0.
Proof. by destruct e. Qed.

(** X21.  When [config_input] returns 0, both scratch buffers are
    allocated, the chroma shifts are those of the pixel format, each
    component's radius is what the evaluator gave for its expression with
    the values of w, h, cw, ch, hsub, vsub, and the per-plane arrays hold
    for planes 0 to 3 the radius and the power of luma, chroma, chroma and
    alpha. *)
Theorem config_input_sets_up_the_planes eval m0 m1 lcw lch w h b b' log :
  config_input eval m0 m1 lcw lch w h b = Some (0, b', log) →
  (∃ t0 t1, m0 = Some t0 ∧ m1 = Some t1 ∧ temp b' = [Some t0; Some t1]) ∧
  hsub b' = lcw ∧ vsub b' = lch ∧
  (∀ comp, ∃ e, FilterParam.radius_expr (param comp b) = Some e ∧
                0 ≤ (eval e (var_values_of lcw lch w h)).1 ∧
                FilterParam.radius (param comp b') =
                (eval e (var_values_of lcw lch w h)).2) ∧
  radius b' = (λ i, FilterParam.radius (param (plane_comp i) b')) <$> seq 0 4 ∧
  power b' = (λ i, FilterParam.power (param (plane_comp i) b)) <$> seq 0 4.
Proof.
  intros H. apply config_input_cases in H as [Hpar H].
  pose proof (AVERROR_neg ENOMEM). pose proof (AVERROR_neg EINVAL).
  destruct H as [(? & _)|(t0 & t1 & -> & -> & Ht & Hhs & Hvs & H)]; [lia|].
  destruct H as [(? & ? & ? & _)|(Hev & msg & _ & H)]; [lia|].
  destruct H as [(? & ? & _)|(_ & _ & _ & Hr & Hp)]; [lia|].
  split; [by exists t0, t1|]. do 3 (split; [done|]). split; [done|].
  rewrite Hp.
  destruct (Hpar luma) as [Hl _], (Hpar chroma) as [Hc _], (Hpar alpha) as [Ha _].
  simpl in *. by rewrite Hl, Hc, Ha.
Qed.

Lemma config_input_sets_up_the_planes_witness :
  ∃ b',
    config_input demo_eval (Some (Ptr 2 0)) (Some (Ptr 3 0)) 1 1 16 8 demo_context
    = Some (0, b', [Params 2 2 2 2 1 1 16 8 8 4]) ∧
    (∃ t0 t1, Some (Ptr 2 0) = Some t0 ∧ Some (Ptr 3 0) = Some t1 ∧
              temp b' = [Some t0; Some t1]) ∧
    hsub b' = 1 ∧ vsub b' = 1 ∧
    (∀ comp, ∃ e, FilterParam.radius_expr (param comp demo_context) = Some e ∧
                  0 ≤ (demo_eval e (var_values_of 1 1 16 8)).1 ∧
                  FilterParam.radius (param comp b') =
                  (demo_eval e (var_values_of 1 1 16 8)).2) ∧
    radius b' = (λ i, FilterParam.radius (param (plane_comp i) b')) <$> seq 0 4 ∧
    power b' = (λ i, FilterParam.power (param (plane_comp i) demo_context)) <$> seq 0 4.
Proof.
  eexists. split; [vm_compute; reflexivity|].
  apply (config_input_sets_up_the_planes demo_eval (Some (Ptr 2 0)) (Some (Ptr 3 0))
           1 1 16 8 demo_context _ [Params 2 2 2 2 1 1 16 8 8 4]).
  vm_compute. reflexivity.
Defined.

(** X22.  When [config_input] returns 0, every per-plane radius is
    non-negative and, if below 2^30, at most half the width and half the
    height of its plane (the chroma planes being the shifted ones). *)
Theorem config_input_accepts_only_checked_radii
    eval m0 m1 lcw lch w h b b' log plane r :
  config_input eval m0 m1 lcw lch w h b = Some (0, b', log) →
  radius b' !! plane = Some r →
  0 ≤ r ∧ (r < 2 ^ 30 → 2 * r ≤ plane_w lcw w plane ∧ 2 * r ≤ plane_h lch h plane).
Proof.
  intros H Hr. apply config_input_cases in H as [_ H].
  pose proof (AVERROR_neg ENOMEM). pose proof (AVERROR_neg EINVAL).
  destruct H as [(? & _)|(t0 & t1 & _ & _ & _ & _ & _ & H)]; [lia|].
  destruct H as [(? & ? & ? & _)|(_ & msg & _ & H)]; [lia|].
  destruct H as [(? & ? & _)|(_ & _ & Hchk & Hrs & _)]; [lia|].
  rewrite Hrs in Hr. unfold plane_w, plane_h.
  destruct plane as [|[|[|[|plane]]]]; simpl in Hr; simplify_eq.
  - destruct (Hchk luma) as [? ?]. split; [done|].
    rewrite !decide_False by lia. by apply valid_radius_bounds.
  - destruct (Hchk chroma) as [? ?]. split; [done|].
    rewrite !decide_True by lia. by apply valid_radius_bounds.
  - destruct (Hchk chroma) as [? ?]. split; [done|].
    rewrite !decide_True by lia. by apply valid_radius_bounds.
  - destruct (Hchk alpha) as [? ?]. split; [done|].
    rewrite !decide_False by lia. by apply valid_radius_bounds.
Qed.

Lemma config_input_accepts_only_checked_radii_witness :
  0 ≤ 2 ∧ (2 < 2 ^ 30 → 2 * 2 ≤ plane_w 1 16 1 ∧ 2 * 2 ≤ plane_h 1 8 1).
Proof.
  apply (config_input_accepts_only_checked_radii
           demo_eval (Some (Ptr 2 0)) (Some (Ptr 3 0)) 1 1 16 8 demo_context
           (with_planes [2; 2; 2; 1] [2; 2; 2; 1]
              (set_param alpha (FilterParam.mk 1 1 (Some "1"%string))
                 (set_param chroma (FilterParam.mk 2 2 (Some "2"%string))
                    (set_param luma (FilterParam.mk 2 2 (Some "2"%string))
                       (with_sub 1 1
                          (with_temp [Some (Ptr 2 0); Some (Ptr 3 0)]
                             demo_context))))))
           [Params 2 2 2 2 1 1 16 8 8 4] 1%nat 2).
  - vm_compute. reflexivity.
  - reflexivity.
Defined.

(** X23.  [config_input] never changes a power or a radius expression, and
    it writes the per-plane radius and power arrays only when it returns
    0: on every error they are as before. *)
Theorem config_input_failure_keeps_plane_arrays
    eval m0 m1 lcw lch w h b st b' log :
  config_input eval m0 m1 lcw lch w h b = Some (st, b', log) →
  (∀ comp, FilterParam.power (param comp b') = FilterParam.power (param comp b) ∧
           FilterParam.radius_expr (param comp b') =
           FilterParam.radius_expr (param comp b)) ∧
  (st ≠ 0 → radius b' = radius b ∧ power b' = power b).
Proof.
  intros H. apply config_input_cases in H as [Hpar H]. split; [done|]. intros Hst.
  destruct H as [(_ & _ & _ & ->)|(t0 & t1 & _ & _ & _ & _ & _ & H)]; [done|].
  destruct H as [(? & ? & _ & _ & _ & _ & ? & ?)|(_ & msg & _ & H)]; [done|].
  destruct H as [(? & _ & _ & _ & ? & ?)|(? & _)]; done.
Qed.

Lemma config_input_failure_keeps_plane_arrays_witness :
  ∃ b',
    config_input demo_eval (Some (Ptr 2 0)) (Some (Ptr 3 0)) 1 1 16 8
      (demo_context_with "9") =
    Some (AVERROR EINVAL, b',
          [Params 9 2 2 2 1 1 16 8 8 4; InvalidRadius luma 9 4]) ∧
    (∀ comp, FilterParam.power (param comp b') =
             FilterParam.power (param comp (demo_context_with "9")) ∧
             FilterParam.radius_expr (param comp b') =
             FilterParam.radius_expr (param comp (demo_context_with "9"))) ∧
    (AVERROR EINVAL ≠ 0 → radius b' = radius (demo_context_with "9") ∧
                          power b' = power (demo_context_with "9")).
Proof.
  eexists. split; [vm_compute; reflexivity|].
  apply (config_input_failure_keeps_plane_arrays
           demo_eval (Some (Ptr 2 0)) (Some (Ptr 3 0)) 1 1 16 8
           (demo_context_with "9") (AVERROR EINVAL) _
           [Params 9 2 2 2 1 1 16 8 8 4; InvalidRadius luma 9 4]).
  vm_compute. reflexivity.
Defined.



(** X25.  With both scratch buffers allocated: when all three expressions
    evaluate without error and a component's radius is negative, or its
    doubled radius, computed in [int], exceeds the smaller side of its
    plane, while the components before it (in the order luma, chroma,
    alpha) pass that check, [config_input] returns [AVERROR(EINVAL)].  It has logged first the
    parameters, with the evaluated radii, and then that component with its
    radius and half the smaller side of its plane as the bound; the
    per-plane arrays are untouched. *)
Theorem config_input_reports_the_invalid_radius
    eval t0 t1 lcw lch w h b comp R :
  (∀ c, ∃ e, FilterParam.radius_expr (param c b) = Some e ∧
             0 ≤ (eval e (var_values_of lcw lch w h)).1 ∧
             (eval e (var_values_of lcw lch w h)).2 = R c) →
  (∀ c, (comp_index c < comp_index comp)%nat →
        0 ≤ R c ∧ mul32 2 (R c) ≤ FFMIN (comp_w lcw w c) (comp_h lch h c)) →
  R comp < 0 ∨ mul32 2 (R comp) > FFMIN (comp_w lcw w comp) (comp_h lch h comp) →
  ∃ b', config_input eval (Some t0) (Some t1) lcw lch w h b =
          Some (AVERROR EINVAL, b',
                [Params (R luma) (FilterParam.power (luma_param b))
                        (R chroma) (FilterParam.power (chroma_param b))
                        (R alpha) (FilterParam.power (alpha_param b))
                        w (sar32 w lcw) h (sar32 h lch);
                 InvalidRadius comp (R comp)
                   (div32 (FFMIN (comp_w lcw w comp) (comp_h lch h comp)) 2)]) ∧
        radius b' = radius b ∧ power b' = power b.
Proof. apply config_input_radius_fails. Qed.

Lemma config_input_reports_the_invalid_radius_witness :
  ∃ b', config_input demo_eval (Some (Ptr 2 0)) (Some (Ptr 3 0)) 1 1 16 8
          (set_param chroma (FilterParam.mk 0 2 (Some "9"%string)) demo_context) =
          Some (AVERROR EINVAL, b',
                [Params 2 2 9 2 1 1 16 (sar32 16 1) 8 (sar32 8 1);
                 InvalidRadius chroma 9
                   (div32 (FFMIN (comp_w 1 16 chroma) (comp_h 1 8 chroma)) 2)]) ∧
        radius b' =
          radius (set_param chroma (FilterParam.mk 0 2 (Some "9"%string))
                    demo_context) ∧
        power b' =
          power (set_param chroma (FilterParam.mk 0 2 (Some "9"%string))
                   demo_context).
Proof.
  apply (config_input_reports_the_invalid_radius demo_eval (Ptr 2 0) (Ptr 3 0)
           1 1 16 8
           (set_param chroma (FilterParam.mk 0 2 (Some "9"%string)) demo_context)
           chroma (λ c, match c with luma => 2 | chroma => 9 | alpha => 1 end)).
  - intros []; eexists; (split; [reflexivity|]); vm_compute; split; congruence.
  - intros [] Hc; simpl in Hc; try lia. vm_compute. split; congruence.
  - right. vm_compute. reflexivity.
Defined.

(** X26.  When one of the two allocations fails, [config_input] returns
    [AVERROR(ENOMEM)] at once, whatever the expressions and the evaluator
    are: nothing is logged, and the context differs from the one on entry
    only in the scratch pointers, where the first holds what the first
    allocation returned and the second is written only if the first
    allocation succeeded. *)
Theorem config_input_allocation_failure eval m0 m1 lcw lch w h b :
  m0 = None ∨ m1 = None →
  config_input eval m0 m1 lcw lch w h b =
  Some (AVERROR ENOMEM,
        with_temp [m0; if m0 is None then temp b !!! 1%nat else m1] b, []).
Proof.
  intros Hm. unfold config_input.
  destruct m0 as [t0|]; [|done].
  destruct Hm as [?| ->]; [done|].
  rewrite decide_False by done. by rewrite decide_True.
Qed.

Lemma config_input_allocation_failure_witness :
  config_input demo_eval (Some (Ptr 2 0)) None 1 1 16 8 demo_context =
  Some (AVERROR ENOMEM, with_temp [Some (Ptr 2 0); None] demo_context, []).
Proof.
  apply (config_input_allocation_failure demo_eval (Some (Ptr 2 0)) None 1 1 16 8
           demo_context).
  by right.
Defined.

(** X27.  [config_input] succeeds whenever it can: with both buffers
    allocated, and every component's expression evaluating without error
    to a radius between 0 and 2^30 that is at most half the width and half
    the height of the component's plane, it returns 0. *)
Theorem config_input_accepts_valid_radii eval t0 t1 lcw lch w h b :
  (∀ comp, ∃ e, FilterParam.radius_expr (param comp b) = Some e ∧
                0 ≤ (eval e (var_values_of lcw lch w h)).1 ∧
                0 ≤ (eval e (var_values_of lcw lch w h)).2 < 2 ^ 30 ∧
                2 * (eval e (var_values_of lcw lch w h)).2 ≤ comp_w lcw w comp ∧
                2 * (eval e (var_values_of lcw lch w h)).2 ≤ comp_h lch h comp) →
  ∃ b' log, config_input eval (Some t0) (Some t1) lcw lch w h b = Some (0, b', log).
Proof. apply config_input_ok_exists. Qed.

Lemma config_input_accepts_valid_radii_witness :
  ∃ b' log,
    config_input demo_eval (Some (Ptr 2 0)) (Some (Ptr 3 0)) 1 1 16 8 demo_context
    = Some (0, b', log).
Proof.
  apply config_input_accepts_valid_radii.
  intros []; eexists; (split; [reflexivity|]); vm_compute; repeat split; congruence.
Defined.

(** ** filter_frame *)

Lemma leading_step l i p :
  (i ≤ leading l)%nat → l !! i = Some (Some p) → (S i ≤ leading l)%nat.
Proof.
  revert i. induction l as [|[q|] l IH]; intros i Hi Hl; [done| |].
  - destruct i as [|i]; simpl in *; [lia|]. apply le_n_S, IH; [lia|done].
  - simpl in Hi. assert (i = O) as -> by lia. done.
Qed.

Lemma leading_stop l i : l !! i = Some None → (leading l ≤ i)%nat.
Proof.
  revert i. induction l as [|[q|] l IH]; intros i Hl; simpl; [lia| |lia].
  destruct i as [|i]; [done|]. apply le_n_S, IH. done.
Qed.

Lemma leading_lookup l i : (i < leading l)%nat → ∃ p, l !! i = Some (Some p).
Proof.
  revert i. induction l as [|[q|] l IH]; intros i Hi; simpl in Hi; [lia| |lia].
  destruct i as [|i]; [by exists q|]. apply IH. lia.
Qed.

Lemma for_planes_run n i in_data body m :
  (4 < length in_data)%nat → (n + i = 5)%nat → (i ≤ 4)%nat → (i ≤ leading in_data)%nat →
  for_planes n i in_data body m =
  run_planes (seq i (nb_planes in_data - i)) body m.
Proof.
  intros Hlen. revert i m. induction n as [|n IH]; intros i m Hn Hi Hlead; [lia|].
  simpl. destruct (lookup_lt_is_Some_2 in_data i) as [d Hd]; [lia|].
  rewrite Hd. simpl. unfold nb_planes. destruct d as [p|].
  - pose proof (leading_step _ _ _ Hlead Hd) as Hlead'.
    case_decide as Hlt.
    + replace (4 `min` leading in_data - i)%nat
        with (S (4 `min` leading in_data - S i)) by lia.
      simpl. destruct (body i m) as [m'|]; [|done]. simpl.
      apply IH; lia.
    + by replace (4 `min` leading in_data - i)%nat with O by lia.
  - pose proof (leading_stop _ _ Hd).
    by replace (4 `min` leading in_data - i)%nat with O by lia.
Qed.

Lemma run_planes_inv (I : nat → mem → Prop) k body m :
  I O m →
  (∀ i mc, (i < k)%nat → I i mc → ∃ m', body i mc = Some m' ∧ I (S i) m') →
  ∃ m', run_planes (seq 0 k) body m = Some m' ∧ I k m'.
Proof.
  intros H0 Hstep.
  assert (∀ n i mc, (i + n = k)%nat → I i mc →
            ∃ m', run_planes (seq i n) body mc = Some m' ∧ I k m') as Hgen.
  { induction n as [|n IH]; intros i mc Hin Hi.
    - assert (i = k) as -> by lia. by exists mc.
    - simpl. destruct (Hstep i mc) as (m1 & -> & H1); [lia|done|]. simpl.
      apply IH; [lia|done]. }
  by apply Hgen.
Qed.

Lemma layout_ok_shape m m' dst dls src sls w h t0 t1 :
  same_shape m m' → layout_ok m dst dls src sls w h t0 t1 →
  layout_ok m' dst dls src sls w h t0 t1.
Proof.
  intros Hs (? & ? & ? & ? & ?).
  split; [by eapply plane_fits_shape|]. split; [by eapply plane_fits_shape|].
  split; [by eapply temp_fits_shape|]. split; [by eapply temp_fits_shape|]. done.
Qed.

Lemma plane_dims hs vs w h (i : nat) :
  (i < 4)%nat →
  [w; sar32 w hs; sar32 w hs; w] !! i = Some (plane_w hs w i) ∧
  [h; sar32 h vs; sar32 h vs; h] !! i = Some (plane_h vs h i).
Proof.
  intros Hi. unfold plane_w, plane_h.
  destruct i as [|[|[|[|i]]]]; [..|lia]; split; simpl; try case_decide; try done; lia.
Qed.

Lemma free_block_trace b m : trace (free_block b m) = trace m.
Proof. done. Qed.

Lemma av_frame_free_trace f m : trace (av_frame_free f m) = trace m.
Proof.
  unfold av_frame_free. induction (data f) as [|[q|] l IH]; simpl; done.
Qed.

Lemma av_frame_free_other f m b :
  (∀ q, Some q ∈ data f → blk q ≠ b) →
  heap (av_frame_free f m) !! b = heap m !! b.
Proof.
  unfold av_frame_free. induction (data f) as [|[q|] l IH]; intros Hb; simpl.
  - done.
  - rewrite list_lookup_insert_ne by (apply Hb; left).
    apply IH. intros q' Hq'. apply Hb. by right.
  - apply IH. intros q' Hq'. apply Hb. by right.
Qed.

Lemma free_all_length (l : list (option ptr)) m :
  length (heap (foldr (λ d m, if d is Some q then free_block (blk q) m else m) m l))
  = length (heap m).
Proof.
  induction l as [|[q|] l IH]; simpl; [done| |done]. by rewrite length_insert.
Qed.

Lemma av_frame_free_released f m q :
  Some q ∈ data f → is_Some (heap m !! blk q) →
  heap (av_frame_free f m) !! blk q = Some [].
Proof.
  intros Hq Hm. apply lookup_lt_is_Some in Hm.
  assert (∀ l, Some q ∈ l →
            heap (foldr (λ d m, if d is Some q then free_block (blk q) m else m) m l)
              !! blk q = Some []) as Hgen; [|by apply Hgen].
  induction l as [|[q'|] l IH]; intros Hl.
  - by apply elem_of_nil in Hl.
  - simpl. destruct (decide (blk q' = blk q)) as [Heq|Hne].
    + rewrite Heq. apply list_lookup_insert_eq. by rewrite free_all_length.
    + rewrite list_lookup_insert_ne by done. apply IH.
      apply elem_of_cons in Hl as [?|?]; [by simplify_eq|done].
  - simpl. apply IH. apply elem_of_cons in Hl as [?|?]; [done|done].
Qed.

Lemma hblur_cells_inside dst ls w h :
  Forall (λ q, ∃ x y, 0 ≤ x < w ∧ 0 ≤ y < h ∧ q = cell dst ls x y)
         (hblur_cells dst ls w h).
Proof.
  unfold hblur_cells. apply Forall_bind, Forall_seqZ. intros y Hy. simpl.
  apply Forall_fmap, Forall_seqZ. intros x Hx. simpl.
  exists x, y. split; [lia|]. split; [lia|done].
Qed.

Lemma vblur_cells_inside dst ls w h :
  Forall (λ q, ∃ x y, 0 ≤ x < w ∧ 0 ≤ y < h ∧ q = cell dst ls x y)
         (vblur_cells dst ls w h).
Proof.
  unfold vblur_cells. apply Forall_bind, Forall_seqZ. intros x Hx. simpl.
  apply Forall_fmap, Forall_seqZ. intros y Hy. simpl.
  exists x, y. split; [lia|]. split; [lia|done].
Qed.

(** One of the two loops of [filter_frame] over the planes [ds]: [step]
    leaves in each destination plane what [res] gives for it, touches no
    block but that plane's and the scratch buffers', and outside the
    scratch buffers stores to samples of that plane only. *)
Section phase.

Variables (m0 : mem) (t0 t1 : ptr) (ds : list plane_desc).
Variable step : nat → mem → option mem.
Variable res : plane_desc → Z → Z → Z.

Hypothesis Hdist : ∀ i j d e, ds !! i = Some d → ds !! j = Some e → i ≠ j →
  blk (pd_dst d) ≠ blk (pd_dst e).
Hypothesis Htemps : ∀ i d, ds !! i = Some d →
  blk (pd_dst d) ≠ blk t0 ∧ blk (pd_dst d) ≠ blk t1.
Hypothesis Hstep : ∀ i d mc, ds !! i = Some d →
  same_shape m0 mc →
  (∀ b, (∀ j e, (j < i)%nat → ds !! j = Some e → b ≠ blk (pd_dst e)) →
        b ≠ blk t0 → b ≠ blk t1 → heap mc !! b = heap m0 !! b) →
  ∃ m', step i mc = Some m' ∧ same_shape mc m' ∧
        (∀ b, b ≠ blk (pd_dst d) → b ≠ blk t0 → b ≠ blk t1 →
              heap m' !! b = heap mc !! b) ∧
        (∀ x y, 0 ≤ x < pd_w d → 0 ≤ y < pd_h d →
           load m' (cell (pd_dst d) (pd_dls d) x y) = Some (res d x y)) ∧
        ∃ cells, user_trace t0 t1 m' = user_trace t0 t1 mc ++ cells ∧
                 Forall (in_dst_plane d) cells.

Lemma phase_spec :
  ∃ m', run_planes (seq 0 (length ds)) step m0 = Some m' ∧
        same_shape m0 m' ∧
        (∀ b, (∀ j e, ds !! j = Some e → b ≠ blk (pd_dst e)) →
              b ≠ blk t0 → b ≠ blk t1 → heap m' !! b = heap m0 !! b) ∧
        (∀ i d x y, ds !! i = Some d → 0 ≤ x < pd_w d → 0 ≤ y < pd_h d →
           load m' (cell (pd_dst d) (pd_dls d) x y) = Some (res d x y)) ∧
        ∃ tw, user_trace t0 t1 m' = user_trace t0 t1 m0 ++ tw ∧
              Forall (λ q, ∃ i d, ds !! i = Some d ∧ in_dst_plane d q) tw.
Proof.
  destruct (run_planes_inv
    (λ i mc, same_shape m0 mc ∧
       (∀ b, (∀ j e, (j < i)%nat → ds !! j = Some e → b ≠ blk (pd_dst e)) →
             b ≠ blk t0 → b ≠ blk t1 → heap mc !! b = heap m0 !! b) ∧
       (∀ j d x y, (j < i)%nat → ds !! j = Some d →
          0 ≤ x < pd_w d → 0 ≤ y < pd_h d →
          load mc (cell (pd_dst d) (pd_dls d) x y) = Some (res d x y)) ∧
       ∃ tw, user_trace t0 t1 mc = user_trace t0 t1 m0 ++ tw ∧
             Forall (λ q, ∃ i d, ds !! i = Some d ∧ in_dst_plane d q) tw)
    (length ds) step m0) as (m' & Hm' & Hs & Hother & Hout & Htr).
  - split; [done|]. split; [done|]. split; [intros; lia|].
    exists []. by rewrite app_nil_r.
  - intros i mc Hi (Hs & Hother & Hout & tw & Htw & Hin).
    destruct (lookup_lt_is_Some_2 ds i Hi) as [d Hd].
    destruct (Hstep i d mc Hd Hs Hother)
      as (m' & Hm' & Hs' & Hother' & Hout' & cells & Hcells & Hcin).
    exists m'. split; [done|]. split; [by eapply same_shape_trans|].
    split; [|split].
    + intros b Hb ? ?. rewrite Hother' by (done || by eapply Hb; [|done]; lia).
      apply Hother; [|done..]. intros j e ? ?. eapply Hb; [|done]. lia.
    + intros j e x y Hj He Hx Hy. destruct (decide (j = i)) as [->|Hne].
      * simplify_eq. by apply Hout'.
      * rewrite <- (Hout j e x y) by (done || lia). apply load_heap_eq.
        unfold cell. rewrite blk_padd.
        destruct (Htemps j e He) as [? ?].
        apply Hother'; [|done..]. by apply (Hdist j i e d).
    + exists (tw ++ cells). split; [by rewrite Hcells, Htw, app_assoc|].
      apply Forall_app. split; [done|].
      clear -Hcin Hd. induction Hcin; constructor; [by exists i, d|done].
  - exists m'. split; [done|]. split; [done|]. split; [|split; [|done]].
    + intros b Hb ? ?. apply Hother; [|done..]. intros j e _ He. by eapply Hb.
    + intros i d x y Hd. apply (Hout i); [|done]. by eapply lookup_lt_Some.
Qed.

End phase.

Lemma plane_desc_lookups boxblur inlink_w in_ out i d :
  plane_desc_of boxblur inlink_w in_ out i = Some d →
  mjoin (data out !! i) = Some (pd_dst d) ∧ linesize out !! i = Some (pd_dls d) ∧
  mjoin (data in_ !! i) = Some (pd_src d) ∧ linesize in_ !! i = Some (pd_sls d) ∧
  radius boxblur !! i = Some (pd_r d) ∧ power boxblur !! i = Some (pd_p d) ∧
  pd_w d = plane_w (hsub boxblur) inlink_w i ∧
  pd_h d = plane_h (vsub boxblur) (height in_) i.
Proof.
  unfold plane_desc_of.
  destruct (mjoin (data out !! i)) as [dst|]; [|done].
  destruct (linesize out !! i) as [dls|]; [|done].
  destruct (mjoin (data in_ !! i)) as [src|]; [|done].
  destruct (linesize in_ !! i) as [sls|]; [|done].
  destruct (radius boxblur !! i) as [r|]; [|done].
  destruct (power boxblur !! i) as [p|]; [|done].
  simpl. intros [= <-]. done.
Qed.

Lemma filter_frame_spec boxblur inlink_w in_ out m t0 t1 ds :
  (4 < length (data in_))%nat →
  temp boxblur !! 0%nat = Some (Some t0) → temp boxblur !! 1%nat = Some (Some t1) →
  length ds = nb_planes (data in_) →
  (∀ i d, ds !! i = Some d → plane_desc_of boxblur inlink_w in_ out i = Some d) →
  frame_ok m t0 t1 ds →
  (∀ q i d, Some q ∈ data in_ → ds !! i = Some d → blk q ≠ blk (pd_dst d)) →
  ∃ m', filter_frame boxblur inlink_w in_ (Some out) m = Some (Frame out, m') ∧
        (∀ b, (∀ j e, ds !! j = Some e → b ≠ blk (pd_dst e)) →
              (∀ q, Some q ∈ data in_ → b ≠ blk q) →
              b ≠ blk t0 → b ≠ blk t1 → heap m' !! b = heap m !! b) ∧
        (∀ i d x y, ds !! i = Some d → 0 ≤ x < pd_w d → 0 ≤ y < pd_h d →
           load m' (cell (pd_dst d) (pd_dls d) x y) =
           Some (blur_plane (pd_r d) (pd_p d) (pd_w d) (pd_h d)
                   (plane_of m (pd_src d) (pd_sls d)) x y)) ∧
        (∃ tw, user_trace t0 t1 m' = user_trace t0 t1 m ++ tw ∧
               Forall (λ q, ∃ i d, ds !! i = Some d ∧ in_dst_plane d q) tw) ∧
        (∀ q, Some q ∈ data in_ → is_Some (heap m !! blk q) →
              heap m' !! blk q = Some []).
Proof.
  intros Hlen Ht0 Ht1 Hn Hdesc [Hlay Hcross] Hin.
  assert (∀ i d, ds !! i = Some d → (i < 4)%nat) as Hi4.
  { intros i d Hd. apply lookup_lt_Some in Hd. unfold nb_planes in Hn. lia. }
  assert (∀ i j d e, ds !! i = Some d → ds !! j = Some e → i ≠ j →
            blk (pd_dst d) ≠ blk (pd_dst e)) as Hdist.
  { intros i j d e Hd He Hne. by apply (Hcross i j d e). }
  assert (∀ i d, ds !! i = Some d →
            blk (pd_dst d) ≠ blk t0 ∧ blk (pd_dst d) ≠ blk t1) as Htemps.
  { intros i d Hd. destruct (Hlay i d Hd) as [(_ & _ & _ & _ & _ & _ & _ & ? & ? & _) _].
    done. }
  unfold filter_frame. rewrite Ht0, Ht1. cbn [mjoin option_join mbind option_bind].
  rewrite (for_planes_run 5 0) by (done || lia).
  rewrite Nat.sub_0_r, <- Hn.
  (* the horizontal passes *)
  destruct (phase_spec m t0 t1 ds
    (λ plane m,
       dst ← mjoin (data out !! plane); dls ← linesize out !! plane;
       src ← mjoin (data in_ !! plane); sls ← linesize in_ !! plane;
       wp ← [inlink_w; sar32 inlink_w (hsub boxblur);
             sar32 inlink_w (hsub boxblur); inlink_w] !! plane;
       hp ← [height in_; sar32 (height in_) (vsub boxblur);
             sar32 (height in_) (vsub boxblur); height in_] !! plane;
       r ← radius boxblur !! plane; p ← power boxblur !! plane;
       hblur dst dls src sls wp hp r p t0 t1 m)
    (λ d, hblur_plane (pd_r d) (pd_p d) (pd_w d) (plane_of m (pd_src d) (pd_sls d))))
    as (m1 & Hm1 & Hs1 & Hother1 & Hout1 & tw1 & Htw1 & Hin1); [done|done| |].
  { intros i d mc Hd Hs Hother.
    destruct (plane_desc_lookups _ _ _ _ _ _ (Hdesc i d Hd))
      as (-> & -> & -> & -> & -> & -> & Hw & Hh).
    destruct (plane_dims (hsub boxblur) (vsub boxblur) inlink_w (height in_) i)
      as [-> ->]; [by eapply Hi4|].
    cbn [mbind option_bind]. rewrite <- Hw, <- Hh.
    destruct (Hlay i d Hd) as (Hl & Hokw & Hokh).
    destruct (hblur_spec mc (pd_dst d) (pd_dls d) (pd_src d) (pd_sls d)
                (pd_w d) (pd_h d) (pd_r d) (pd_p d) t0 t1)
      as (m' & Hm' & Hs' & Ho' & Hp' & Htr'); [by eapply layout_ok_shape|done|].
    exists m'. split; [done|]. split; [done|]. split; [done|]. split.
    - intros x y Hx Hy. rewrite Hp' by done. f_equal.
      apply hblur_plane_ext. intros x' Hx'. unfold plane_of. f_equal.
      apply load_heap_eq. unfold cell. rewrite blk_padd.
      destruct Hl as (_ & _ & _ & _ & _ & ? & ? & _).
      apply Hother; [|done..]. intros j e _ He Heq.
      by destruct (Hcross j i e d He Hd) as [? _].
    - eexists. split; [done|]. case_match; [done|]. apply hblur_cells_inside. }
  rewrite Hm1. cbn [mbind option_bind].
  rewrite (for_planes_run 5 0) by (done || lia). rewrite Nat.sub_0_r, <- Hn.
  (* the vertical passes, in place *)
  destruct (phase_spec m1 t0 t1 ds
    (λ plane m,
       dst ← mjoin (data out !! plane); dls ← linesize out !! plane;
       wp ← [inlink_w; sar32 inlink_w (hsub boxblur);
             sar32 inlink_w (hsub boxblur); inlink_w] !! plane;
       hp ← [height in_; sar32 (height in_) (vsub boxblur);
             sar32 (height in_) (vsub boxblur); height in_] !! plane;
       r ← radius boxblur !! plane; p ← power boxblur !! plane;
       vblur dst dls dst dls wp hp r p t0 t1 m)
    (λ d, vblur_plane (pd_r d) (pd_p d) (pd_h d) (plane_of m1 (pd_dst d) (pd_dls d))))
    as (m2 & Hm2 & Hs2 & Hother2 & Hout2 & tw2 & Htw2 & Hin2); [done|done| |].
  { intros i d mc Hd Hs Hother.
    destruct (plane_desc_lookups _ _ _ _ _ _ (Hdesc i d Hd))
      as (-> & -> & _ & _ & -> & -> & Hw & Hh).
    destruct (plane_dims (hsub boxblur) (vsub boxblur) inlink_w (height in_) i)
      as [-> ->]; [by eapply Hi4|].
    cbn [mbind option_bind]. rewrite <- Hw, <- Hh.
    destruct (Hlay i d Hd) as (Hl & Hokw & Hokh).
    destruct (vblur_spec mc (pd_dst d) (pd_dls d) (pd_dst d) (pd_dls d)
                (pd_w d) (pd_h d) (pd_r d) (pd_p d) t0 t1)
      as (m' & Hm' & Hs' & Ho' & Hp' & Htr'); [|done|].
    { eapply layout_ok_in_place; [|done]. by eapply same_shape_trans. }
    exists m'. split; [done|]. split; [done|]. split; [done|]. split.
    - intros x y Hx Hy. rewrite Hp' by done. f_equal.
      apply vblur_plane_ext. intros y' Hy'. unfold plane_of. f_equal.
      apply load_heap_eq. unfold cell. rewrite blk_padd.
      destruct (Htemps i d Hd) as [? ?].
      apply Hother; [|done..]. intros j e Hj He.
      apply (Hdist i j d e); [done|done|lia].
    - eexists. split; [done|]. case_match; [done|]. apply vblur_cells_inside. }
  rewrite Hm2. cbn [mbind option_bind].
  exists (av_frame_free in_ m2). split; [done|].
  assert (∀ b, (∀ q, Some q ∈ data in_ → b ≠ blk q) →
               heap (av_frame_free in_ m2) !! b = heap m2 !! b) as Hfree.
  { intros b Hb. apply av_frame_free_other. intros q Hq Heq.
    by apply (Hb q). }
  split; [|split; [|split]].
  - intros b Hb Hbin ? ?. rewrite Hfree, Hother2, Hother1 by done. done.
  - intros i d x y Hd Hx Hy.
    rewrite <- (load_heap_eq m2) by
      (symmetry; apply Hfree; intros q Hq; unfold cell; rewrite blk_padd;
       intros Heq; by apply (Hin q i d)).
    rewrite (Hout2 i d x y) by done. f_equal.
    unfold blur_plane. apply vblur_plane_ext. intros y' Hy'.
    apply load_plane_of. by apply (Hout1 i).
  - exists (tw1 ++ tw2). unfold user_trace at 1. rewrite av_frame_free_trace.
    fold (user_trace t0 t1 m2). rewrite Htw2, Htw1, app_assoc. split; [done|].
    apply Forall_app. done.
  - intros q Hq Hm. apply av_frame_free_released; [done|].
    apply lookup_lt_is_Some. apply lookup_lt_is_Some in Hm.
    assert (length (heap m2) = length (heap m)) as ->; [|done].
    assert (same_shape m m2) as Hs by (by eapply same_shape_trans).
    unfold same_shape in Hs. apply (f_equal length) in Hs.
    by rewrite !length_fmap in Hs.
Qed.

(** X28.  The plane loops of [filter_frame] run their body on planes 0,
    1, ... in order and stop at the first [NULL] pointer of [in->data], or
    after plane 3: a plane behind a [NULL] pointer is never visited, and
    never more than four planes are. *)
Theorem plane_loop_stops_at_first_null in_data body m :
  (4 < length in_data)%nat →
  for_planes 5 0 in_data body m = run_planes (seq 0 (nb_planes in_data)) body m.
Proof.
  intros Hlen. rewrite (for_planes_run 5 0) by (done || lia).
  by rewrite Nat.sub_0_r.
Qed.

Lemma plane_loop_stops_at_first_null_witness :
  for_planes 5 0 [Some (Ptr 0 0); None; Some (Ptr 4 0); None; None; None; None; None]
    (λ plane, store (Ptr 1 (Z.of_nat plane)) 9) demo_frame_mem =
  run_planes
    (seq 0 (nb_planes
              [Some (Ptr 0 0); None; Some (Ptr 4 0); None; None; None; None; None]))
    (λ plane, store (Ptr 1 (Z.of_nat plane)) 9) demo_frame_mem.
Proof.
  apply plane_loop_stops_at_first_null. simpl. lia.
Defined.

(** X29.  Take a frame in which, for every plane that is visited, twice
    the plane's radius is below the plane's width and height (or the radius
    or the power is 0), the planes and the scratch buffers lie inside their
    buffers, and every output plane has a buffer of its own, apart from the
    scratch buffers and from every buffer of the input frame.  Then
    [filter_frame] hands on the output frame with, in each visited plane,
    the column blur of the row blur of the same plane of the input frame,
    with that plane's radius and power and, for planes 1 and 2, the chroma
    dimensions. *)
Theorem filter_frame_blurs_every_plane boxblur inlink_w in_ out m t0 t1 ds :
  (4 < length (data in_))%nat →
  temp boxblur !! 0%nat = Some (Some t0) → temp boxblur !! 1%nat = Some (Some t1) →
  length ds = nb_planes (data in_) →
  (∀ i d, ds !! i = Some d → plane_desc_of boxblur inlink_w in_ out i = Some d) →
  frame_ok m t0 t1 ds →
  (∀ q i d, Some q ∈ data in_ → ds !! i = Some d → blk q ≠ blk (pd_dst d)) →
  ∃ m', filter_frame boxblur inlink_w in_ (Some out) m = Some (Frame out, m') ∧
        ∀ i d x y, ds !! i = Some d → 0 ≤ x < pd_w d → 0 ≤ y < pd_h d →
          load m' (cell (pd_dst d) (pd_dls d) x y) =
          Some (vblur_plane (pd_r d) (pd_p d) (pd_h d)
                  (hblur_plane (pd_r d) (pd_p d) (pd_w d)
                     (plane_of m (pd_src d) (pd_sls d))) x y).
Proof.
  intros Hlen Ht0 Ht1 Hn Hdesc Hok Hin.
  destruct (filter_frame_spec boxblur inlink_w in_ out m t0 t1 ds)
    as (m' & Hm' & _ & Hout & _); try done.
  by exists m'.
Qed.

Lemma filter_frame_blurs_every_plane_witness :
  ∃ m', filter_frame demo_frame_context 3 demo_frame_in (Some demo_frame_out)
          demo_frame_mem = Some (Frame demo_frame_out, m') ∧
        ∀ i d x y, demo_frame_planes !! i = Some d →
          0 ≤ x < pd_w d → 0 ≤ y < pd_h d →
          load m' (cell (pd_dst d) (pd_dls d) x y) =
          Some (vblur_plane (pd_r d) (pd_p d) (pd_h d)
                  (hblur_plane (pd_r d) (pd_p d) (pd_w d)
                     (plane_of demo_frame_mem (pd_src d) (pd_sls d))) x y).
Proof.
  apply (filter_frame_blurs_every_plane demo_frame_context 3 demo_frame_in
           demo_frame_out demo_frame_mem (Ptr 2 0) (Ptr 3 0) demo_frame_planes).
  - simpl. lia.
  - reflexivity.
  - reflexivity.
  - reflexivity.
  - intros [|[|i]] d Hd; simpl in Hd; simplify_eq; reflexivity.
  - split.
    + intros [|[|i]] d Hd; simpl in Hd; simplify_eq;
        cbn [pd_dst pd_dls pd_src pd_sls pd_w pd_h pd_r pd_p];
        (split; [concrete_layout_ok|split; right; right; lia]).
    + intros [|[|i]] [|[|j]] d e Hd He; simpl in Hd, He; simplify_eq;
        (split; [simpl; lia|intros ?; simpl; lia]).
  - intros q i d Hq Hd. unfold demo_frame_in in Hq. simpl in Hq.
    destruct i as [|[|i]]; simpl in Hd; simplify_eq;
      repeat (apply elem_of_cons in Hq as [Hq|Hq]; [simplify_eq; simpl; lia|]);
      by apply elem_of_nil in Hq.
Defined.

(** X30.  Under the conditions of X29, [filter_frame] stores, outside the
    scratch buffers, only to samples of the output planes it visits, so
    never to the input frame; it ends by releasing the input frame, whose
    buffers are empty afterwards; and the buffers that are neither output
    planes, nor scratch buffers, nor the input frame's hold what they held
    before. *)
Theorem filter_frame_writes_only_output_planes
    boxblur inlink_w in_ out m t0 t1 ds :
  (4 < length (data in_))%nat →
  temp boxblur !! 0%nat = Some (Some t0) → temp boxblur !! 1%nat = Some (Some t1) →
  length ds = nb_planes (data in_) →
  (∀ i d, ds !! i = Some d → plane_desc_of boxblur inlink_w in_ out i = Some d) →
  frame_ok m t0 t1 ds →
  (∀ q i d, Some q ∈ data in_ → ds !! i = Some d → blk q ≠ blk (pd_dst d)) →
  ∃ m', filter_frame boxblur inlink_w in_ (Some out) m = Some (Frame out, m') ∧
        (∃ tw, user_trace t0 t1 m' = user_trace t0 t1 m ++ tw ∧
               Forall (λ q, ∃ i d, ds !! i = Some d ∧ in_dst_plane d q) tw) ∧
        (∀ q, Some q ∈ data in_ → is_Some (heap m !! blk q) →
              heap m' !! blk q = Some []) ∧
        (∀ b, (∀ j e, ds !! j = Some e → b ≠ blk (pd_dst e)) →
              (∀ q, Some q ∈ data in_ → b ≠ blk q) →
              b ≠ blk t0 → b ≠ blk t1 → heap m' !! b = heap m !! b).
Proof.
  intros Hlen Ht0 Ht1 Hn Hdesc Hok Hin.
  destruct (filter_frame_spec boxblur inlink_w in_ out m t0 t1 ds)
    as (m' & Hm' & Hother & _ & Htr & Hrel); try done.
  by exists m'.
Qed.

Lemma filter_frame_writes_only_output_planes_witness :
  ∃ m', filter_frame demo_frame_context 3 demo_frame_in (Some demo_frame_out)
          demo_frame_mem = Some (Frame demo_frame_out, m') ∧
        (∃ tw, user_trace (Ptr 2 0) (Ptr 3 0) m' =
               user_trace (Ptr 2 0) (Ptr 3 0) demo_frame_mem ++ tw ∧
               Forall (λ q, ∃ i d, demo_frame_planes !! i = Some d ∧
                                   in_dst_plane d q) tw) ∧
        (∀ q, Some q ∈ data demo_frame_in →
              is_Some (heap demo_frame_mem !! blk q) →
              heap m' !! blk q = Some []) ∧
        (∀ b, (∀ j e, demo_frame_planes !! j = Some e → b ≠ blk (pd_dst e)) →
              (∀ q, Some q ∈ data demo_frame_in → b ≠ blk q) →
              b ≠ blk (Ptr 2 0) → b ≠ blk (Ptr 3 0) →
              heap m' !! b = heap demo_frame_mem !! b).
Proof.
  apply (filter_frame_writes_only_output_planes demo_frame_context 3 demo_frame_in
           demo_frame_out demo_frame_mem (Ptr 2 0) (Ptr 3 0) demo_frame_planes).
  - simpl. lia.
  - reflexivity.
  - reflexivity.
  - reflexivity.
  - intros [|[|i]] d Hd; simpl in Hd; simplify_eq; reflexivity.
  - split.
    + intros [|[|i]] d Hd; simpl in Hd; simplify_eq;
        cbn [pd_dst pd_dls pd_src pd_sls pd_w pd_h pd_r pd_p];
        (split; [concrete_layout_ok|split; right; right; lia]).
    + intros [|[|i]] [|[|j]] d e Hd He; simpl in Hd, He; simplify_eq;
        (split; [simpl; lia|intros ?; simpl; lia]).
  - intros q i d Hq Hd. unfold demo_frame_in in Hq. simpl in Hq.
    destruct i as [|[|i]]; simpl in Hd; simplify_eq;
      repeat (apply elem_of_cons in Hq as [Hq|Hq]; [simplify_eq; simpl; lia|]);
      by apply elem_of_nil in Hq.
Defined.
